(** * Lazy cached sequences (lazyseq.py), the primes sieve (primes.py) and the
      Fermi-Dirac merge (potencias.py): a shallow embedding and its properties.

    Python integers are [Z]; a Python list is a [list]; a generator is a state
    machine whose [next] is a function of its suspended state.  An operation
    of a sequence object is a function from the object's state to an outcome
    and the state it leaves behind. *)

From Stdlib Require Import ZArith List Lia Bool String Ascii DecimalString.
From mathcomp Require ssreflect ssrfun ssrbool eqtype ssrnat seq div prime bigop binomial.
Import ListNotations.
Open Scope Z_scope.

(** ** Exceptions and outcomes *)

(** The Python exceptions the code can raise. *)
Inductive exn : Type :=
| OverflowError
| IndexError
| StopIteration
| TypeError
| ZeroDivisionError
| RuntimeError
| ValueError (msg : string).

(** What a call does: it returns, it raises, or the loop bound given to the
    model (fuel) ran out before the Python loop ended. *)
Inductive outcome (A : Type) : Type :=
| Ok (a : A)
| Raise (e : exn)
| Timeout.
Arguments Ok {A} a.
Arguments Raise {A} e.
Arguments Timeout {A}.

(** [sys.maxsize] of a 64-bit CPython, used by the code as "infinity". *)
Definition INFINITE : Z := 2 ^ 63 - 1.

(** [l[i]] on a Python list: a negative index counts from the end. *)
Definition list_getitem {T : Type} (l : list T) (i : Z) : outcome T :=
  let n := Z.of_nat (List.length l) in
  let j := if i <? 0 then i + n else i in
  if (j <? 0) || (n <=? j) then Raise IndexError
  else match nth_error l (Z.to_nat j) with
       | Some x => Ok x
       | None => Raise IndexError
       end.

(** ** Slices and ranges *)

Record slice : Type := mk_slice
  { sl_start : option Z; sl_stop : option Z; sl_step : option Z }.

Record range : Type := mk_range
  { r_start : Z; r_stop : Z; r_step : Z }.

(** One bound of [slice.indices(length)]. *)
Definition slice_bound (len lower upper : Z) (dflt : Z) (b : option Z) : Z :=
  match b with
  | None => dflt
  | Some v =>
      if v <? 0 then (if v + len <? lower then lower else v + len)
      else (if upper <? v then upper else v)
  end.

(** [range(len)[sl]]: the slice is resolved against [len] as
    [slice.indices] does; a zero step raises [ValueError]. *)
Definition range_getitem_slice (len : Z) (sl : slice) : outcome range :=
  let step := match sl_step sl with None => 1 | Some s => s end in
  if step =? 0 then Raise (ValueError "slice step cannot be zero")
  else
    let neg := step <? 0 in
    let lower := if neg then -1 else 0 in
    let upper := if neg then len - 1 else len in
    let start := slice_bound len lower upper (if neg then upper else lower) (sl_start sl) in
    let stop := slice_bound len lower upper (if neg then lower else upper) (sl_stop sl) in
    Ok (mk_range start stop step).

(** [len(range(start, stop, step))], for a step that is not zero. *)
Definition range_len (r : range) : Z :=
  if 0 <? r_step r then
    (if r_start r <? r_stop r then (r_stop r - r_start r - 1) / r_step r + 1 else 0)
  else
    (if r_stop r <? r_start r then (r_start r - r_stop r - 1) / (- r_step r) + 1 else 0).

(** The values a [for] loop over the range visits, in order. *)
Definition range_elems (r : range) : list Z :=
  map (fun k => r_start r + Z.of_nat k * r_step r) (seq 0 (Z.to_nat (range_len r))).

(** ** LazySequence *)

Section LazySequence.

(** [T]: the values; [S]: the suspended states of the wrapped iterator. *)
Variables T S : Type.

(** [next(self.iterator)].  The iterator can hold a reference to the list
    that caches its values ([Primes.__genprimes] does), so a pull reads the
    list as it is at the time of the pull. *)
Variable next_iterator : list T -> S -> outcome T * S.

Record LazySequence : Type := mk_seq
  { _cache : list T; iterator : S }.

(** A method: from the object's state to an outcome and the new state. *)
Definition M (A : Type) : Type := LazySequence -> outcome A * LazySequence.

Definition ret {A : Type} (a : A) : M A := fun s => (Ok a, s).
Definition raise {A : Type} (e : exn) : M A := fun s => (Raise e, s).
Definition bind {A B : Type} (m : M A) (k : A -> M B) : M B :=
  fun s => match m s with
           | (Ok a, s') => k a s'
           | (Raise e, s') => (Raise e, s')
           | (Timeout, s') => (Timeout, s')
           end.

Definition size (s : LazySequence) : Z := Z.of_nat (List.length (_cache s)).

Definition last (s : LazySequence) : option T :=
  if 0 <? size s then nth_error (_cache s) (List.length (_cache s) - 1) else None.

(** [__next__]: one pull, appended to the cache. *)
Definition __next__ : M T :=
  fun s => match next_iterator (_cache s) (iterator s) with
           | (Ok x, it) => (Ok x, mk_seq (_cache s ++ [x]) it)
           | (o, it) => (o, mk_seq (_cache s) it)
           end.

(** [self._cache.extend(islice(self.iterator, k))]: at most [k] pulls, each
    value appended as soon as it is pulled; [islice] ends quietly when the
    iterator raises [StopIteration]. *)
Fixpoint extend_islice (k : nat) (s : LazySequence) : outcome unit * LazySequence :=
  match k with
  | O => (Ok tt, s)
  | Datatypes.S k' =>
      match next_iterator (_cache s) (iterator s) with
      | (Ok x, it) => extend_islice k' (mk_seq (_cache s ++ [x]) it)
      | (Raise StopIteration, it) => (Ok tt, mk_seq (_cache s) it)
      | (Raise e, it) => (Raise e, mk_seq (_cache s) it)
      | (Timeout, it) => (Timeout, mk_seq (_cache s) it)
      end
  end.

(** [islice(it, k)] refuses a bound above [sys.maxsize]. *)
Definition islice_stop_msg : string :=
  "Stop argument for islice() must be None or an integer: 0 <= x <= sys.maxsize.".

(** [__getitem__] with an [int]. *)
Definition __getitem_int__ (idx : Z) : M T :=
  fun s =>
    if idx <? 0 then (Raise OverflowError, s)
    else
      let forced :=
        if size s <=? idx then
          (if INFINITE <? idx - size s + 1 then (Raise (ValueError islice_stop_msg), s)
           else extend_islice (Z.to_nat (idx - size s + 1)) s)
        else (Ok tt, s) in
      match forced with
      | (Ok _, s') => (list_getitem (_cache s') idx, s')
      | (Raise e, s') => (Raise e, s')
      | (Timeout, s') => (Timeout, s')
      end.

(** The list comprehension [[self[i] for i in rng]]. *)
Fixpoint list_comp (f : Z -> M T) (rng : list Z) : M (list T) :=
  match rng with
  | [] => ret []
  | i :: rng' =>
      bind (f i) (fun x => bind (list_comp f rng') (fun xs => ret (x :: xs)))
  end.

(** [__getitem__] with a [slice]. *)
Definition __getitem_slice__ (sl : slice) : M (list T) :=
  fun s =>
    match range_getitem_slice INFINITE sl with
    | Ok rng => list_comp __getitem_int__ (range_elems rng) s
    | Raise e => (Raise e, s)
    | Timeout => (Timeout, s)
    end.

(** [__iter__] is a generator: it first walks the cache list itself (so it
    sees what others append meanwhile), then indexes the sequence from the
    length the cache has when the walk ends. *)
Inductive iter_state : Type :=
| IterCache (j : nat)
| IterIndex (i : Z)
| IterDone.

Definition iter_index (i : Z) (s : LazySequence)
  : outcome T * iter_state * LazySequence :=
  if i <? INFINITE then
    match __getitem_int__ i s with
    | (Ok x, s') => (Ok x, IterIndex (i + 1), s')
    | (Raise e, s') => (Raise e, IterDone, s')
    | (Timeout, s') => (Timeout, IterIndex i, s')
    end
  else (Raise StopIteration, IterDone, s).

Definition iter_next (st : iter_state) (s : LazySequence)
  : outcome T * iter_state * LazySequence :=
  match st with
  | IterCache j =>
      match nth_error (_cache s) j with
      | Some x => (Ok x, IterCache (Datatypes.S j), s)
      | None => iter_index (size s) s
      end
  | IterIndex i => iter_index i s
  | IterDone => (Raise StopIteration, IterDone, s)
  end.

(** [k] pulls in a row that all yield a value: the values and the state of
    the iterator after them. *)
Fixpoint produce (k : nat) (c : list T) (it : S) : option (list T * S) :=
  match k with
  | O => Some ([], it)
  | Datatypes.S k' =>
      match next_iterator c it with
      | (Ok x, it') =>
          match produce k' (c ++ [x]) it' with
          | Some (xs, it'') => Some (x :: xs, it'')
          | None => None
          end
      | _ => None
      end
  end.

End LazySequence.

Arguments mk_seq {T S} _ _.
Arguments _cache {T S} _.
Arguments iterator {T S} _.
Arguments size {T S} _.
Arguments last {T S} _.
Arguments ret {T S A} _ _.
Arguments raise {T S A} _ _.
Arguments bind {T S A B} _ _ _.
Arguments __next__ {T S} _ _.
Arguments extend_islice {T S} _ _ _.
Arguments __getitem_int__ {T S} _ _ _.
Arguments list_comp {T S} _ _ _.
Arguments __getitem_slice__ {T S} _ _ _.
Arguments iter_index {T S} _ _ _.
Arguments iter_next {T S} _ _ _.
Arguments produce {T S} _ _ _ _.

(** ** LazySortedSequence *)

(** [bisect.bisect_left(a, x)] with [lo = 0] and [hi = len(a)]: the loop
    [while lo < hi: mid = (lo + hi) // 2; ...].  The interval shrinks at every
    turn, so [len(a)] turns are enough (lemma [bisect_loop_fuel]). *)
Fixpoint bisect_loop (fuel : nat) (a : list Z) (x : Z) (lo hi : nat) : nat :=
  match fuel with
  | O => lo
  | Datatypes.S f =>
      if (lo <? hi)%nat then
        let mid := ((lo + hi) / 2)%nat in
        if nth mid a 0 <? x then bisect_loop f a x (mid + 1)%nat hi
        else bisect_loop f a x lo mid
      else lo
  end.

Definition bisect_left (a : list Z) (x : Z) : nat :=
  bisect_loop (List.length a) a x 0 (List.length a).

(** [str(x)] for an [int]. *)
Definition str (x : Z) : string := NilZero.string_of_int (Z.to_int x).

Section LazySortedSequence.

Variable S : Type.
Variable next_iterator : list Z -> S -> outcome Z * S.

(** [self.__class__.__name__] *)
Variable class_name : string.

(** [while x > next(self): pass] *)
Fixpoint insertpos_loop (fuel : nat) (x : Z) (s : LazySequence Z S)
  : outcome unit * LazySequence Z S :=
  match fuel with
  | O => (Timeout, s)
  | Datatypes.S f =>
      match __next__ next_iterator s with
      | (Ok v, s') => if x >? v then insertpos_loop f x s' else (Ok tt, s')
      | (Raise e, s') => (Raise e, s')
      | (Timeout, s') => (Timeout, s')
      end
  end.

(** [self.size > 0 and x <= self.last] *)
Definition within_cache (x : Z) (s : LazySequence Z S) : bool :=
  (0 <? size s) && match last s with Some l => x <=? l | None => false end.

Definition insertpos (fuel : nat) (x : Z) : M Z S Z :=
  fun s =>
    if within_cache x s then (Ok (Z.of_nat (bisect_left (_cache s) x)), s)
    else match insertpos_loop fuel x s with
         | (Ok _, s') => (Ok (size s' - 1), s')
         | (Raise e, s') => (Raise e, s')
         | (Timeout, s') => (Timeout, s')
         end.

Definition __contains__ (fuel : nat) (x : Z) : M Z S bool :=
  bind (insertpos fuel x) (fun idx s =>
    match list_getitem (_cache s) idx with
    | Ok v => (Ok (x =? v), s)
    | Raise e => (Raise e, s)
    | Timeout => (Timeout, s)
    end).

Definition index (fuel : nat) (x : Z) : M Z S Z :=
  bind (insertpos fuel x) (fun idx s =>
    match list_getitem (_cache s) idx with
    | Ok v => if x =? v then (Ok idx, s)
              else (Raise (ValueError (str x ++ " is not in " ++ class_name)), s)
    | Raise e => (Raise e, s)
    | Timeout => (Timeout, s)
    end).

End LazySortedSequence.

Arguments insertpos_loop {S} _ _ _ _.
Arguments within_cache {S} _ _.
Arguments insertpos {S} _ _ _ _.
Arguments __contains__ {S} _ _ _ _.
Arguments index {S} _ _ _ _ _.

(** ** The example of the module's docstring: the squares *)

(** [(i * i for i in range(0, INFINITE))]; the state is the next [i]. *)
Definition squares_next (_ : list Z) (i : Z) : outcome Z * Z :=
  if i <? INFINITE then (Ok (i * i), i + 1) else (Raise StopIteration, i).

Definition Squares : LazySequence Z Z := mk_seq [] 0.


(** ** Primes *)

(** [islice(l, start, stop)] on a list, for bounds that are not negative. *)
Definition islice_list {T : Type} (l : list T) (start stop : Z) : list T :=
  firstn (Z.to_nat (stop - start)) (skipn (Z.to_nat start) l).

(** [any(n % d == 0 for d in ds)]: stops at the first divisor found; [n % 0]
    raises. *)
Fixpoint any_divides (n : Z) (ds : list Z) : outcome bool :=
  match ds with
  | [] => Ok false
  | d :: ds' =>
      if d =? 0 then Raise ZeroDivisionError
      else if n mod d =? 0 then Ok true
      else any_divides n ds'
  end.

Module Primes.

(** Where [__genprimes] is suspended: before its first statement, at its
    [yield n] (with the [top] and [stop] of the segment), or ended. *)
Inductive gen_state : Type :=
| GenStart
| GenYield (top stop n : Z)
| GenDead.

(** The [for n in range(start, stop, 2)] loop from candidate [n] on, and the
    segments after it, up to the next [yield]; the cache does not change
    meanwhile.  The inner [for p in islice(_primes, 1, top)] with its
    [break]/[else] is [any_divides]. *)
Fixpoint scan (fuel : nat) (cache : list Z) (top stop n : Z) : outcome (Z * Z * Z) :=
  match fuel with
  | O => Timeout
  | Datatypes.S f =>
      if n <? stop then
        match any_divides n (islice_list cache 1 top) with
        | Ok true => scan f cache top stop (n + 2)
        | Ok false => Ok (top, stop, n)
        | Raise e => Raise e
        | Timeout => Timeout
        end
      else
        match list_getitem cache (top + 1) with
        | Ok p => scan f cache (top + 1) (p ^ 2) (stop + 2)
        | Raise e => Raise e
        | Timeout => Timeout
        end
  end.

Definition resume (g : gen_state) (r : outcome (Z * Z * Z)) : outcome Z * gen_state :=
  match r with
  | Ok (top, stop, n) => (Ok n, GenYield top stop n)
  | Raise e => (Raise e, GenDead)
  | Timeout => (Timeout, g)
  end.

(** [next] of the generator [__genprimes]; [_primes] is the cache. *)
Definition __genprimes (fuel : nat) (_primes : list Z) (g : gen_state)
  : outcome Z * gen_state :=
  match g with
  | GenStart =>
      match list_getitem _primes 1 with
      | Ok p => resume g (scan fuel _primes 1 (p ^ 2) 5)
      | Raise e => (Raise e, GenDead)
      | Timeout => (Timeout, g)
      end
  | GenYield top stop n => resume g (scan fuel _primes top stop (n + 2))
  | GenDead => (Raise StopIteration, GenDead)
  end.

(** [Primes()]: the cache seeded with 2 and 3, the generator not started. *)
Definition __init__ : LazySequence Z gen_state := mk_seq [2; 3] GenStart.

Definition isqrt_msg : string := "isqrt() argument must be nonnegative".

(** [Primes.__contains__]; [self.last] is read anew at each use. *)
Definition __contains__ (fuel : nat) (n : Z) : M Z gen_state bool :=
  fun s =>
    match last s with
    | None => (Raise TypeError, s)
    | Some l =>
        if n <=? l then __contains__ (__genprimes fuel) fuel n s
        else if n <? 0 then (Raise (ValueError isqrt_msg), s)
        else
          let root := Z.sqrt n in
          bind (if root >? l then ret (size s)
                else insertpos (__genprimes fuel) fuel root)
            (fun top s' =>
               match any_divides n (islice_list (_cache s') 1 top) with
               | Ok true => (Ok false, s')
               | Ok false =>
                   match last s' with
                   | None => (Raise TypeError, s')
                   | Some l' =>
                       match any_divides n (range_elems (mk_range (l' + 2) (root + 1) 2)) with
                       | Ok true => (Ok false, s')
                       | Ok false => (Ok true, s')
                       | Raise e => (Raise e, s')
                       | Timeout => (Timeout, s')
                       end
                   end
               | Raise e => (Raise e, s')
               | Timeout => (Timeout, s')
               end) s
    end.

(** The sequence's own [__getitem__] and [index], with the generator's fuel. *)
Definition getitem (fuel : nat) (i : Z) : M Z gen_state Z :=
  __getitem_int__ (__genprimes fuel) i.

Definition index (fuel : nat) (x : Z) : M Z gen_state Z :=
  index (__genprimes fuel) "Primes" fuel x.

End Primes.

(** [primes = Primes()] and [isprime = primes.__contains__]. *)
Definition primes : LazySequence Z Primes.gen_state := Primes.__init__.
Definition isprime (fuel : nat) (n : Z) : M Z Primes.gen_state bool :=
  Primes.__contains__ fuel n.

(** The indices [a, a+1, ..., b-1]. *)
Definition indices (a b : Z) : list Z :=
  map (fun k => a + Z.of_nat k) (seq 0 (Z.to_nat (b - a))).

(** ** What the iterator has produced, and runs of operations *)

Section Trace.

Variables T S : Type.
Variable next_iterator : list T -> S -> outcome T * S.

(** [pulled s xs s']: a run of pulls of the iterator leads from [s] to [s'];
    [xs] are the values the pulls produced, in order, each appended to the
    cache as it came; a pull that raises (or times out) only moves the
    iterator. *)
Inductive pulled : LazySequence T S -> list T -> LazySequence T S -> Prop :=
| pulled_refl (s : LazySequence T S) : pulled s [] s
| pulled_value (s : LazySequence T S) (x : T) (it : S) (xs : list T) (s' : LazySequence T S) :
    next_iterator (_cache s) (iterator s) = (Ok x, it) ->
    pulled (mk_seq (_cache s ++ [x]) it) xs s' ->
    pulled s (x :: xs) s'
| pulled_other (s : LazySequence T S) (o : outcome T) (it : S) (xs : list T) (s' : LazySequence T S) :
    next_iterator (_cache s) (iterator s) = (o, it) ->
    (forall x, o <> Ok x) ->
    pulled (mk_seq (_cache s) it) xs s' ->
    pulled s xs s'.

End Trace.

Arguments pulled {T S} _ _ _ _.

Section Operations.

Variable S : Type.
Variable next_iterator : list Z -> S -> outcome Z * S.
Variable class_name : string.

(** The operations of a sorted sequence; an iteration step carries the state
    of the [__iter__] generator it resumes. *)
Inductive op : Type :=
| OpNext
| OpGetitem (i : Z)
| OpSlice (sl : slice)
| OpInsertpos (fuel : nat) (x : Z)
| OpContains (fuel : nat) (x : Z)
| OpIndex (fuel : nat) (x : Z)
| OpIter (st : iter_state).

(** The state an operation leaves behind, whatever its outcome. *)
Definition exec (o : op) (s : LazySequence Z S) : LazySequence Z S :=
  match o with
  | OpNext => snd (__next__ next_iterator s)
  | OpGetitem i => snd (__getitem_int__ next_iterator i s)
  | OpSlice sl => snd (__getitem_slice__ next_iterator sl s)
  | OpInsertpos fuel x => snd (insertpos next_iterator fuel x s)
  | OpContains fuel x => snd (__contains__ next_iterator fuel x s)
  | OpIndex fuel x => snd (index next_iterator class_name fuel x s)
  | OpIter st => snd (iter_next next_iterator st s)
  end.

Definition run (ops : list op) (s : LazySequence Z S) : LazySequence Z S :=
  fold_left (fun s o => exec o s) ops s.

End Operations.

Arguments exec {S} _ _ _ _.
Arguments run {S} _ _ _ _.

(** ** Order *)

(** The list is in non-decreasing order. *)
Definition nondecreasing (l : list Z) : Prop :=
  forall i j : nat, (i <= j < List.length l)%nat -> nth i l 0 <= nth j l 0.

(** [idx] is the leftmost index of [l] whose value is at least [x]. *)
Definition leftmost_ge (l : list Z) (x : Z) (idx : Z) : Prop :=
  0 <= idx < Z.of_nat (List.length l) /\
  x <= nth (Z.to_nat idx) l 0 /\
  forall j : nat, (j < Z.to_nat idx)%nat -> nth j l 0 < x.

(** A test for [nondecreasing], for concrete lists. *)
Fixpoint sortedb (l : list Z) : bool :=
  match l with
  | a :: (b :: _) as t => (a <=? b) && sortedb t
  | _ => true
  end.

(** ** Primes, as numbers *)

(** [p] is a prime number. *)
Definition is_prime (p : Z) : Prop :=
  1 < p /\ forall d : Z, 1 < d < p -> ~ (d | p).

(** ** A finite iterator: [iter(l)] for a list [l] *)

(** The state is what is left of the list; at its end every pull raises
    [StopIteration]. *)
Definition list_iterator {T : Type} (_ : list T) (l : list T) : outcome T * list T :=
  match l with
  | [] => (Raise StopIteration, [])
  | x :: l' => (Ok x, l')
  end.

(** ** Iteration *)

(** An [__iter__] generator that has yielded [k] values so far: it still
    walks the cache and stands at [k], within the cache, or it indexes the
    sequence and stands at [k]. *)
Definition iter_at {T S : Type} (k : nat) (st : iter_state) (s : LazySequence T S) : Prop :=
  match st with
  | IterCache j => j = k /\ (k <= List.length (_cache s))%nat
  | IterIndex i => i = Z.of_nat k
  | IterDone => False
  end.

(** ** The states of the primes sequence *)

(** The list is in strictly increasing order. *)
Definition increasing (l : list Z) : Prop :=
  forall i j : nat, (i < j < List.length l)%nat -> nth i l 0 < nth j l 0.

(** The last value of a list of integers (0 for the empty list). *)
Definition last_of (l : list Z) : Z := nth (List.length l - 1) l 0.

(** [l] starts with 2 and 3 and lists, in increasing order, exactly the
    primes up to its last value. *)
Definition prime_prefix (l : list Z) : Prop :=
  (exists rest, l = 2 :: 3 :: rest) /\
  increasing l /\
  (forall p, In p l -> is_prime p) /\
  (forall p, is_prime p -> p <= last_of l -> In p l).

(** The generator [__genprimes] agrees with the cache [c]: it has not
    started and the cache is the seed, or it is suspended at [yield n] where
    [n] is the last cached value, below [stop], the square of [c[top]]. *)
Definition gen_ok (c : list Z) (g : Primes.gen_state) : Prop :=
  match g with
  | Primes.GenStart => c = [2; 3]
  | Primes.GenYield top stop n =>
      1 <= top < Z.of_nat (List.length c) /\
      stop = nth (Z.to_nat top) c 0 ^ 2 /\
      n = last_of c /\
      n < stop
  | Primes.GenDead => False
  end.

Definition primes_ok (s : LazySequence Z Primes.gen_state) : Prop :=
  prime_prefix (_cache s) /\ gen_ok (_cache s) (iterator s).

(** The states of the sequence [primes]: [Primes()] and what any operation,
    with any bound on its loops, leads to. *)
Inductive reachable : LazySequence Z Primes.gen_state -> Prop :=
| reach_init : reachable primes
| reach_exec (s : LazySequence Z Primes.gen_state) (fuel : nat) (o : op) :
    reachable s ->
    reachable (exec (Primes.__genprimes fuel) "Primes" o s)
| reach_isprime (s : LazySequence Z Primes.gen_state) (fuel : nat) (n : Z) :
    reachable s ->
    reachable (snd (isprime fuel n s)).

(** What holds whenever the loops of [__genprimes] are about to look at the
    candidate [n]: the cache lists the primes up to its last value, [n] is
    odd and above them with no prime in between, and the segment ends at
    [stop], the square of [c[top]]. *)
Definition scan_inv (c : list Z) (top stop n : Z) : Prop :=
  prime_prefix c /\
  1 <= top < Z.of_nat (List.length c) /\
  stop = nth (Z.to_nat top) c 0 ^ 2 /\
  last_of c < n <= stop /\
  n mod 2 = 1 /\
  (forall q, is_prime q -> last_of c < q -> n <= q).

(** [n] is the least prime above the values of [c]. *)
Definition next_prime (c : list Z) (n : Z) : Prop :=
  is_prime n /\ last_of c < n /\ (forall q, is_prime q -> last_of c < q -> n <= q).

(** ** Potencias: the powers [p ** 2 ** k] of the primes, merged *)

Module Potencias.

(** The state of the shared sequence [primes]. *)
Definition primes_state : Type := LazySequence Z Primes.gen_state.

(** An exception that leaves the body of a generator: [StopIteration]
    becomes [RuntimeError]. *)
Definition in_generator (e : exn) : exn :=
  match e with
  | StopIteration => RuntimeError
  | _ => e
  end.

(** [next] of [mkiter(k)]: the next value of its iteration over [primes],
    raised to [2 ** k]; [st] is the state of that iteration. *)
Definition mkiter (fuel : nat) (k : nat) (st : iter_state) (P : primes_state)
  : outcome Z * iter_state * primes_state :=
  match iter_next (Primes.__genprimes fuel) st P with
  | (Ok p, st', P') => (Ok (p ^ 2 ^ Z.of_nat k), st', P')
  | (Raise e, st', P') => (Raise e, st', P')
  | (Timeout, st', P') => (Timeout, st', P')
  end.

(** Which [next] of [join] is pending after its [yield]: [x = next(s1)]
    after [yield x], [y = next(s2)] after [yield y]. *)
Inductive side : Type := Left | Right.

(** A started [flat(it)]: suspended at [yield next(s1)], or inside
    [join(s1, flat(it))] at one of its yields, with the [x] and [y] it
    holds; [st] is the state of [s1]. *)
Inductive level : Type :=
| Head (st : iter_state)
| Join (st : iter_state) (x y : Z) (sd : side).

(** The [if x <= y] of [join]: what is yielded, and where it suspends. *)
Definition join (st : iter_state) (x y : Z) : Z * level :=
  if x <=? y then (x, Join st x y Left) else (y, Join st x y Right).

(** [next] of the [flat(it)] whose [s1] is [mkiter(k)]; [ls] holds the
    states of this [flat] and of the nested ones, the outermost first, as
    far as they have been started: [it] is shared and hands out
    [mkiter(k)], [mkiter(k + 1)], ... in the order the nested calls start.
    An exception ends all the generators it passes through. *)
Fixpoint flat (fuel : nat) (k : nat) (ls : list level) (P : primes_state)
  : outcome Z * list level * primes_state :=
  match ls with
  | [] =>
      match mkiter fuel k (IterCache 0) P with
      | (Ok v, st, P1) => (Ok v, [Head st], P1)
      | (Raise e, _, P1) => (Raise (in_generator e), [], P1)
      | (Timeout, _, P1) => (Timeout, [], P1)
      end
  | Head st :: rest =>
      match mkiter fuel k st P with
      | (Ok x, st', P1) =>
          match flat fuel (Datatypes.S k) rest P1 with
          | (Ok y, rest', P2) =>
              (Ok (fst (join st' x y)), snd (join st' x y) :: rest', P2)
          | (Raise e, _, P2) => (Raise (in_generator e), [], P2)
          | (Timeout, _, P2) => (Timeout, [], P2)
          end
      | (Raise e, _, P1) => (Raise (in_generator e), [], P1)
      | (Timeout, _, P1) => (Timeout, [], P1)
      end
  | Join st x y Left :: rest =>
      match mkiter fuel k st P with
      | (Ok x', st', P1) =>
          (Ok (fst (join st' x' y)), snd (join st' x' y) :: rest, P1)
      | (Raise e, _, P1) => (Raise (in_generator e), [], P1)
      | (Timeout, _, P1) => (Timeout, [], P1)
      end
  | Join st x y Right :: rest =>
      match flat fuel (Datatypes.S k) rest P with
      | (Ok y', rest', P1) =>
          (Ok (fst (join st x y')), snd (join st x y') :: rest', P1)
      | (Raise e, _, P1) => (Raise (in_generator e), [], P1)
      | (Timeout, _, P1) => (Timeout, [], P1)
      end
  end.

(** The iterator of [potencias]: the outermost [flat], alive with the
    states of the started levels, or ended by an exception; and the state
    of [primes]. *)
Definition gen_state : Type := option (list level) * primes_state.

Definition next_iterator (fuel : nat) (_ : list Z) (g : gen_state)
  : outcome Z * gen_state :=
  match g with
  | (None, P) => (Raise StopIteration, g)
  | (Some ls, P) =>
      match flat fuel 0 ls P with
      | (Ok v, ls', P') => (Ok v, (Some ls', P'))
      | (Raise e, _, P') => (Raise e, (None, P'))
      | (Timeout, _, P') => (Timeout, (None, P'))
      end
  end.

(** [LazySortedSequence(flat(mkiter(k) for k in count()))], with [primes]
    in state [P]. *)
Definition __init__ (P : primes_state) : LazySequence Z gen_state :=
  mk_seq [] (Some [], P).

End Potencias.

(** [potencias], when the module is loaded with a fresh [primes]. *)
Definition potencias : LazySequence Z Potencias.gen_state := Potencias.__init__ primes.

(** ** The states of [potencias] *)

(** [w] is a power [p ** 2 ** j] of a prime [p], with [j] from [k] on;
    from 0 on these are the numbers [potencias] is to list. *)
Definition fermi_dirac_from (k : nat) (w : Z) : Prop :=
  exists (p : Z) (j : nat), is_prime p /\ (k <= j)%nat /\ w = p ^ 2 ^ Z.of_nat j.

Definition fermi_dirac (w : Z) : Prop := fermi_dirac_from 0 w.

(** The started levels [ls], from [flat] number [k] on, fit the state [P] of
    [primes], and [v] is the value level [k] yielded last.  A level at its
    first yield has yielded [2 ** 2 ** k] and the next level is not started.
    A level inside [join] holds in [x] the power of the prime its iteration
    over [primes] yielded last and in [y] the last value of the next level;
    it has yielded the smaller one, and the other is the next of its kind
    above it. *)
Fixpoint level_ok (P : Potencias.primes_state) (k : nat) (ls : list Potencias.level) (v : Z)
  : Prop :=
  match ls with
  | [] => False
  | Potencias.Head st :: rest =>
      rest = [] /\ iter_at 1 st P /\ v = 2 ^ 2 ^ Z.of_nat k
  | Potencias.Join st x y sd :: rest =>
      (exists (j : nat) (p : Z),
         (1 <= j)%nat /\ iter_at (Datatypes.S j) st P /\
         nth_error (_cache P) j = Some p /\ x = p ^ 2 ^ Z.of_nat k) /\
      level_ok P (Datatypes.S k) rest y /\
      match sd with
      | Potencias.Left =>
          v = x /\ x < y /\
          (forall w, fermi_dirac_from (Datatypes.S k) w -> w < y -> w < x)
      | Potencias.Right =>
          v = y /\ y < x /\
          (forall q, is_prime q -> q ^ 2 ^ Z.of_nat k < x -> q ^ 2 ^ Z.of_nat k < y)
      end
  end.

(** [c] lists, in increasing order, exactly the numbers [p ** 2 ** k] up to
    its last value. *)
Definition fermi_dirac_prefix (c : list Z) : Prop :=
  increasing c /\
  (forall w, In w c <-> fermi_dirac w /\ w <= last_of c).

Definition potencias_ok (s : LazySequence Z Potencias.gen_state) : Prop :=
  primes_ok (snd (iterator s)) /\
  fermi_dirac_prefix (_cache s) /\
  match fst (iterator s) with
  | None => True
  | Some ls =>
      (ls = [] /\ _cache s = []) \/
      ((0 < List.length (_cache s))%nat /\
       level_ok (snd (iterator s)) 0 ls (last_of (_cache s)))
  end.

(** The states of [potencias]: the sequence as created, over any state of
    [primes]; what an operation on it leads to; and what an operation of
    someone else on the shared [primes] leads to. *)
Inductive potencias_reachable : LazySequence Z Potencias.gen_state -> Prop :=
| pot_init (P : Potencias.primes_state) :
    reachable P -> potencias_reachable (Potencias.__init__ P)
| pot_exec (s : LazySequence Z Potencias.gen_state) (fuel : nat) (o : op) :
    potencias_reachable s ->
    potencias_reachable (exec (Potencias.next_iterator fuel) "LazySortedSequence" o s)
| pot_primes (c : list Z) (g : option (list Potencias.level)) (P : Potencias.primes_state)
    (fuel : nat) (o : op) :
    potencias_reachable (mk_seq c (g, P)) ->
    potencias_reachable (mk_seq c (g, exec (Primes.__genprimes fuel) "Primes" o P)).

(** ** [LazySequence.islice] *)

Section Islice.

Variables T S : Type.
Variable next_iterator : list T -> S -> outcome T * S.

(** [range(start, stop, step)] with the arguments [islice] ends up with:
    a [stop] of [-1], the default, moves [start] to [stop] and starts from
    0; a [stop] of [None] is [INFINITE].  [start] and [stop] are an [int] or
    [None], [step] is an [int]. *)
Definition islice_range (start stop : option Z) (step : Z) : outcome range :=
  let '(start1, stop1) :=
    match stop with
    | Some (-1) => (Some 0, start)
    | _ => (start, stop)
    end in
  let stop2 := match stop1 with None => INFINITE | Some b => b end in
  match start1 with
  | None => Raise TypeError
  | Some a =>
      if step =? 0 then Raise (ValueError "range() arg 3 must not be zero")
      else Ok (mk_range a stop2 step)
  end.

(** The generator [islice(start, stop, step)]: not started, with its
    arguments; at index [i] of its range; or ended. *)
Inductive islice_state : Type :=
| IsliceStart (start stop : option Z) (step : Z)
| IsliceRun (i stop step : Z)
| IsliceDone.

Definition islice_run (i stop step : Z) (s : LazySequence T S)
  : outcome T * islice_state * LazySequence T S :=
  if (if 0 <? step then i <? stop else stop <? i) then
    match __getitem_int__ next_iterator i s with
    | (Ok x, s') => (Ok x, IsliceRun (i + step) stop step, s')
    | (Raise e, s') => (Raise (Potencias.in_generator e), IsliceDone, s')
    | (Timeout, s') => (Timeout, IsliceRun i stop step, s')
    end
  else (Raise StopIteration, IsliceDone, s).

(** [next] of the generator. *)
Definition islice_next (st : islice_state) (s : LazySequence T S)
  : outcome T * islice_state * LazySequence T S :=
  match st with
  | IsliceStart start stop step =>
      match islice_range start stop step with
      | Ok r => islice_run (r_start r) (r_stop r) (r_step r) s
      | Raise e => (Raise e, IsliceDone, s)
      | Timeout => (Timeout, st, s)
      end
  | IsliceRun i stop step => islice_run i stop step s
  | IsliceDone => (Raise StopIteration, IsliceDone, s)
  end.

(** [list(gen)] for the generator in state [st]: [fuel] bounds the number
    of values. *)
Fixpoint islice_to_list (fuel : nat) (st : islice_state) (s : LazySequence T S)
  : outcome (list T) * LazySequence T S :=
  match fuel with
  | O => (Timeout, s)
  | Datatypes.S f =>
      match islice_next st s with
      | (Ok x, st', s') =>
          match islice_to_list f st' s' with
          | (Ok xs, s'') => (Ok (x :: xs), s'')
          | (Raise e, s'') => (Raise e, s'')
          | (Timeout, s'') => (Timeout, s'')
          end
      | (Raise StopIteration, _, s') => (Ok [], s')
      | (Raise e, _, s') => (Raise e, s')
      | (Timeout, _, s') => (Timeout, s')
      end
  end.

End Islice.

Arguments islice_run {T S} _ _ _ _ _.
Arguments islice_next {T S} _ _ _.
Arguments islice_to_list {T S} _ _ _ _.

(** ** GenericRange *)

Module GenericRange.

(** [range(start, stop, step)]. *)
Definition range_new (start stop step : Z) : outcome range :=
  if step =? 0 then Raise (ValueError "range() arg 3 must not be zero")
  else Ok (mk_range start stop step).

(** [r[idx]] for a range [r] and an [int]. *)
Definition range_getitem (r : range) (idx : Z) : outcome Z :=
  let n := range_len r in
  let j := if idx <? 0 then idx + n else idx in
  if (j <? 0) || (n <=? j) then Raise IndexError
  else Ok (r_start r + j * r_step r).

(** [r[sl]] for a range [r] and a slice: the slice is resolved against
    [len(r)], and the bounds found are taken as positions in [r]. *)
Definition range_getslice (r : range) (sl : slice) : outcome range :=
  match range_getitem_slice (range_len r) sl with
  | Ok ix =>
      Ok (mk_range (r_start r + r_start ix * r_step r)
                   (r_start r + r_stop ix * r_step r)
                   (r_step r * r_step ix))
  | Raise e => Raise e
  | Timeout => Timeout
  end.

Section GenericRange.

(** The method [getitem] of the subclass. *)
Variable getitem : Z -> outcome Z.

(** The object is its [_range].  [stop] is an [int] or [None]. *)
Definition __init__ (start : Z) (stop : option Z) (step : Z) : outcome range :=
  match stop with
  | None => range_new 0 start step
  | Some b => range_new start b step
  end.

(** [cls()] and then [instance._range = rng]. *)
Definition from_range (rng : range) : outcome range :=
  match __init__ 0 None 1 with
  | Ok _ => Ok rng
  | Raise e => Raise e
  | Timeout => Timeout
  end.

(** [len] refuses a length above [sys.maxsize]. *)
Definition __len__ (self : range) : outcome Z :=
  if range_len self <=? INFINITE then Ok (range_len self) else Raise OverflowError.

Definition __getitem_int__ (self : range) (idx : Z) : outcome Z :=
  match range_getitem self idx with
  | Ok i => getitem i
  | Raise e => Raise e
  | Timeout => Timeout
  end.

Definition __getitem_slice__ (self : range) (idx : slice) : outcome range :=
  match range_getslice self idx with
  | Ok i => from_range i
  | Raise e => Raise e
  | Timeout => Timeout
  end.

Definition __repr__ (classname : string) (self : range) : string :=
  (classname ++ "(" ++ str (r_start self) ++ ", " ++ str (r_stop self) ++ ", "
   ++ str (r_step self) ++ ")")%string.

End GenericRange.

End GenericRange.

(** * Properties *)

Example squares_contains_10000 :
  fst (__contains__ squares_next 200 10000 Squares) = Ok true.
Proof. vm_compute. reflexivity. Qed.

Example squares_slice_10 :
  fst (__getitem_slice__ squares_next (mk_slice None (Some 10) None) Squares)
  = Ok [0; 1; 4; 9; 16; 25; 36; 49; 64; 81].
Proof. vm_compute. reflexivity. Qed.

Example str_examples :
  str 15476304 = "15476304"%string /\ str 0 = "0"%string /\ str (-12) = "-12"%string.
Proof. repeat split. Qed.

Example primes_first :
  fst (__getitem_slice__ (Primes.__genprimes 100) (mk_slice None (Some 12) None) primes)
  = Ok [2; 3; 5; 7; 11; 13; 17; 19; 23; 29; 31; 37].
Proof. vm_compute. reflexivity. Qed.

Example isprime_fresh :
  map (fun n => fst (isprime 100 n primes)) [1; 2; 3; 4; 5; 9; 15; 25]
  = [Ok false; Ok true; Ok true; Ok true; Ok true; Ok true; Ok true; Ok false].
Proof. vm_compute. reflexivity. Qed.

(** ** Python lists and ranges *)

Lemma list_getitem_nth_error {T : Type} (l : list T) (i : Z) (x : T) :
  0 <= i -> nth_error l (Z.to_nat i) = Some x -> list_getitem l i = Ok x.
Proof.
  intros Hi Hn. unfold list_getitem.
  assert (Hlt : (Z.to_nat i < List.length l)%nat)
    by (apply nth_error_Some; congruence).
  destruct (i <? 0) eqn:E; [apply Z.ltb_lt in E; lia|].
  destruct (i <? 0) eqn:E1; [apply Z.ltb_lt in E1; lia|].
  destruct (Z.of_nat (List.length l) <=? i) eqn:E2; [apply Z.leb_le in E2; lia|].
  simpl. now rewrite Hn.
Qed.

Lemma list_getitem_in_range {T : Type} (l : list T) (i : Z) :
  0 <= i < Z.of_nat (List.length l) ->
  exists x, nth_error l (Z.to_nat i) = Some x /\ list_getitem l i = Ok x.
Proof.
  intros Hi.
  destruct (nth_error l (Z.to_nat i)) as [x|] eqn:E.
  - exists x. split; [reflexivity|]. apply list_getitem_nth_error; [lia|assumption].
  - apply nth_error_None in E. lia.
Qed.

Lemma list_getitem_out_of_range {T : Type} (l : list T) (i : Z) :
  Z.of_nat (List.length l) <= i -> list_getitem l i = Raise IndexError.
Proof.
  intros Hi. unfold list_getitem.
  destruct (i <? 0) eqn:E; [apply Z.ltb_lt in E; lia|].
  destruct (i <? 0) eqn:E1; [apply Z.ltb_lt in E1; lia|].
  destruct (Z.of_nat (List.length l) <=? i) eqn:E2; [reflexivity|].
  apply Z.leb_gt in E2. lia.
Qed.

Lemma list_getitem_Ok_inv {T : Type} (l : list T) (i : Z) (x : T) :
  0 <= i -> list_getitem l i = Ok x ->
  nth_error l (Z.to_nat i) = Some x /\ i < Z.of_nat (List.length l).
Proof.
  intros Hi. unfold list_getitem.
  destruct (i <? 0) eqn:E; [apply Z.ltb_lt in E; lia|].
  rewrite E. simpl.
  destruct (Z.of_nat (List.length l) <=? i) eqn:E2; [discriminate|].
  apply Z.leb_gt in E2.
  destruct (nth_error l (Z.to_nat i)); [|discriminate].
  intros H; inversion H; subst. split; [reflexivity|lia].
Qed.

Lemma range_elems_step1 (a b : Z) : range_elems (mk_range a b 1) = indices a b.
Proof.
  unfold range_elems, indices, range_len. simpl.
  replace (Z.to_nat (if a <? b then (b - a - 1) / 1 + 1 else 0)) with (Z.to_nat (b - a)).
  - apply map_ext. intros k. lia.
  - destruct (a <? b) eqn:E.
    + rewrite Z.div_1_r. f_equal. lia.
    + apply Z.ltb_ge in E. destruct (b - a) eqn:D; try reflexivity; lia.
Qed.

(** ** LazySequence: indexing *)

Section LazySequenceFacts.

Variables T S : Type.
Variable next_iterator : list T -> S -> outcome T * S.

Local Abbreviation at_ := (__getitem_int__ next_iterator).

Lemma produce_length (k : nat) : forall c it xs it',
  produce next_iterator k c it = Some (xs, it') -> List.length xs = k.
Proof.
  induction k as [|k IH]; simpl; intros c it xs it' H.
  - inversion H; reflexivity.
  - destruct (next_iterator c it) as [[x| |] it1]; try discriminate.
    destruct (produce next_iterator k (c ++ [x]) it1) as [[ys it2]|] eqn:E; try discriminate.
    inversion H; subst. simpl. f_equal. eapply IH; eassumption.
Qed.

(** [k] successful pulls extend the cache by exactly the [k] values. *)
Lemma extend_islice_produce (k : nat) : forall c it xs it',
  produce next_iterator k c it = Some (xs, it') ->
  extend_islice next_iterator k (mk_seq c it) = (Ok tt, mk_seq (c ++ xs) it').
Proof.
  induction k as [|k IH]; simpl; intros c it xs it' H.
  - inversion H; subst. now rewrite app_nil_r.
  - destruct (next_iterator c it) as [[x| |] it1]; try discriminate.
    destruct (produce next_iterator k (c ++ [x]) it1) as [[ys it2]|] eqn:E; try discriminate.
    inversion H; subst. rewrite (IH _ _ _ _ E). now rewrite <- app_assoc.
Qed.

Lemma getitem_int_cached (s : LazySequence T S) (i : Z) :
  0 <= i < size s ->
  exists x, nth_error (_cache s) (Z.to_nat i) = Some x /\ at_ i s = (Ok x, s).
Proof.
  intros Hi. destruct (list_getitem_in_range (_cache s) i Hi) as [x [Hn Hg]].
  exists x. split; [assumption|]. unfold __getitem_int__.
  destruct (i <? 0) eqn:E; [apply Z.ltb_lt in E; lia|].
  destruct (size s <=? i) eqn:E1; [apply Z.leb_le in E1; lia|].
  now rewrite Hg.
Qed.

Lemma getitem_int_negative (s : LazySequence T S) (i : Z) :
  i < 0 -> at_ i s = (Raise OverflowError, s).
Proof.
  intros Hi. unfold __getitem_int__.
  destruct (i <? 0) eqn:E; [reflexivity|apply Z.ltb_ge in E; lia].
Qed.

Lemma getitem_int_forced (s : LazySequence T S) (i : Z) (xs : list T) (it' : S) :
  size s <= i -> i - size s + 1 <= INFINITE ->
  produce next_iterator (Z.to_nat (i - size s + 1)) (_cache s) (iterator s) = Some (xs, it') ->
  exists x, nth_error (_cache s ++ xs) (Z.to_nat i) = Some x /\
            at_ i s = (Ok x, mk_seq (_cache s ++ xs) it') /\
            size (mk_seq (_cache s ++ xs) it') = i + 1.
Proof.
  intros Hi Hmax Hp.
  assert (Hs : 0 <= size s) by (unfold size; lia).
  pose proof (produce_length _ _ _ _ _ Hp) as Hlen.
  assert (Hsz : size (mk_seq (_cache s ++ xs) it') = i + 1).
  { unfold size in *. simpl. rewrite length_app. lia. }
  destruct (list_getitem_in_range (_cache s ++ xs) i) as [x [Hn Hg]].
  { unfold size in Hsz. simpl in Hsz. lia. }
  exists x. split; [assumption|]. split; [|assumption].
  unfold __getitem_int__.
  destruct (i <? 0) eqn:E; [apply Z.ltb_lt in E; lia|].
  destruct (size s <=? i) eqn:E1; [|apply Z.leb_gt in E1; lia].
  destruct (INFINITE <? i - size s + 1) eqn:E2; [apply Z.ltb_lt in E2; lia|].
  destruct s as [c it]. simpl in *.
  rewrite (extend_islice_produce _ _ _ _ _ Hp). simpl. now rewrite Hg.
Qed.

(** C4: an index inside the cache is answered from the cache and changes
    nothing; an index beyond it pulls exactly [i + 1 - size] values, after
    which the size is [i + 1]; asking again gives the same value and the
    same state. *)
Theorem getitem_int_forces_exactly (s : LazySequence T S) (i : Z) :
  0 <= i ->
  (i < size s ->
     exists x, nth_error (_cache s) (Z.to_nat i) = Some x /\
               at_ i s = (Ok x, s)) /\
  (size s <= i -> i - size s + 1 <= INFINITE ->
     forall xs it',
       produce next_iterator (Z.to_nat (i - size s + 1)) (_cache s) (iterator s)
         = Some (xs, it') ->
       let s' := mk_seq (_cache s ++ xs) it' in
       exists x, List.length xs = Z.to_nat (i + 1 - size s) /\
                 at_ i s = (Ok x, s') /\
                 size s' = i + 1 /\
                 at_ i s' = (Ok x, s')).
Proof.
  intros Hi. split.
  - intros Hlt. apply getitem_int_cached. lia.
  - intros Hge Hmax xs it' Hp s'. subst s'.
    destruct (getitem_int_forced s i xs it' Hge Hmax Hp) as [x [Hn [Hat Hsz]]].
    exists x. split.
    { rewrite (produce_length _ _ _ _ _ Hp). f_equal. lia. }
    split; [exact Hat|]. split; [exact Hsz|].
    destruct (getitem_int_cached (mk_seq (_cache s ++ xs) it') i) as [y [Hy Hat']]; [lia|].
    simpl in Hy. rewrite Hn in Hy. inversion Hy; subst. exact Hat'.
Qed.

End LazySequenceFacts.

Lemma getitem_int_forces_exactly_witness :
  exists x, List.length [0; 1; 4; 9] = Z.to_nat (3 + 1 - size Squares) /\
            __getitem_int__ squares_next 3 Squares = (Ok x, mk_seq [0; 1; 4; 9] 4) /\
            size (mk_seq (S := Z) [0; 1; 4; 9] 4) = 3 + 1 /\
            __getitem_int__ squares_next 3 (mk_seq [0; 1; 4; 9] 4)
              = (Ok x, mk_seq [0; 1; 4; 9] 4).
Proof.
  apply (proj2 (getitem_int_forces_exactly Z Z squares_next Squares 3 ltac:(lia))).
  - unfold size; simpl; lia.
  - unfold size, INFINITE; simpl; lia.
  - reflexivity.
Defined.

(** ** Every operation is a run of pulls *)

Section TraceFacts.

Variables T S : Type.
Variable next_iterator : list T -> S -> outcome T * S.

Local Abbreviation at_ := (__getitem_int__ next_iterator).
Local Abbreviation pulled_ := (pulled next_iterator).

Lemma pulled_cache (s s' : LazySequence T S) (xs : list T) :
  pulled_ s xs s' -> _cache s' = _cache s ++ xs.
Proof.
  induction 1 as [s|s x it xs s' Hn Hp IH|s o it xs s' Hn Ho Hp IH]; simpl in *.
  - now rewrite app_nil_r.
  - rewrite IH. now rewrite <- app_assoc.
  - exact IH.
Qed.

Lemma pulled_trans (s1 s2 s3 : LazySequence T S) (xs ys : list T) :
  pulled_ s1 xs s2 -> pulled_ s2 ys s3 -> pulled_ s1 (xs ++ ys) s3.
Proof.
  induction 1 as [s|s x it xs s' Hn Hp IH|s o it xs s' Hn Ho Hp IH]; intros H2; simpl.
  - exact H2.
  - eapply pulled_value; eauto.
  - eapply pulled_other; eauto.
Qed.

Lemma pulled_size (s s' : LazySequence T S) (xs : list T) :
  pulled_ s xs s' -> size s' = size s + Z.of_nat (List.length xs).
Proof.
  intros H. unfold size. rewrite (pulled_cache _ _ _ H), length_app. lia.
Qed.

Lemma next_pulled (s : LazySequence T S) :
  exists xs, pulled_ s xs (snd (__next__ next_iterator s)).
Proof.
  unfold __next__.
  destruct (next_iterator (_cache s) (iterator s)) as [[x|e|] it] eqn:E; simpl.
  - exists [x]. eapply pulled_value; [exact E|constructor].
  - exists []. eapply pulled_other; [exact E|discriminate|constructor].
  - exists []. eapply pulled_other; [exact E|discriminate|constructor].
Qed.

Lemma extend_islice_pulled (k : nat) : forall s,
  exists xs, pulled_ s xs (snd (extend_islice next_iterator k s)).
Proof.
  induction k as [|k IH]; intros s; simpl.
  - exists []. constructor.
  - destruct (next_iterator (_cache s) (iterator s)) as [[x|e|] it] eqn:E.
    + destruct (IH (mk_seq (_cache s ++ [x]) it)) as [xs Hxs].
      exists (x :: xs). eapply pulled_value; eauto.
    + exists []. destruct e; simpl;
        (eapply pulled_other; [exact E|discriminate|constructor]).
    + exists []. simpl. eapply pulled_other; [exact E|discriminate|constructor].
Qed.

Lemma getitem_int_pulled (i : Z) (s : LazySequence T S) :
  exists xs, pulled_ s xs (snd (at_ i s)).
Proof.
  unfold __getitem_int__.
  destruct (i <? 0); [exists []; constructor|].
  destruct (size s <=? i).
  - destruct (INFINITE <? i - size s + 1); [exists []; constructor|].
    destruct (extend_islice_pulled (Z.to_nat (i - size s + 1)) s) as [xs Hxs].
    exists xs.
    destruct (extend_islice next_iterator (Z.to_nat (i - size s + 1)) s) as [[u|e|] s1];
      exact Hxs.
  - exists []. constructor.
Qed.

Lemma list_comp_pulled (f : Z -> M T S T) :
  (forall i s, exists xs, pulled_ s xs (snd (f i s))) ->
  forall rng s, exists xs, pulled_ s xs (snd (list_comp f rng s)).
Proof.
  intros Hf rng. induction rng as [|i rng IH]; intros s; simpl.
  - exists []. constructor.
  - unfold bind. destruct (Hf i s) as [xs Hxs].
    destruct (f i s) as [[x|e|] s1]; simpl in *; try (exists xs; exact Hxs).
    destruct (IH s1) as [ys Hys].
    exists (xs ++ ys).
    destruct (list_comp f rng s1) as [[zs|e|] s2]; simpl in *;
      eapply pulled_trans; eauto.
Qed.

Lemma getitem_slice_pulled (sl : slice) (s : LazySequence T S) :
  exists xs, pulled_ s xs (snd (__getitem_slice__ next_iterator sl s)).
Proof.
  unfold __getitem_slice__.
  destruct (range_getitem_slice INFINITE sl) as [rng|e|]; try (exists []; constructor).
  apply list_comp_pulled. apply getitem_int_pulled.
Qed.

Lemma iter_next_pulled (st : iter_state) (s : LazySequence T S) :
  exists xs, pulled_ s xs (snd (iter_next next_iterator st s)).
Proof.
  assert (Hidx : forall i, exists xs, pulled_ s xs (snd (iter_index next_iterator i s))).
  { intros i. unfold iter_index. destruct (i <? INFINITE); [|exists []; constructor].
    destruct (getitem_int_pulled i s) as [xs Hxs]. exists xs.
    destruct (at_ i s) as [[x|e|] s1]; exact Hxs. }
  destruct st as [j|i|]; simpl.
  - destruct (nth_error (_cache s) j); [exists []; constructor|apply Hidx].
  - apply Hidx.
  - exists []. constructor.
Qed.

(** What [at(i)] returns is in the cache at [i] from then on. *)
Lemma getitem_int_Ok_inv (i : Z) (s s' : LazySequence T S) (x : T) :
  at_ i s = (Ok x, s') -> 0 <= i /\ nth_error (_cache s') (Z.to_nat i) = Some x.
Proof.
  unfold __getitem_int__.
  destruct (i <? 0) eqn:E; [discriminate|]. apply Z.ltb_ge in E.
  match goal with |- context [match ?f with _ => _ end = _] => destruct f as [[u|e|] s1] end;
    try discriminate.
  intros H. inversion H; subst. split; [assumption|].
  now apply list_getitem_Ok_inv.
Qed.

Lemma getitem_int_nth_error (i : Z) (s : LazySequence T S) (x : T) :
  0 <= i -> nth_error (_cache s) (Z.to_nat i) = Some x -> at_ i s = (Ok x, s).
Proof.
  intros Hi Hn.
  assert (Hlt : (Z.to_nat i < List.length (_cache s))%nat)
    by (apply nth_error_Some; congruence).
  destruct (getitem_int_cached T S next_iterator s i) as [y [Hy Hat]].
  { unfold size. lia. }
  congruence.
Qed.

Lemma nth_error_pulled (s s' : LazySequence T S) (xs : list T) (n : nat) (x : T) :
  pulled_ s xs s' -> nth_error (_cache s) n = Some x -> nth_error (_cache s') n = Some x.
Proof.
  intros Hp Hn. rewrite (pulled_cache _ _ _ Hp).
  rewrite nth_error_app1; [assumption|]. apply nth_error_Some. congruence.
Qed.

(** The values a comprehension over [at] returns are what [at] returns for
    each index afterwards. *)
Lemma list_comp_getitem_Ok (rng : list Z) : forall s s' xs,
  list_comp at_ rng s = (Ok xs, s') ->
  Forall2 (fun i x => at_ i s' = (Ok x, s')) rng xs.
Proof.
  induction rng as [|i rng IH]; intros s s' xs; simpl.
  - unfold ret. intros H; inversion H; subst. constructor.
  - unfold bind. destruct (at_ i s) as [[x|e|] s1] eqn:E; try discriminate.
    destruct (list_comp at_ rng s1) as [[ys|e|] s2] eqn:E2; try discriminate.
    unfold ret. intros H; inversion H; subst. constructor.
    + destruct (getitem_int_Ok_inv _ _ _ _ E) as [Hi Hn].
      destruct (list_comp_pulled at_ getitem_int_pulled rng s1) as [zs Hzs].
      rewrite E2 in Hzs. simpl in Hzs.
      apply getitem_int_nth_error; [assumption|].
      eapply nth_error_pulled; eauto.
    + eapply IH; eauto.
Qed.

Lemma list_comp_Ok_length (f : Z -> M T S T) (rng : list Z) : forall s s' xs,
  list_comp f rng s = (Ok xs, s') -> List.length xs = List.length rng.
Proof.
  induction rng as [|i rng IH]; intros s s' xs; simpl.
  - unfold ret. intros H; inversion H; reflexivity.
  - unfold bind. destruct (f i s) as [[x|e|] s1]; try discriminate.
    destruct (list_comp f rng s1) as [[ys|e|] s2] eqn:E2; try discriminate.
    unfold ret. intros H; inversion H; subst. simpl. f_equal. eapply IH; eauto.
Qed.

End TraceFacts.

(** ** Slices *)

Lemma range_getitem_slice_nonneg (a b : Z) :
  0 <= a -> a <= b -> b <= INFINITE ->
  range_getitem_slice INFINITE (mk_slice (Some a) (Some b) None) = Ok (mk_range a b 1).
Proof.
  intros Ha Hab Hb. unfold range_getitem_slice, slice_bound. simpl.
  destruct (a <? 0) eqn:E1; [apply Z.ltb_lt in E1; lia|].
  destruct (b <? 0) eqn:E2; [apply Z.ltb_lt in E2; lia|].
  destruct (INFINITE <? a) eqn:E3; [apply Z.ltb_lt in E3; lia|].
  destruct (INFINITE <? b) eqn:E4; [apply Z.ltb_lt in E4; lia|].
  reflexivity.
Qed.

Lemma range_getitem_slice_negative (a b : Z) :
  - INFINITE <= a < 0 -> - INFINITE <= b < 0 ->
  range_getitem_slice INFINITE (mk_slice (Some a) (Some b) None)
  = Ok (mk_range (a + INFINITE) (b + INFINITE) 1).
Proof.
  intros Ha Hb. unfold range_getitem_slice, slice_bound. simpl.
  destruct (a <? 0) eqn:E1; [|apply Z.ltb_ge in E1; lia].
  destruct (b <? 0) eqn:E2; [|apply Z.ltb_ge in E2; lia].
  destruct (a + INFINITE <? 0) eqn:E3; [apply Z.ltb_lt in E3; lia|].
  destruct (b + INFINITE <? 0) eqn:E4; [apply Z.ltb_lt in E4; lia|].
  reflexivity.
Qed.

Section SliceFacts.

Variables T S : Type.
Variable next_iterator : list T -> S -> outcome T * S.

Local Abbreviation at_ := (__getitem_int__ next_iterator).
Local Abbreviation slice_ := (__getitem_slice__ next_iterator).

Lemma indices_cons (a b : Z) : a < b -> indices a b = a :: indices (a + 1) b.
Proof.
  intros Hab. unfold indices.
  replace (Z.to_nat (b - a)) with (Datatypes.S (Z.to_nat (b - (a + 1)))) by lia.
  cbn [seq map]. f_equal; [lia|].
  rewrite <- seq_shift, map_map. apply map_ext. intros n. lia.
Qed.

Lemma indices_nil (a b : Z) : b <= a -> indices a b = [].
Proof.
  intros Hab. unfold indices. replace (Z.to_nat (b - a)) with 0%nat by lia. reflexivity.
Qed.

(** Pulls that all yield can be taken in two runs. *)
Lemma produce_split (m : nat) : forall (n : nat) (c : list T) (it it' : S) (us : list T),
  produce next_iterator (m + n) c it = Some (us, it') ->
  exists (us1 us2 : list T) (it1 : S),
    produce next_iterator m c it = Some (us1, it1) /\
    produce next_iterator n (c ++ us1) it1 = Some (us2, it') /\
    us = us1 ++ us2.
Proof.
  induction m as [|m IH]; intros n c it it' us H.
  - exists [], us, it. rewrite app_nil_r. repeat split; assumption.
  - cbn [Nat.add produce] in *.
    destruct (next_iterator c it) as [[x|e|] it0]; try discriminate.
    destruct (produce next_iterator (m + n) (c ++ [x]) it0) as [[ys it2]|] eqn:E;
      try discriminate.
    inversion H; subst.
    destruct (IH n (c ++ [x]) it0 it' ys E) as [us1 [us2 [it1 [H1 [H2 H3]]]]].
    exists (x :: us1), us2, it1. rewrite H1. split; [reflexivity|].
    split; [now rewrite <- app_assoc in H2|]. now rewrite H3.
Qed.

(** With the values up to index [b - 1] at hand, cached or to be produced,
    [at(i)] returns the value at index [i] for every [i] below [b]. *)
Lemma getitem_int_produced (s : LazySequence T S) (b i : Z) (us : list T) (it' : S) (x : T) :
  b <= INFINITE ->
  produce next_iterator (Z.to_nat (b - size s)) (_cache s) (iterator s) = Some (us, it') ->
  0 <= i < b ->
  nth_error (_cache s ++ us) (Z.to_nat i) = Some x ->
  fst (at_ i s) = Ok x.
Proof.
  intros Hb Hp Hi Hn.
  assert (Hs0 : 0 <= size s) by (unfold size; lia).
  destruct (Z_lt_le_dec i (size s)) as [Hin|Hout].
  - rewrite nth_error_app1 in Hn by (unfold size in Hin; lia).
    now rewrite (getitem_int_nth_error _ _ next_iterator i s x) by (assumption || lia).
  - replace (Z.to_nat (b - size s))
      with (Z.to_nat (i - size s + 1) + Z.to_nat (b - i - 1))%nat in Hp by lia.
    destruct (produce_split _ _ _ _ _ _ Hp) as [us1 [us2 [it1 [H1 [_ H3]]]]].
    destruct (getitem_int_forced T S next_iterator s i us1 it1) as [y [Hy [Hat _]]];
      [assumption|lia|assumption|].
    rewrite Hat. simpl. f_equal.
    assert (Hlt : (Z.to_nat i < List.length (_cache s ++ us1))%nat)
      by (apply nth_error_Some; congruence).
    rewrite H3, app_assoc, nth_error_app1 in Hn by assumption. congruence.
Qed.

(** The comprehension over [a, ..., b - 1] with the values up to index
    [b - 1] at hand: it returns them, and leaves the cache with all of them. *)
Lemma list_comp_indices (b : Z) (k : nat) :
  forall (a : Z) (s : LazySequence T S) (us : list T) (it' : S),
  0 <= a <= b -> Z.to_nat (b - a) = k -> b <= INFINITE ->
  produce next_iterator (Z.to_nat (b - size s)) (_cache s) (iterator s) = Some (us, it') ->
  exists xs : list T,
    list_comp at_ (indices a b) s
    = (Ok xs, if a <? b then mk_seq (_cache s ++ us) it' else s) /\
    Forall2 (fun i x => a <= i < b /\ nth_error (_cache s ++ us) (Z.to_nat i) = Some x)
      (indices a b) xs.
Proof.
  induction k as [|k IH]; intros a s us it' Ha Hk Hb Hp.
  - assert (Hab : a = b) by lia. subst a.
    rewrite indices_nil by lia. rewrite Z.ltb_irrefl.
    exists []. split; [reflexivity|constructor].
  - assert (Hab : a < b) by lia.
    assert (Hlt : (a <? b) = true) by now apply Z.ltb_lt.
    assert (Hs0 : 0 <= size s) by (unfold size; lia).
    rewrite (indices_cons a b Hab), Hlt. cbn [list_comp]. unfold bind at 1.
    destruct (Z_lt_le_dec a (size s)) as [Hin|Hout].
    + destruct (getitem_int_cached T S next_iterator s a ltac:(lia)) as [x [Hx Hat]].
      rewrite Hat.
      destruct (IH (a + 1) s us it' ltac:(lia) ltac:(lia) Hb Hp) as [xs [Hl Hf]].
      exists (x :: xs). split.
      * unfold bind, ret. rewrite Hl.
        destruct (a + 1 <? b) eqn:E; [reflexivity|].
        apply Z.ltb_ge in E.
        replace (Z.to_nat (b - size s)) with 0%nat in Hp by lia.
        simpl in Hp. inversion Hp; subst. rewrite app_nil_r. destruct s; reflexivity.
      * constructor.
        { split; [lia|]. rewrite nth_error_app1; [assumption|].
          apply nth_error_Some. congruence. }
        { eapply Forall2_impl; [|exact Hf]. intros i y [Hi Hy]. split; [lia|assumption]. }
    + replace (Z.to_nat (b - size s))
        with (Z.to_nat (a - size s + 1) + Z.to_nat (b - a - 1))%nat in Hp by lia.
      destruct (produce_split _ _ _ _ _ _ Hp) as [us1 [us2 [it1 [H1 [H2 H3]]]]].
      destruct (getitem_int_forced T S next_iterator s a us1 it1) as [x [Hx [Hat Hsz]]];
        [assumption|lia|assumption|].
      rewrite Hat.
      assert (Hp' : produce next_iterator
                      (Z.to_nat (b - size (mk_seq (_cache s ++ us1) it1)))
                      (_cache (mk_seq (_cache s ++ us1) it1))
                      (iterator (mk_seq (_cache s ++ us1) it1)) = Some (us2, it')).
      { rewrite Hsz. simpl. replace (Z.to_nat (b - (a + 1))) with (Z.to_nat (b - a - 1)) by lia.
        exact H2. }
      destruct (IH (a + 1) (mk_seq (_cache s ++ us1) it1) us2 it' ltac:(lia) ltac:(lia) Hb Hp')
        as [xs [Hl Hf]].
      simpl in Hl, Hf. rewrite <- app_assoc, <- H3 in Hl, Hf.
      exists (x :: xs). split.
      * unfold bind, ret. rewrite Hl.
        destruct (a + 1 <? b) eqn:E; [reflexivity|].
        apply Z.ltb_ge in E.
        replace (Z.to_nat (b - a - 1)) with 0%nat in H2 by lia.
        simpl in H2. inversion H2; subst. now rewrite app_nil_r.
      * constructor.
        { split; [lia|]. rewrite H3, app_assoc, nth_error_app1; [assumption|].
          apply nth_error_Some. congruence. }
        { eapply Forall2_impl; [|exact Hf]. intros i y [Hi Hy]. split; [lia|assumption]. }
Qed.

(** C8: for [0 <= a <= b] (at most [sys.maxsize]), [slice(a, b)] is the
    comprehension [[at(a), ..., at(b-1)]], same outcome and same final
    state.  With the values up to index [b - 1] at hand, cached or to be
    produced, it returns a list, of [b - a] values: the value at each index
    [i] from [a] to [b - 1], which is what [at(i)] returns before the slice
    and after it; it leaves the sequence as the single call [at(b-1)] does.
    Whenever it returns, it returns [b - a] values, each the value [at]
    gives for its index from then on. *)
Theorem slice_is_repeated_getitem (s : LazySequence T S) (a b : Z) :
  0 <= a -> a <= b -> b <= INFINITE ->
  slice_ (mk_slice (Some a) (Some b) None) s = list_comp at_ (indices a b) s /\
  (forall (us : list T) (it' : S),
     produce next_iterator (Z.to_nat (b - size s)) (_cache s) (iterator s) = Some (us, it') ->
     exists xs : list T,
       slice_ (mk_slice (Some a) (Some b) None) s
       = (Ok xs, if a <? b then mk_seq (_cache s ++ us) it' else s) /\
       Z.of_nat (List.length xs) = b - a /\
       Forall2 (fun i x =>
                  nth_error (_cache s ++ us) (Z.to_nat i) = Some x /\
                  fst (at_ i s) = Ok x /\
                  (a < b -> at_ i (mk_seq (_cache s ++ us) it')
                            = (Ok x, mk_seq (_cache s ++ us) it')))
         (indices a b) xs /\
       (a < b -> snd (at_ (b - 1) s) = mk_seq (_cache s ++ us) it')) /\
  (forall xs s',
     slice_ (mk_slice (Some a) (Some b) None) s = (Ok xs, s') ->
     Z.of_nat (List.length xs) = b - a /\
     Forall2 (fun i x => at_ i s' = (Ok x, s')) (indices a b) xs).
Proof.
  intros Ha Hab Hb.
  assert (Heq : slice_ (mk_slice (Some a) (Some b) None) s = list_comp at_ (indices a b) s).
  { unfold __getitem_slice__. rewrite range_getitem_slice_nonneg by assumption.
    now rewrite range_elems_step1. }
  split; [exact Heq|]. split.
  - intros us it' Hp.
    destruct (list_comp_indices b (Z.to_nat (b - a)) a s us it' ltac:(lia) eq_refl Hb Hp)
      as [xs [Hl Hf]].
    exists xs. split; [now rewrite Heq|]. split; [|split].
    + rewrite <- (Forall2_length Hf). unfold indices. rewrite length_map, length_seq. lia.
    + eapply Forall2_impl; [|exact Hf]. intros i x [Hi Hn].
      split; [assumption|]. split.
      * exact (getitem_int_produced s b i us it' x Hb Hp ltac:(lia) Hn).
      * intros _. apply getitem_int_nth_error; [lia|assumption].
    + intros Hlt. assert (Hs0 : 0 <= size s) by (unfold size; lia).
      destruct (Z_lt_le_dec (b - 1) (size s)) as [Hin|Hout].
      * replace (Z.to_nat (b - size s)) with 0%nat in Hp by lia.
        simpl in Hp. inversion Hp; subst.
        destruct (getitem_int_cached T S next_iterator s (b - 1) ltac:(lia)) as [x [_ Hat]].
        rewrite Hat, app_nil_r. destruct s; reflexivity.
      * replace (Z.to_nat (b - size s)) with (Z.to_nat (b - 1 - size s + 1)) in Hp by lia.
        destruct (getitem_int_forced T S next_iterator s (b - 1) us it') as [x [_ [Hat _]]];
          [assumption|lia|assumption|].
        now rewrite Hat.
  - intros xs s'. rewrite Heq. intros H. split.
    + rewrite (list_comp_Ok_length _ _ _ _ _ _ _ H).
      unfold indices. rewrite length_map, length_seq. lia.
    + eapply list_comp_getitem_Ok; eauto.
Qed.

(** C7, as the code has it: a negative index raises [OverflowError] and
    leaves the state alone; a slice is not refused for negative bounds:
    [range(INFINITE)[sl]] counts them from [sys.maxsize], so the slice is the
    comprehension over the indices [a + INFINITE, ..., b + INFINITE - 1], and
    the empty list when [b <= a]. *)
Theorem negative_index_and_slice (s : LazySequence T S) (i a b : Z) :
  i < 0 -> - INFINITE <= a < 0 -> - INFINITE <= b < 0 ->
  at_ i s = (Raise OverflowError, s) /\
  slice_ (mk_slice (Some a) (Some b) None) s
    = list_comp at_ (indices (a + INFINITE) (b + INFINITE)) s /\
  (b <= a -> slice_ (mk_slice (Some a) (Some b) None) s = (Ok [], s)).
Proof.
  intros Hi Ha Hb.
  assert (Heq : slice_ (mk_slice (Some a) (Some b) None) s
                = list_comp at_ (indices (a + INFINITE) (b + INFINITE)) s).
  { unfold __getitem_slice__. rewrite range_getitem_slice_negative by assumption.
    now rewrite range_elems_step1. }
  split; [now apply getitem_int_negative|]. split; [exact Heq|].
  intros Hba. rewrite Heq. unfold indices.
  replace (Z.to_nat (b + INFINITE - (a + INFINITE))) with 0%nat by lia.
  reflexivity.
Qed.

End SliceFacts.

Lemma slice_is_repeated_getitem_witness :
  __getitem_slice__ squares_next (mk_slice (Some 2) (Some 5) None) Squares
  = list_comp (__getitem_int__ squares_next) (indices 2 5) Squares /\
  (exists xs : list Z,
     __getitem_slice__ squares_next (mk_slice (Some 2) (Some 5) None) Squares
     = (Ok xs, if 2 <? 5 then mk_seq (_cache Squares ++ [0; 1; 4; 9; 16]) 5 else Squares) /\
     Z.of_nat (List.length xs) = 5 - 2 /\
     Forall2 (fun i x =>
                nth_error (_cache Squares ++ [0; 1; 4; 9; 16]) (Z.to_nat i) = Some x /\
                fst (__getitem_int__ squares_next i Squares) = Ok x /\
                (2 < 5 -> __getitem_int__ squares_next i
                            (mk_seq (_cache Squares ++ [0; 1; 4; 9; 16]) 5)
                          = (Ok x, mk_seq (_cache Squares ++ [0; 1; 4; 9; 16]) 5)))
       (indices 2 5) xs /\
     (2 < 5 -> snd (__getitem_int__ squares_next (5 - 1) Squares)
               = mk_seq (_cache Squares ++ [0; 1; 4; 9; 16]) 5)) /\
  (forall xs s',
     __getitem_slice__ squares_next (mk_slice (Some 2) (Some 5) None) Squares = (Ok xs, s') ->
     Z.of_nat (List.length xs) = 5 - 2 /\
     Forall2 (fun i x => __getitem_int__ squares_next i s' = (Ok x, s')) (indices 2 5) xs).
Proof.
  destruct (slice_is_repeated_getitem Z Z squares_next Squares 2 5) as [H1 [H2 H3]];
    [lia|lia|unfold INFINITE; lia|].
  split; [exact H1|]. split; [|exact H3].
  apply (H2 [0; 1; 4; 9; 16] 5). reflexivity.
Defined.

Lemma negative_index_and_slice_witness :
  __getitem_int__ squares_next (-1) Squares = (Raise OverflowError, Squares) /\
  __getitem_slice__ squares_next (mk_slice (Some (-3)) (Some (-5)) None) Squares
    = list_comp (__getitem_int__ squares_next)
        (indices (-3 + INFINITE) (-5 + INFINITE)) Squares /\
  (-5 <= -3 ->
   __getitem_slice__ squares_next (mk_slice (Some (-3)) (Some (-5)) None) Squares
   = (Ok [], Squares)).
Proof.
  apply (negative_index_and_slice Z Z squares_next Squares (-1) (-3) (-5));
    unfold INFINITE; lia.
Defined.

(** C7 as stated fails: [at(-1)] raises [OverflowError], which is not
    [IndexError], and the slice [[-1:-1]] raises nothing: it is the empty
    list. *)
Lemma negative_slice_no_error :
  fst (__getitem_int__ squares_next (-1) Squares) = Raise OverflowError /\
  fst (__getitem_int__ squares_next (-1) Squares) <> Raise IndexError /\
  __getitem_slice__ squares_next (mk_slice (Some (-1)) (Some (-1)) None) Squares
  = (Ok [], Squares).
Proof.
  split; [reflexivity|]. split; [discriminate|]. vm_compute. reflexivity.
Qed.

(** ** Binary search *)

Lemma midpoint_bounds (lo hi : nat) :
  (lo < hi)%nat -> (lo <= (lo + hi) / 2 < hi)%nat.
Proof.
  intros H. split.
  - apply Nat.div_le_lower_bound; lia.
  - apply Nat.Div0.div_lt_upper_bound; lia.
Qed.

Lemma bisect_loop_bounds (a : list Z) (x : Z) (fuel : nat) : forall lo hi : nat,
  nondecreasing a ->
  (lo <= hi <= List.length a)%nat ->
  (hi - lo <= fuel)%nat ->
  (forall i : nat, (i < lo)%nat -> nth i a 0 < x) ->
  (forall i : nat, (hi <= i < List.length a)%nat -> x <= nth i a 0) ->
  let r := bisect_loop fuel a x lo hi in
  (lo <= r <= hi)%nat /\
  (forall i : nat, (i < r)%nat -> nth i a 0 < x) /\
  (forall i : nat, (r <= i < List.length a)%nat -> x <= nth i a 0).
Proof.
  induction fuel as [|f IH]; intros lo hi Hs Hb Hf Hlo Hhi; cbn [bisect_loop]; cbv zeta.
  - assert (lo = hi) by lia. subst. repeat split; auto; lia.
  - destruct (lo <? hi)%nat eqn:E.
    + apply Nat.ltb_lt in E.
      pose proof (midpoint_bounds lo hi E) as Hmid.
      set (mid := ((lo + hi) / 2)%nat) in *.
      destruct (nth mid a 0 <? x) eqn:Ex.
      * apply Z.ltb_lt in Ex.
        destruct (IH (mid + 1)%nat hi Hs) as [R1 [R2 R3]]; try lia.
        { intros i Hi. assert (H : nth i a 0 <= nth mid a 0) by (apply Hs; lia). lia. }
        { exact Hhi. }
        split; [lia|split; assumption].
      * apply Z.ltb_ge in Ex.
        destruct (IH lo mid Hs) as [R1 [R2 R3]]; try lia.
        { exact Hlo. }
        { intros i Hi. assert (H : nth mid a 0 <= nth i a 0) by (apply Hs; lia). lia. }
        split; [lia|split; assumption].
    + apply Nat.ltb_ge in E. assert (lo = hi) by lia. subst.
      repeat split; auto; lia.
Qed.

(** [bisect_left] on a sorted list: everything before the result is below
    [x], everything from it on is at least [x]. *)
Lemma bisect_left_spec (a : list Z) (x : Z) :
  nondecreasing a ->
  (bisect_left a x <= List.length a)%nat /\
  (forall i : nat, (i < bisect_left a x)%nat -> nth i a 0 < x) /\
  (forall i : nat, (bisect_left a x <= i < List.length a)%nat -> x <= nth i a 0).
Proof.
  intros Hs. unfold bisect_left.
  destruct (bisect_loop_bounds a x (List.length a) 0 (List.length a) Hs) as [R1 [R2 R3]];
    try lia.
  repeat split; auto; lia.
Qed.

(** More turns than the list is long change nothing: the loop has ended. *)
Lemma bisect_loop_fuel (a : list Z) (x : Z) (fuel : nat) : forall lo hi extra : nat,
  (hi - lo <= fuel)%nat ->
  bisect_loop (fuel + extra) a x lo hi = bisect_loop fuel a x lo hi.
Proof.
  induction fuel as [|f IH]; intros lo hi extra Hf; cbn [bisect_loop Nat.add]; cbv zeta.
  - destruct extra; cbn [bisect_loop]; [reflexivity|].
    destruct (lo <? hi)%nat eqn:E; [apply Nat.ltb_lt in E; lia|reflexivity].
  - destruct (lo <? hi)%nat eqn:E; [|reflexivity].
    apply Nat.ltb_lt in E.
    pose proof (midpoint_bounds lo hi E) as Hmid.
    destruct (nth ((lo + hi) / 2) a 0 <? x); apply IH; lia.
Qed.

Lemma nondecreasing_cons (a : Z) (l : list Z) :
  (forall b, In b l -> a <= b) -> nondecreasing l -> nondecreasing (a :: l).
Proof.
  intros Ha Hl i j Hij. simpl in Hij.
  destruct i as [|i], j as [|j]; simpl; try lia.
  - apply Ha. apply nth_In. lia.
  - apply Hl. lia.
Qed.

Lemma nondecreasing_tail (a : Z) (l : list Z) :
  nondecreasing (a :: l) -> nondecreasing l.
Proof.
  intros H i j Hij. apply (H (Datatypes.S i) (Datatypes.S j)). simpl. lia.
Qed.

Lemma nondecreasing_app_l (l1 l2 : list Z) :
  nondecreasing (l1 ++ l2) -> nondecreasing l1.
Proof.
  intros H i j Hij.
  specialize (H i j). rewrite length_app in H.
  rewrite !app_nth1 in H by lia. apply H. lia.
Qed.

Lemma sortedb_nondecreasing (l : list Z) : sortedb l = true -> nondecreasing l.
Proof.
  induction l as [|a l IH]; intros H.
  - intros i j Hij. simpl in Hij. lia.
  - destruct l as [|b l].
    + intros i j Hij. simpl in Hij. assert (i = 0%nat) by lia. assert (j = 0%nat) by lia.
      subst. lia.
    + simpl in H. apply andb_true_iff in H. destruct H as [Hab Ht].
      apply Z.leb_le in Hab. specialize (IH Ht).
      apply nondecreasing_cons; [|exact IH].
      intros c [Hc|Hc]; [lia|].
      destruct (In_nth _ _ 0 Hc) as [k [Hk Hn]].
      specialize (IH 0%nat (Datatypes.S k)). simpl in IH. rewrite Hn in IH.
      assert (b <= c) by (apply IH; lia). lia.
Qed.

(** ** LazySortedSequence: insertion point and search *)

Lemma last_snoc {S : Type} (c : list Z) (v : Z) (it : S) :
  last (mk_seq (c ++ [v]) it) = Some v.
Proof.
  unfold last, size. simpl. rewrite length_app. simpl.
  destruct (0 <? Z.of_nat (List.length c + 1)) eqn:E; [|apply Z.ltb_ge in E; lia].
  replace (List.length c + 1 - 1)%nat with (List.length c) by lia.
  rewrite nth_error_app2 by lia. now rewrite Nat.sub_diag.
Qed.

Lemma last_nth {S : Type} (s : LazySequence Z S) (l : Z) :
  last s = Some l ->
  (0 < List.length (_cache s))%nat /\ nth (List.length (_cache s) - 1) (_cache s) 0 = l.
Proof.
  unfold last, size. destruct (0 <? Z.of_nat (List.length (_cache s))) eqn:E; [|discriminate].
  apply Z.ltb_lt in E. intros H. split; [lia|]. now apply nth_error_nth.
Qed.

Lemma last_None {S : Type} (s : LazySequence Z S) :
  last s = None -> _cache s = [].
Proof.
  unfold last, size. destruct (0 <? Z.of_nat (List.length (_cache s))) eqn:E.
  - apply Z.ltb_lt in E. intros H. apply nth_error_None in H. lia.
  - apply Z.ltb_ge in E. intros _. destruct (_cache s); [reflexivity|simpl in E; lia].
Qed.

Lemma within_cache_true {S : Type} (x : Z) (s : LazySequence Z S) :
  within_cache x s = true ->
  (0 < List.length (_cache s))%nat /\ x <= nth (List.length (_cache s) - 1) (_cache s) 0.
Proof.
  unfold within_cache. intros H. apply andb_true_iff in H. destruct H as [_ H].
  destruct (last s) as [l|] eqn:E; [|discriminate].
  apply Z.leb_le in H. destruct (last_nth s l E) as [H1 H2]. split; [assumption|lia].
Qed.

(** Outside the cached range of a sorted cache every cached value is below
    [x]. *)
Lemma within_cache_false {S : Type} (x : Z) (s : LazySequence Z S) :
  nondecreasing (_cache s) -> within_cache x s = false ->
  forall j : nat, (j < List.length (_cache s))%nat -> nth j (_cache s) 0 < x.
Proof.
  unfold within_cache. intros Hs H j Hj.
  assert (Hsz : (0 <? size s) = true) by (apply Z.ltb_lt; unfold size; lia).
  rewrite Hsz in H. simpl in H.
  destruct (last s) as [l|] eqn:E.
  - apply Z.leb_gt in H. destruct (last_nth s l E) as [H1 H2].
    assert (nth j (_cache s) 0 <= l) by (rewrite <- H2; apply Hs; lia). lia.
  - apply last_None in E. rewrite E in Hj. simpl in Hj. lia.
Qed.

Section SortedFacts.

Variable S : Type.
Variable next_iterator : list Z -> S -> outcome Z * S.
Variable class_name : string.

Local Abbreviation pulled_ := (pulled next_iterator).

(** The loop of [insertpos]: if the values to come reach [x], it pulls up to
    the first that does and no further. *)
Lemma insertpos_loop_spec (x : Z) (n : nat) : forall fuel c it us it2,
  produce next_iterator n c it = Some (us, it2) ->
  (exists v, In v us /\ x <= v) ->
  (n <= fuel)%nat ->
  exists ys v zs it',
    us = ys ++ v :: zs /\ Forall (fun y => y < x) ys /\ x <= v /\
    produce next_iterator (List.length ys + 1) c it = Some (ys ++ [v], it') /\
    insertpos_loop next_iterator fuel x (mk_seq c it)
    = (Ok tt, mk_seq (c ++ ys ++ [v]) it').
Proof.
  induction n as [|n IH]; intros fuel c it us it2 Hp [v [Hin Hv]] Hf; simpl in Hp.
  - inversion Hp; subst. destruct Hin.
  - destruct (next_iterator c it) as [[u| |] it1] eqn:E; try discriminate.
    destruct (produce next_iterator n (c ++ [u]) it1) as [[us' it3]|] eqn:E1; try discriminate.
    inversion Hp; subst. destruct fuel as [|f]; [lia|].
    cbn [insertpos_loop]. unfold __next__. simpl. rewrite E.
    destruct (x >? u) eqn:Ex.
    + assert (Hxu : u < x) by lia.
      destruct Hin as [Hin|Hin]; [lia|].
      destruct (IH f (c ++ [u]) it1 us' it2 E1) as [ys [w [zs [it' [H1 [H2 [H3 [H4 H5]]]]]]]].
      { exists v. split; assumption. }
      { lia. }
      exists (u :: ys), w, zs, it'. subst us'. simpl. rewrite E, H4.
      repeat split; auto.
      rewrite H5. now rewrite <- app_assoc.
    + assert (Hxu : x <= u) by lia.
      exists [], u, us', it1. simpl. rewrite E. repeat split; auto.
Qed.

(** The specification of [insertpos] that C5 and C6 rest on. *)
Lemma insertpos_spec (s : LazySequence Z S) (x : Z) (fuel n : nat) (us : list Z) (it2 : S) :
  nondecreasing (_cache s ++ us) ->
  produce next_iterator n (_cache s) (iterator s) = Some (us, it2) ->
  (exists v, In v (_cache s ++ us) /\ x <= v) ->
  (n <= fuel)%nat ->
  exists idx xs zs it',
    insertpos next_iterator fuel x s = (Ok idx, mk_seq (_cache s ++ xs) it') /\
    us = xs ++ zs /\
    produce next_iterator (List.length xs) (_cache s) (iterator s) = Some (xs, it') /\
    leftmost_ge (_cache s ++ us) x idx /\
    idx < Z.of_nat (List.length (_cache s ++ xs)) /\
    (within_cache x s = true ->
       xs = [] /\ idx = Z.of_nat (bisect_left (_cache s) x)) /\
    (within_cache x s = false ->
       idx = size s + Z.of_nat (List.length xs) - 1 /\
       exists ys v, xs = ys ++ [v] /\ Forall (fun y => y < x) ys /\ x <= v).
Proof.
  intros Hs Hp Hreach Hf.
  pose proof (nondecreasing_app_l _ _ Hs) as Hc.
  unfold insertpos. destruct (within_cache x s) eqn:Ew.
  - destruct (within_cache_true x s Ew) as [Hne Hlast].
    destruct (bisect_left_spec (_cache s) x Hc) as [B1 [B2 B3]].
    assert (Hlt : (bisect_left (_cache s) x < List.length (_cache s))%nat).
    { destruct (Nat.lt_ge_cases (bisect_left (_cache s) x) (List.length (_cache s)));
        [assumption|].
      assert (nth (List.length (_cache s) - 1) (_cache s) 0 < x) by (apply B2; lia). lia. }
    exists (Z.of_nat (bisect_left (_cache s) x)), [], us, (iterator s).
    rewrite app_nil_r. destruct s as [c it]. simpl in *.
    repeat split; try reflexivity; try lia; try discriminate.
    + rewrite length_app. lia.
    + rewrite Nat2Z.id. rewrite app_nth1 by lia. apply B3. lia.
    + intros j Hj. rewrite Nat2Z.id in Hj. rewrite app_nth1 by lia. now apply B2.
  - pose proof (within_cache_false x s Hc Ew) as Hbelow.
    assert (Hreach' : exists v, In v us /\ x <= v).
    { destruct Hreach as [v [Hin Hv]]. apply in_app_or in Hin. destruct Hin as [Hin|Hin].
      - destruct (In_nth _ _ 0 Hin) as [k [Hk Hn]].
        specialize (Hbelow k Hk). lia.
      - exists v. split; assumption. }
    destruct s as [c it]. simpl in *.
    destruct (insertpos_loop_spec x n fuel c it us it2 Hp Hreach' Hf)
      as [ys [v [zs [it' [H1 [H2 [H3 [H4 H5]]]]]]]].
    rewrite H5.
    exists (size (mk_seq (c ++ ys ++ [v]) it') - 1), (ys ++ [v]), zs, it'.
    assert (Hlen : List.length (ys ++ [v]) = (List.length ys + 1)%nat)
      by (rewrite length_app; simpl; lia).
    assert (Hsz : size (mk_seq (c ++ ys ++ [v]) it') - 1
                  = Z.of_nat (List.length c + List.length ys)).
    { unfold size. simpl. rewrite !length_app. simpl. lia. }
    repeat split; try discriminate.
    + subst us. now rewrite <- app_assoc.
    + now rewrite Hlen.
    + lia.
    + rewrite Hsz. subst us. rewrite !length_app. simpl. lia.
    + rewrite Hsz, Nat2Z.id. subst us.
      rewrite app_nth2 by lia. rewrite app_nth2 by lia.
      replace (List.length c + List.length ys - List.length c - List.length ys)%nat
        with 0%nat by lia.
      simpl. lia.
    + intros j Hj. rewrite Hsz, Nat2Z.id in Hj. subst us.
      destruct (Nat.lt_ge_cases j (List.length c)) as [Hjc|Hjc].
      * rewrite app_nth1 by lia. now apply Hbelow.
      * rewrite app_nth2 by lia. rewrite app_nth1 by lia.
        rewrite Forall_forall in H2. apply H2. apply nth_In. lia.
    + rewrite Hsz, !length_app. simpl. lia.
    + rewrite Hsz. unfold size. simpl. rewrite Hlen. lia.
    + exists ys, v. repeat split; assumption.
Qed.

(** C5: [insertpos(x)] on a non-decreasing sequence that reaches [x] returns
    the leftmost index whose value is at least [x]; within the cached range
    it is [bisect_left] on the cache and nothing is pulled, beyond it the
    values are pulled one by one up to the first that is at least [x], whose
    index (the last of the cache) is returned. *)
Theorem insertpos_leftmost
    (s : LazySequence Z S) (x : Z) (fuel n : nat) (us : list Z) (it2 : S) :
  nondecreasing (_cache s ++ us) ->
  produce next_iterator n (_cache s) (iterator s) = Some (us, it2) ->
  (exists v, In v (_cache s ++ us) /\ x <= v) ->
  (n <= fuel)%nat ->
  exists idx xs zs it',
    insertpos next_iterator fuel x s = (Ok idx, mk_seq (_cache s ++ xs) it') /\
    us = xs ++ zs /\
    produce next_iterator (List.length xs) (_cache s) (iterator s) = Some (xs, it') /\
    leftmost_ge (_cache s ++ us) x idx /\
    (within_cache x s = true ->
       xs = [] /\ idx = Z.of_nat (bisect_left (_cache s) x)) /\
    (within_cache x s = false ->
       idx = size s + Z.of_nat (List.length xs) - 1 /\
       exists ys v, xs = ys ++ [v] /\ Forall (fun y => y < x) ys /\ x <= v).
Proof.
  intros Hs Hp Hreach Hf.
  destruct (insertpos_spec s x fuel n us it2 Hs Hp Hreach Hf)
    as [idx [xs [zs [it' [H1 [H2 [H3 [H4 [_ [H6 H7]]]]]]]]]].
  exists idx, xs, zs, it'. repeat split; auto; try apply H4; try apply H6; try apply H7; auto.
Qed.

(** C6, as the code has it: [index(x)] on a non-decreasing sequence whose
    values, cached or still to be produced, reach [x] (one of them is at
    least [x]): when [x] is among the values it returns the (leftmost) index
    that holds [x]; when it is not, it raises [ValueError] with the message
    made of [x] and the name of the class. *)
Theorem index_finds_or_raises
    (s : LazySequence Z S) (x : Z) (fuel n : nat) (us : list Z) (it2 : S) :
  nondecreasing (_cache s ++ us) ->
  produce next_iterator n (_cache s) (iterator s) = Some (us, it2) ->
  (exists v, In v (_cache s ++ us) /\ x <= v) ->
  (n <= fuel)%nat ->
  exists xs zs it',
    us = xs ++ zs /\
    produce next_iterator (List.length xs) (_cache s) (iterator s) = Some (xs, it') /\
    (In x (_cache s ++ us) ->
       exists idx,
         index next_iterator class_name fuel x s = (Ok idx, mk_seq (_cache s ++ xs) it') /\
         nth_error (_cache s ++ xs) (Z.to_nat idx) = Some x /\
         leftmost_ge (_cache s ++ us) x idx) /\
    (~ In x (_cache s ++ us) ->
       index next_iterator class_name fuel x s
       = (Raise (ValueError (str x ++ " is not in " ++ class_name)),
          mk_seq (_cache s ++ xs) it')).
Proof.
  intros Hs Hp Hreach Hf.
  destruct (insertpos_spec s x fuel n us it2 Hs Hp Hreach Hf)
    as [idx [xs [zs [it' [H1 [H2 [H3 [H4 [H5 _]]]]]]]]].
  exists xs, zs, it'. split; [assumption|]. split; [assumption|].
  destruct H4 as [[Hi0 Hi1] [Hge Hbelow]].
  destruct (list_getitem_in_range (_cache s ++ xs) idx) as [w [Hw Hg]]; [lia|].
  assert (Hwn : w = nth (Z.to_nat idx) (_cache s ++ us) 0).
  { subst us. rewrite app_assoc. rewrite app_nth1 by lia.
    symmetry. now apply nth_error_nth. }
  unfold index, bind. rewrite H1. simpl. rewrite Hg.
  split.
  - intros Hin. exists idx.
    destruct (In_nth _ _ 0 Hin) as [k [Hk Hn]].
    assert (Hik : (Z.to_nat idx <= k)%nat).
    { destruct (Nat.lt_ge_cases k (Z.to_nat idx)) as [Hlt|Hle]; [|assumption].
      specialize (Hbelow k Hlt). lia. }
    assert (Hwx : w <= x).
    { rewrite Hwn, <- Hn. apply Hs. lia. }
    assert (Hweq : w = x) by lia. rewrite Hweq in *.
    rewrite Z.eqb_refl. repeat split; auto; lia.
  - intros Hnin.
    assert (Hne : x <> w).
    { intros Heq. apply Hnin. subst w. rewrite Heq. apply nth_In. lia. }
    apply Z.eqb_neq in Hne. now rewrite Hne.
Qed.

(** The searches are runs of pulls as well. *)
Lemma insertpos_loop_pulled (x : Z) (fuel : nat) : forall s,
  exists xs, pulled_ s xs (snd (insertpos_loop next_iterator fuel x s)).
Proof.
  induction fuel as [|f IH]; intros s; simpl.
  - exists []. constructor.
  - destruct (next_pulled Z S next_iterator s) as [xs Hxs].
    destruct (__next__ next_iterator s) as [[v|e|] s1]; simpl in *; try (exists xs; exact Hxs).
    destruct (x >? v); [|exists xs; exact Hxs].
    destruct (IH s1) as [ys Hys]. exists (xs ++ ys). eapply pulled_trans; eauto.
Qed.

Lemma insertpos_pulled (fuel : nat) (x : Z) (s : LazySequence Z S) :
  exists xs, pulled_ s xs (snd (insertpos next_iterator fuel x s)).
Proof.
  unfold insertpos. destruct (within_cache x s); [exists []; constructor|].
  destruct (insertpos_loop_pulled x fuel s) as [xs Hxs]. exists xs.
  destruct (insertpos_loop next_iterator fuel x s) as [[u|e|] s1]; exact Hxs.
Qed.

Lemma contains_pulled (fuel : nat) (x : Z) (s : LazySequence Z S) :
  exists xs, pulled_ s xs (snd (__contains__ next_iterator fuel x s)).
Proof.
  unfold __contains__, bind. destruct (insertpos_pulled fuel x s) as [xs Hxs]. exists xs.
  destruct (insertpos next_iterator fuel x s) as [[idx|e|] s1]; simpl in *; try exact Hxs.
  destruct (list_getitem (_cache s1) idx); exact Hxs.
Qed.

Lemma index_pulled (fuel : nat) (x : Z) (s : LazySequence Z S) :
  exists xs, pulled_ s xs (snd (index next_iterator class_name fuel x s)).
Proof.
  unfold index, bind. destruct (insertpos_pulled fuel x s) as [xs Hxs]. exists xs.
  destruct (insertpos next_iterator fuel x s) as [[idx|e|] s1]; simpl in *; try exact Hxs.
  destruct (list_getitem (_cache s1) idx) as [v|e|]; try exact Hxs.
  destruct (x =? v); exact Hxs.
Qed.

Lemma exec_pulled (o : op) (s : LazySequence Z S) :
  exists xs, pulled_ s xs (exec next_iterator class_name o s).
Proof.
  destruct o; simpl.
  - apply next_pulled.
  - apply getitem_int_pulled.
  - apply getitem_slice_pulled.
  - apply insertpos_pulled.
  - apply contains_pulled.
  - apply index_pulled.
  - apply iter_next_pulled.
Qed.

Lemma run_pulled (ops : list op) : forall s : LazySequence Z S,
  exists xs, pulled_ s xs (run next_iterator class_name ops s).
Proof.
  induction ops as [|o ops IH]; intros s; simpl.
  - exists []. constructor.
  - destruct (exec_pulled o s) as [xs Hxs].
    destruct (IH (exec next_iterator class_name o s)) as [ys Hys].
    exists (xs ++ ys). eapply pulled_trans; eauto.
Qed.

(** C9: whatever operations run, in whatever order and with whatever outcome,
    the state they lead to is the state a run of pulls leads to: the cache is
    the cache before, followed by the values the iterator produced, in the
    order it produced them; nothing is removed or moved, the size does not
    decrease, and a sequence that starts with an empty cache (as [__init__]
    leaves it) holds exactly the values produced. *)
Theorem cache_append_only (ops : list op) (s : LazySequence Z S) :
  exists xs,
    pulled_ s xs (run next_iterator class_name ops s) /\
    _cache (run next_iterator class_name ops s) = _cache s ++ xs /\
    (forall (i : nat) (x : Z),
       nth_error (_cache s) i = Some x ->
       nth_error (_cache (run next_iterator class_name ops s)) i = Some x) /\
    size s <= size (run next_iterator class_name ops s) /\
    (_cache s = [] -> _cache (run next_iterator class_name ops s) = xs).
Proof.
  destruct (run_pulled ops s) as [xs Hxs]. exists xs.
  pose proof (pulled_cache _ _ _ _ _ _ Hxs) as Hc.
  split; [exact Hxs|]. split; [exact Hc|]. split; [|split].
  - intros i x Hi. eapply nth_error_pulled; eauto.
  - rewrite (pulled_size _ _ _ _ _ _ Hxs). lia.
  - intros He. now rewrite Hc, He.
Qed.

End SortedFacts.

Lemma insertpos_leftmost_witness :
  exists idx xs zs it',
    insertpos squares_next 5 10 Squares = (Ok idx, mk_seq (_cache Squares ++ xs) it') /\
    [0; 1; 4; 9; 16] = xs ++ zs /\
    produce squares_next (List.length xs) (_cache Squares) (iterator Squares)
      = Some (xs, it') /\
    leftmost_ge (_cache Squares ++ [0; 1; 4; 9; 16]) 10 idx /\
    (within_cache 10 Squares = true ->
       xs = [] /\ idx = Z.of_nat (bisect_left (_cache Squares) 10)) /\
    (within_cache 10 Squares = false ->
       idx = size Squares + Z.of_nat (List.length xs) - 1 /\
       exists ys v, xs = ys ++ [v] /\ Forall (fun y => y < 10) ys /\ 10 <= v).
Proof.
  apply (insertpos_leftmost Z squares_next Squares 10 5 5 [0; 1; 4; 9; 16] 5).
  - apply sortedb_nondecreasing. reflexivity.
  - reflexivity.
  - exists 16. split; [simpl; tauto|lia].
  - lia.
Defined.

Lemma index_finds_or_raises_witness :
  exists xs zs it',
    [0; 1; 4; 9; 16] = xs ++ zs /\
    produce squares_next (List.length xs) (_cache Squares) (iterator Squares)
      = Some (xs, it') /\
    (In 10 (_cache Squares ++ [0; 1; 4; 9; 16]) ->
       exists idx,
         index squares_next "Squares" 5 10 Squares
           = (Ok idx, mk_seq (_cache Squares ++ xs) it') /\
         nth_error (_cache Squares ++ xs) (Z.to_nat idx) = Some 10 /\
         leftmost_ge (_cache Squares ++ [0; 1; 4; 9; 16]) 10 idx) /\
    (~ In 10 (_cache Squares ++ [0; 1; 4; 9; 16]) ->
       index squares_next "Squares" 5 10 Squares
       = (Raise (ValueError (str 10 ++ " is not in " ++ "Squares")),
          mk_seq (_cache Squares ++ xs) it')).
Proof.
  apply (index_finds_or_raises Z squares_next "Squares" Squares 10 5 5 [0; 1; 4; 9; 16] 5).
  - apply sortedb_nondecreasing. reflexivity.
  - reflexivity.
  - exists 16. split; [simpl; tauto|lia].
  - lia.
Defined.

(** C6 as stated fails where the values do not reach [x]: over
    [iter([1, 2, 3])], a non-decreasing producer in which 5 does not occur,
    [index(5)] raises [StopIteration] once the three values are cached, and
    no [ValueError]. *)
Lemma index_beyond_the_values :
  nondecreasing [1; 2; 3] /\ ~ In 5 [1; 2; 3] /\
  index list_iterator "LazySortedSequence" 9 5 (mk_seq [] [1; 2; 3])
  = (Raise StopIteration, mk_seq [1; 2; 3] []) /\
  fst (index list_iterator "LazySortedSequence" 9 5 (mk_seq [] [1; 2; 3]))
  <> Raise (ValueError "5 is not in LazySortedSequence").
Proof.
  split; [apply sortedb_nondecreasing; reflexivity|].
  split; [simpl; intros [H|[H|[H|[]]]]; discriminate H|].
  split; [vm_compute; reflexivity|].
  intros H. vm_compute in H. discriminate H.
Qed.

Example squares_index :
  fst (index squares_next "Squares" 9 16 Squares) = Ok 4 /\
  fst (index squares_next "Squares" 9 10 Squares)
  = Raise (ValueError "10 is not in Squares").
Proof. split; vm_compute; reflexivity. Qed.

(** ** Primes: the membership test does not touch the sequence *)

Lemma contains_within_cache {S : Type} (next_iterator : list Z -> S -> outcome Z * S)
    (fuel : nat) (x : Z) (s : LazySequence Z S) :
  within_cache x s = true ->
  __contains__ next_iterator fuel x s
  = (match list_getitem (_cache s) (Z.of_nat (bisect_left (_cache s) x)) with
     | Ok v => Ok (x =? v)
     | Raise e => Raise e
     | Timeout => Timeout
     end, s).
Proof.
  intros Hw. unfold __contains__, bind, insertpos. rewrite Hw.
  destruct (list_getitem (_cache s) (Z.of_nat (bisect_left (_cache s) x))); reflexivity.
Qed.

Lemma within_cache_last {S : Type} (x l : Z) (s : LazySequence Z S) :
  last s = Some l -> x <= l -> within_cache x s = true.
Proof.
  intros Hl Hx. unfold within_cache. rewrite Hl.
  destruct (last_nth s l Hl) as [Hne _].
  apply andb_true_iff. split; [apply Z.ltb_lt; unfold size; lia|now apply Z.leb_le].
Qed.

Lemma list_getitem_ends {T : Type} (l : list T) (i : Z) : list_getitem l i <> Timeout.
Proof.
  unfold list_getitem.
  destruct ((if i <? 0 then i + Z.of_nat (List.length l) else i) <? 0);
    simpl; [discriminate|].
  destruct (Z.of_nat (List.length l) <=? (if i <? 0 then i + Z.of_nat (List.length l) else i));
    [discriminate|].
  destruct (nth_error l (Z.to_nat (if i <? 0 then i + Z.of_nat (List.length l) else i)));
    discriminate.
Qed.

Lemma any_divides_ends (n : Z) (ds : list Z) : any_divides n ds <> Timeout.
Proof.
  induction ds as [|d ds IH]; simpl; [discriminate|].
  destruct (d =? 0); [discriminate|]. destruct (n mod d =? 0); [discriminate|exact IH].
Qed.

(** The two trial divisions of [Primes.__contains__], once [top] is known. *)
Lemma trial_divisions_end (n root top : Z) (s : LazySequence Z Primes.gen_state) :
  fst (match any_divides n (islice_list (_cache s) 1 top) with
       | Ok true => (Ok false, s)
       | Ok false =>
           match last s with
           | None => (Raise TypeError, s)
           | Some l' =>
               match any_divides n (range_elems (mk_range (l' + 2) (root + 1) 2)) with
               | Ok true => (Ok false, s)
               | Ok false => (Ok true, s)
               | Raise e => (Raise e, s)
               | Timeout => (Timeout, s)
               end
           end
       | Raise e => (Raise e, s)
       | Timeout => (Timeout, s)
       end) <> Timeout /\
  snd (match any_divides n (islice_list (_cache s) 1 top) with
       | Ok true => (Ok false, s)
       | Ok false =>
           match last s with
           | None => (Raise TypeError, s)
           | Some l' =>
               match any_divides n (range_elems (mk_range (l' + 2) (root + 1) 2)) with
               | Ok true => (Ok false, s)
               | Ok false => (Ok true, s)
               | Raise e => (Raise e, s)
               | Timeout => (Timeout, s)
               end
           end
       | Raise e => (Raise e, s)
       | Timeout => (Timeout, s)
       end) = s.
Proof.
  pose proof (any_divides_ends n (islice_list (_cache s) 1 top)) as H1.
  destruct (any_divides n (islice_list (_cache s) 1 top)) as [[|]|e|];
    try (split; [discriminate|reflexivity]); [|congruence].
  destruct (last s) as [l'|]; [|split; [discriminate|reflexivity]].
  pose proof (any_divides_ends n (range_elems (mk_range (l' + 2) (root + 1) 2))) as H2.
  destruct (any_divides n (range_elems (mk_range (l' + 2) (root + 1) 2))) as [[|]|e|];
    try (split; [discriminate|reflexivity]). congruence.
Qed.

(** C10: [isprime(n)] leaves the sequence as it found it, cache and
    generator, in every state and for every [n]; it never pulls: its result
    does not depend on the fuel, it is the same with none at all, and it
    always ends. *)
Theorem isprime_leaves_state (fuel : nat) (n : Z) (s : LazySequence Z Primes.gen_state) :
  snd (isprime fuel n s) = s /\
  isprime fuel n s = isprime 0 n s /\
  fst (isprime fuel n s) <> Timeout.
Proof.
  unfold isprime, Primes.__contains__.
  destruct (last s) as [l|] eqn:El;
    [|split; [reflexivity|split; [reflexivity|discriminate]]].
  destruct (n <=? l) eqn:En.
  - apply Z.leb_le in En.
    rewrite !contains_within_cache by (eapply within_cache_last; eauto).
    split; [reflexivity|split; [reflexivity|]]. simpl.
    pose proof (list_getitem_ends (_cache s) (Z.of_nat (bisect_left (_cache s) n))) as H.
    destruct (list_getitem (_cache s) (Z.of_nat (bisect_left (_cache s) n)));
      congruence.
  - destruct (n <? 0); [split; [reflexivity|split; [reflexivity|discriminate]]|].
    unfold bind.
    destruct (Z.sqrt n >? l) eqn:Er.
    + unfold ret.
      destruct (trial_divisions_end n (Z.sqrt n) (size s) s) as [H1 H2].
      split; [exact H2|split; [reflexivity|exact H1]].
    + assert (Hr : Z.sqrt n <= l) by lia.
      unfold insertpos. rewrite (within_cache_last _ _ _ El Hr).
      destruct (trial_divisions_end n (Z.sqrt n)
                  (Z.of_nat (bisect_left (_cache s) (Z.sqrt n))) s) as [H1 H2].
      split; [exact H2|split; [reflexivity|exact H1]].
Qed.

(** ** Number theory: a prime between [m] and [m * m] *)

(** The arithmetic is done on [nat] with MathComp's [prime], [logn] and
    binomial coefficients, and brought back to [Z] at the end. *)

Lemma pow4_step_coq (m : nat) :
  (16 <= m)%nat ->
  ((m + 1) * (m + 1) * ((m + 1) * (m + 1)) <= 2 * (m * m * (m * m)))%nat.
Proof. intros H. nia. Qed.

Module NT.
Import ssreflect ssrfun ssrbool eqtype ssrnat seq div prime bigop binomial.
Local Open Scope nat_scope.

Lemma pow4_le_pow2 m : 16 <= m -> m ^ 4 <= 2 ^ m.
Proof.
elim: m => // m IH; rewrite leq_eqVlt => /orP[/eqP<-|] //.
rewrite ltnS => le.
have H1 : m.+1 ^ 4 <= 2 * m ^ 4.
  have /leP := le => /pow4_step_coq /leP.
  by rewrite !plusE !multE addn1 !mulnn -!expnM.
apply: leq_trans H1 _.
by rewrite (expnS 2 m) leq_mul2l IH.
Qed.
Lemma bin_central_ge n : 2 ^ n <= 'C(n.*2, n).
Proof.
elim: n => [|n IH]; first by rewrite bin0.
rewrite doubleS binS.
have -> : 'C(n.*2.+1, n) = 'C(n.*2.+1, n.+1).
  have le : n.+1 <= n.*2.+1 by rewrite ltnS -addnn leq_addr.
  by rewrite -(bin_sub le) subSS -addnn addnK.
rewrite addnn expnS mul2n leq_double binS.
by apply: leq_trans IH (leq_addl _ _).
Qed.
Lemma div_double_le n d : n.*2 %/ d <= (n %/ d).*2 + (d <= n.*2).
Proof.
case: d => [|d]; first by rewrite !divn0.
case: (leqP d.+1 n.*2) => [_|lt]; last by rewrite divn_small.
by rewrite addn1 -ltnS ltn_divLR // -doubleS -doubleMl ltn_double ltn_ceil.
Qed.

Lemma sum_ind_le t N : \sum_(1 <= k < N.+1) (k <= t) <= minn N t.
Proof.
elim: N => [|N IH]; first by rewrite big_nil.
rewrite big_nat_recr //.
case: (leqP N.+1 t) => [le|gt] /=.
  by rewrite addn1 ltnS; apply: leq_trans IH (geq_minl _ _).
by rewrite addn0; apply: leq_trans IH (geq_minr _ _).
Qed.

Lemma logn_bin_central q n : 0 < n -> q ^ logn q 'C(n.*2, n) <= n.*2.
Proof.
move=> n_gt0.
have n2_gt0 : 0 < n.*2 by rewrite double_gt0.
case pq: (prime q); last by rewrite lognE pq /= expn0.
have q_gt1 := prime_gt1 pq.
apply: leq_trans (trunc_logP q_gt1 n2_gt0).
rewrite leq_exp2l //.
have le : n <= n.*2 by rewrite -addnn leq_addr.
have := bin_fact le.
rewrite -addnn addnK addnn => /(congr1 (logn q)).
have C_gt0 : 0 < 'C(n.*2, n) by rewrite bin_gt0.
rewrite !lognM ?fact_gt0 ?muln_gt0 ?fact_gt0 // !logn_fact // addnn => E.
have A_eq : \sum_(1 <= k < n.*2.+1) n %/ q ^ k = \sum_(1 <= k < n.+1) n %/ q ^ k.
  rewrite (@big_cat_nat _ _ _ n.+1) //=.
  rewrite [X in _ + X]big_nat_cond [X in _ + X]big1 ?addn0 // => k /andP[/andP[lt _] _].
  by rewrite divn_small //; apply: leq_trans lt (ltnW (ltn_expl _ _)).
have B_le : \sum_(1 <= k < n.*2.+1) n.*2 %/ q ^ k
            <= (\sum_(1 <= k < n.+1) n %/ q ^ k).*2 + trunc_log q n.*2.
  rewrite -A_eq -[X in _ <= X + _]mul2n big_distrr /=.
  apply: leq_trans (_ : \sum_(1 <= k < n.*2.+1) (2 * (n %/ q ^ k) + (k <= trunc_log q n.*2)) <= _).
    apply: leq_sum => k _; rewrite mul2n.
    apply: leq_trans (div_double_le _ _) _; rewrite leq_add2l.
    by case le_k: (q ^ k <= n.*2) => //; rewrite (trunc_log_max q_gt1 le_k).
  rewrite big_split /= leq_add2l.
  by apply: leq_trans (sum_ind_le _ _) (geq_minr _ _).
by move: B_le; rewrite -E addnC leq_add2l.
Qed.

Lemma bin2_double m : 'C(m, 2).*2 = m * m.-1.
Proof.
have := bin_ffact m 2.
by rewrite -mul2n mulnC !factS fact0 !muln1 mulnC /falling_factorial /ffact_rec; case: m => //= m; rewrite muln1.
Qed.

Lemma small_prime_between m : 1 < m -> m < 16 ->
  exists2 q, prime q & m < q < m ^ 2.
Proof.
move=> gt1 lt16.
pose f k := if k < 3 then 3 else if k < 5 then 5 else if k < 11 then 11 else 17.
have: all (fun k => prime (f k) && (k < f k < k ^ 2)) (iota 2 14) by [].
move/allP => /(_ m); rewrite mem_iota gt1 lt16 => /(_ isT) /andP[pf bd].
by exists (f m).
Qed.

Lemma large_prime_between m : 15 < m ->
  exists2 q, prime q & m < q < m ^ 2.
Proof.
move=> m_ge.
have m_gt0 : 0 < m by apply: leq_trans m_ge.
have m_gt1 : 1 < m by apply: leq_trans m_ge.
case E: (has (fun q => prime q && (m < q)) (iota 0 (m ^ 2))).
  case/hasP: E => q; rewrite mem_iota add0n => /andP[_ lt] /andP[pq gt].
  by exists q => //; rewrite gt lt.
move/hasPn: E => noprime.
pose n := 'C(m, 2).
have n2E : n.*2 = m * m.-1 by exact: bin2_double.
have n2_lt : n.*2 < m ^ 2.
  by rewrite n2E -mulnn ltn_pmul2l // prednK.
have n_gt0 : 0 < n by rewrite bin_gt0.
pose C := 'C(n.*2, n).
have C_gt0 : 0 < C by rewrite bin_gt0 -addnn leq_addr.
have factor_le p : p ^ logn p C <= n.*2 by apply: logn_bin_central.
have factor_big p : m < p -> p ^ logn p C = 1.
  move=> lt_mp; case k0: (logn p C) => [|k] //.
  have pp : prime p.
    have: 0 < logn p C by rewrite k0.
    by rewrite logn_gt0 mem_primes => /andP[].
  have p_lt : p < m ^ 2.
    apply: leq_ltn_trans n2_lt; apply: leq_trans (factor_le p).
    by rewrite k0 expnS leq_pmulr // expn_gt0 prime_gt0.
  have := noprime p; rewrite mem_iota add0n p_lt pp lt_mp /=.
  by move=> /(_ isT).
have C_le : C <= n.*2 ^ m.-1.
  pose M := maxn C m.
  have := widen_partn predT (leq_maxl C m : C <= M).
  rewrite partnT // => ->.
  have M_ge : m <= M by exact: leq_maxr.
  rewrite (@big_cat_nat _ _ _ 2) //=; first exact: leq_trans m_gt1 (leqW M_ge).
  rewrite (@big_cat_nat _ _ _ m.+1 2) //=.
  rewrite [X in X * _]big_nat_recl // big_nat1 exp1n muln1.
  have -> : 0 ^ logn 0 C = 1 by rewrite lognE.
  rewrite mul1n [X in _ * X]big_nat_cond [X in _ * X]big1 ?muln1;
    first by move=> i /andP[/andP[lt _] _]; apply: factor_big.
  have -> : n.*2 ^ m.-1 = \prod_(2 <= i < m.+1 | i \in predT) n.*2.
    by rewrite prod_nat_const_nat subSS subn1.
  by apply: leq_prod => i _.
have: (2 ^ m) ^ m.-1 <= ((m * m.-1) ^ 2) ^ m.-1.
  have -> : (2 ^ m) ^ m.-1 = (2 ^ n) ^ 2 by rewrite -!expnM -n2E -muln2.
  have -> : ((m * m.-1) ^ 2) ^ m.-1 = (n.*2 ^ m.-1) ^ 2 by rewrite -n2E -!expnM mulnC.
  by rewrite leq_exp2r //; apply: leq_trans (bin_central_ge n) C_le.
have m1_gt0 : 0 < m.-1 by rewrite -subn1 subn_gt0.
rewrite leq_exp2r // => le1.
have: m ^ 4 <= (m * m.-1) ^ 2 by exact: leq_trans (pow4_le_pow2 m m_ge) le1.
by rewrite (expnM m 2 2) leq_exp2r // -mulnn leq_pmul2l // leqNgt ltn_predL m_gt0.
Qed.

Lemma prime_between_square m : 1 < m -> exists2 q, prime q & m < q < m ^ 2.
Proof.
move=> gt1; case: (ltnP m 16) => [lt|ge]; first exact: small_prime_between.
exact: large_prime_between.
Qed.


Lemma dvdn_divide (d n : nat) : (d %| n)%N <-> (Z.of_nat d | Z.of_nat n)%Z.
Proof.
split.
- move/dvdnP => [k ->]. exists (Z.of_nat k). by rewrite -multE Nat2Z.inj_mul.
- case=> k Hk.
  case: d Hk => [|d] Hk.
    have -> : n = 0%N by lia.
    by [].
  apply/dvdnP; exists (Z.to_nat k).
  have k0 : (0 <= k)%Z by nia.
  apply: Nat2Z.inj. rewrite -multE Nat2Z.inj_mul Z2Nat.id //.
Qed.

Lemma prime_is_prime (n : nat) : prime n <-> is_prime (Z.of_nat n).
Proof.
split.
- move/primeP => [/ltP n1 H]; split; first by lia.
  move=> d [d1 dn] dv.
  have := H (Z.to_nat d).
  have dv' : (Z.to_nat d %| n)%N.
    by apply (proj2 (dvdn_divide _ _)); rewrite Z2Nat.id //; lia.
  move=> /(_ dv') /orP[/eqP E|/eqP E]; lia.
- case=> n1 H; apply/primeP; split; first by apply/ltP; lia.
  move=> d dv.
  have n0 : (0 < n)%N by apply/ltP; lia.
  have /leP dn := dvdn_leq n0 dv.
  have d0 : d <> 0%N by move=> E; move: dv; rewrite E dvd0n => /eqP; lia.
  case: (Nat.eq_dec d 1) => [->|d1] //.
  case: (Nat.eq_dec d n) => [->|dn'] ; first by rewrite eqxx orbT.
  case: (H (Z.of_nat d)); first by lia.
  exact: (proj1 (dvdn_divide _ _)).
Qed.

Lemma prime_between_square_Z (m : Z) :
  (1 < m)%Z -> exists q : Z, is_prime q /\ (m < q < m * m)%Z.
Proof.
move=> m1.
have m1' : (1 < Z.to_nat m)%N by apply/ltP; lia.
case: (prime_between_square _ m1') => q pq /andP[/ltP lo /ltP hi].
exists (Z.of_nat q); split; first exact: (proj1 (prime_is_prime q)).
move: hi; rewrite -mulnn -multE => hi.
split; first by lia.
have := proj1 (Nat2Z.inj_lt _ _) hi.
by rewrite Nat2Z.inj_mul Z2Nat.id; lia.
Qed.

Lemma small_prime_factor (n : Z) :
  (1 < n)%Z -> ~ is_prime n ->
  exists q : Z, is_prime q /\ (q | n)%Z /\ (q * q <= n)%Z.
Proof.
move=> n1 np.
have n1' : (1 < Z.to_nat n)%N by apply/ltP; lia.
have n0' : (0 < Z.to_nat n)%N by apply/ltP; lia.
have nE : n = Z.of_nat (Z.to_nat n) by rewrite Z2Nat.id; lia.
exists (Z.of_nat (pdiv (Z.to_nat n))); split; [|split].
- by apply: (proj1 (prime_is_prime _)); apply: pdiv_prime.
- by rewrite [X in (_ | X)%Z]nE; apply: (proj1 (dvdn_divide _ _)); apply: pdiv_dvd.
- case: (leqP (pdiv (Z.to_nat n) ^ 2) (Z.to_nat n)) => [/leP le|lt].
    move: le; rewrite -mulnn -multE => le.
    have := proj1 (Nat2Z.inj_le _ _) le.
    by rewrite Nat2Z.inj_mul Z2Nat.id; lia.
  case: np; rewrite nE; apply: (proj1 (prime_is_prime _)).
  exact: ltn_pdiv2_prime.
Qed.

(** Primality is decidable: MathComp's [prime] computes it. *)
Lemma is_prime_decidable (p : Z) : is_prime p \/ ~ is_prime p.
Proof.
case: (Z_lt_le_dec 1 p) => [p1|p1]; last by right; case; lia.
have pE : p = Z.of_nat (Z.to_nat p) by rewrite Z2Nat.id; lia.
case pp: (prime (Z.to_nat p)).
- by left; rewrite pE; apply: (proj1 (prime_is_prime _)).
- right; rewrite pE => /(proj2 (prime_is_prime _)).
  by rewrite pp.
Qed.

End NT.

(** ** The end of a finite iterator *)

Section Exhaustion.

Variables T S : Type.
Variable next_iterator : list T -> S -> outcome T * S.

(** When the iterator ends after [k] more values, [extend] with a larger
    bound caches the [k] values and ends quietly. *)
Lemma extend_islice_exhausted (k : nat) : forall m c it xs it1 it2,
  produce next_iterator k c it = Some (xs, it1) ->
  next_iterator (c ++ xs) it1 = (Raise StopIteration, it2) ->
  (k < m)%nat ->
  extend_islice next_iterator m (mk_seq c it) = (Ok tt, mk_seq (c ++ xs) it2).
Proof.
  induction k as [|k IH]; intros m c it xs it1 it2 Hp Hstop Hm; simpl in Hp.
  - inversion Hp; subst. rewrite app_nil_r in *.
    destruct m as [|m]; [lia|]. simpl. now rewrite Hstop.
  - destruct (next_iterator c it) as [[x| |] it'] eqn:E; try discriminate.
    destruct (produce next_iterator k (c ++ [x]) it') as [[ys it'']|] eqn:E1; try discriminate.
    inversion Hp; subst. destruct m as [|m]; [lia|]. simpl. rewrite E.
    rewrite (IH m (c ++ [x]) it' ys it1 it2 E1).
    + now rewrite <- app_assoc.
    + now rewrite <- app_assoc.
    + lia.
Qed.

(** An index beyond the end of a finite sequence: the values that were left
    are cached, then the list lookup raises [IndexError]. *)
Theorem getitem_int_exhausted
    (s : LazySequence T S) (i : Z) (k : nat) (xs : list T) (it1 it2 : S) :
  produce next_iterator k (_cache s) (iterator s) = Some (xs, it1) ->
  next_iterator (_cache s ++ xs) it1 = (Raise StopIteration, it2) ->
  size s + Z.of_nat k <= i ->
  i - size s + 1 <= INFINITE ->
  __getitem_int__ next_iterator i s = (Raise IndexError, mk_seq (_cache s ++ xs) it2) /\
  size (mk_seq (_cache s ++ xs) it2) = size s + Z.of_nat k.
Proof.
  intros Hp Hstop Hi Hmax.
  assert (Hs : 0 <= size s) by (unfold size; lia).
  pose proof (produce_length _ _ _ _ _ _ _ _ Hp) as Hlen.
  assert (Hsz : size (mk_seq (_cache s ++ xs) it2) = size s + Z.of_nat k).
  { unfold size. simpl. rewrite length_app. lia. }
  split; [|exact Hsz].
  unfold __getitem_int__.
  destruct (i <? 0) eqn:E; [apply Z.ltb_lt in E; lia|].
  destruct (size s <=? i) eqn:E1; [|apply Z.leb_gt in E1; lia].
  destruct (INFINITE <? i - size s + 1) eqn:E2; [apply Z.ltb_lt in E2; lia|].
  assert (Hk : (k < Z.to_nat (i - size s + 1))%nat) by lia.
  assert (Hout : Z.of_nat (List.length (_cache s ++ xs)) <= i).
  { rewrite length_app. unfold size in Hi. lia. }
  destruct s as [c it]. simpl in Hp, Hstop, Hout |- *.
  rewrite (extend_islice_exhausted k _ c it xs it1 it2 Hp Hstop Hk).
  now rewrite list_getitem_out_of_range.
Qed.

End Exhaustion.

Lemma getitem_int_exhausted_witness :
  __getitem_int__ list_iterator 5 (mk_seq [] [10; 20; 30])
  = (Raise IndexError, mk_seq ([] ++ [10; 20; 30]) []) /\
  size (mk_seq (T := Z) (S := list Z) ([] ++ [10; 20; 30]) [])
  = size (mk_seq (T := Z) (S := list Z) [] [10; 20; 30]) + Z.of_nat 3.
Proof.
  apply (getitem_int_exhausted Z (list Z) list_iterator (mk_seq [] [10; 20; 30]) 5 3
           [10; 20; 30] [] []).
  - reflexivity.
  - reflexivity.
  - unfold size; simpl; lia.
  - unfold size, INFINITE; simpl; lia.
Defined.

(** ** Searching a sorted sequence: membership, and the end of the iterator *)

Section SortedSearch.

Variable S : Type.
Variable next_iterator : list Z -> S -> outcome Z * S.
Variable class_name : string.

(** [x in s] on a non-decreasing sequence that reaches [x]: [True] exactly
    when [x] is among the values; what is pulled is what [insertpos] pulls. *)
Theorem contains_iff_occurs
    (s : LazySequence Z S) (x : Z) (fuel n : nat) (us : list Z) (it2 : S) :
  nondecreasing (_cache s ++ us) ->
  produce next_iterator n (_cache s) (iterator s) = Some (us, it2) ->
  (exists v, In v (_cache s ++ us) /\ x <= v) ->
  (n <= fuel)%nat ->
  exists b s',
    __contains__ next_iterator fuel x s = (Ok b, s') /\
    snd (insertpos next_iterator fuel x s) = s' /\
    (b = true <-> In x (_cache s ++ us)).
Proof.
  intros Hs Hp Hreach Hf.
  destruct (insertpos_spec S next_iterator s x fuel n us it2 Hs Hp Hreach Hf)
    as [idx [xs [zs [it' [H1 [H2 [H3 [H4 [H5 _]]]]]]]]].
  destruct H4 as [[Hi0 Hi1] [Hge Hbelow]].
  destruct (list_getitem_in_range (_cache s ++ xs) idx) as [w [Hw Hg]]; [lia|].
  assert (Hwn : w = nth (Z.to_nat idx) (_cache s ++ us) 0).
  { subst us. rewrite app_assoc. rewrite app_nth1 by lia.
    symmetry. now apply nth_error_nth. }
  exists (x =? w), (mk_seq (_cache s ++ xs) it').
  unfold __contains__, bind. rewrite H1. simpl. rewrite Hg.
  split; [reflexivity|]. split; [reflexivity|].
  rewrite Z.eqb_eq. split.
  - intros Hx. rewrite Hx, Hwn. apply nth_In. lia.
  - intros Hin. destruct (In_nth _ _ 0 Hin) as [k [Hk Hn]].
    assert (Hik : (Z.to_nat idx <= k)%nat).
    { destruct (Nat.lt_ge_cases k (Z.to_nat idx)) as [Hlt|Hle]; [|assumption].
      specialize (Hbelow k Hlt). lia. }
    assert (Hwx : w <= x) by (rewrite Hwn, <- Hn; apply Hs; lia).
    lia.
Qed.

(** The loop of [insertpos] when the iterator ends below [x]. *)
Lemma insertpos_loop_exhausted (x : Z) (k : nat) : forall fuel c it xs it1 it2,
  produce next_iterator k c it = Some (xs, it1) ->
  Forall (fun y => y < x) xs ->
  next_iterator (c ++ xs) it1 = (Raise StopIteration, it2) ->
  (k < fuel)%nat ->
  insertpos_loop next_iterator fuel x (mk_seq c it)
  = (Raise StopIteration, mk_seq (c ++ xs) it2).
Proof.
  induction k as [|k IH]; intros fuel c it xs it1 it2 Hp Hall Hstop Hf; simpl in Hp.
  - inversion Hp; subst. rewrite app_nil_r in *.
    destruct fuel as [|f]; [lia|]. cbn [insertpos_loop]. unfold __next__. simpl.
    now rewrite Hstop.
  - destruct (next_iterator c it) as [[u| |] it'] eqn:E; try discriminate.
    destruct (produce next_iterator k (c ++ [u]) it') as [[ys it'']|] eqn:E1; try discriminate.
    inversion Hp; subst. destruct fuel as [|f]; [lia|].
    cbn [insertpos_loop]. unfold __next__. simpl. rewrite E.
    inversion Hall as [|? ? Hu Hys]; subst.
    destruct (x >? u) eqn:Ex; [|lia].
    rewrite (IH f (c ++ [u]) it' ys it1 it2 E1 Hys).
    + now rewrite <- app_assoc.
    + now rewrite <- app_assoc.
    + lia.
Qed.

(** Searching for a value above everything a finite sequence holds does not
    answer "absent": [insertpos], [x in s] and [index] all let the
    [StopIteration] of the iterator through, after caching every value. *)
Theorem search_beyond_the_end
    (s : LazySequence Z S) (x : Z) (fuel k : nat) (xs : list Z) (it1 it2 : S) :
  within_cache x s = false ->
  produce next_iterator k (_cache s) (iterator s) = Some (xs, it1) ->
  Forall (fun y => y < x) xs ->
  next_iterator (_cache s ++ xs) it1 = (Raise StopIteration, it2) ->
  (k < fuel)%nat ->
  insertpos next_iterator fuel x s
    = (Raise StopIteration, mk_seq (_cache s ++ xs) it2) /\
  __contains__ next_iterator fuel x s
    = (Raise StopIteration, mk_seq (_cache s ++ xs) it2) /\
  index next_iterator class_name fuel x s
    = (Raise StopIteration, mk_seq (_cache s ++ xs) it2).
Proof.
  intros Hw Hp Hall Hstop Hf.
  assert (H : insertpos next_iterator fuel x s
              = (Raise StopIteration, mk_seq (_cache s ++ xs) it2)).
  { unfold insertpos. rewrite Hw. destruct s as [c it]. simpl in *.
    now rewrite (insertpos_loop_exhausted x k fuel c it xs it1 it2 Hp Hall Hstop Hf). }
  split; [exact H|]. unfold __contains__, index, bind. rewrite H. split; reflexivity.
Qed.

End SortedSearch.

Lemma contains_iff_occurs_witness :
  exists b s',
    __contains__ squares_next 5 9 Squares = (Ok b, s') /\
    snd (insertpos squares_next 5 9 Squares) = s' /\
    (b = true <-> In 9 (_cache Squares ++ [0; 1; 4; 9; 16])).
Proof.
  apply (contains_iff_occurs Z squares_next Squares 9 5 5 [0; 1; 4; 9; 16] 5).
  - apply sortedb_nondecreasing. reflexivity.
  - reflexivity.
  - exists 16. split; [simpl; tauto|lia].
  - lia.
Defined.

Lemma search_beyond_the_end_witness :
  insertpos list_iterator 4 40 (mk_seq [] [10; 20; 30])
    = (Raise StopIteration, mk_seq ([] ++ [10; 20; 30]) []) /\
  __contains__ list_iterator 4 40 (mk_seq [] [10; 20; 30])
    = (Raise StopIteration, mk_seq ([] ++ [10; 20; 30]) []) /\
  index list_iterator "LazySortedSequence" 4 40 (mk_seq [] [10; 20; 30])
    = (Raise StopIteration, mk_seq ([] ++ [10; 20; 30]) []).
Proof.
  apply (search_beyond_the_end (list Z) list_iterator "LazySortedSequence"
           (mk_seq [] [10; 20; 30]) 40 4 3 [10; 20; 30] [] []).
  - reflexivity.
  - reflexivity.
  - repeat constructor.
  - reflexivity.
  - lia.
Defined.

(** ** Iteration yields the sequence in index order *)

Section IterFacts.

Variables T S : Type.
Variable next_iterator : list T -> S -> outcome T * S.

Local Abbreviation at_ := (__getitem_int__ next_iterator).
Local Abbreviation pulled_ := (pulled next_iterator).

Lemma iter_at_pulled (k : nat) (st : iter_state) (s s' : LazySequence T S) (xs : list T) :
  iter_at k st s -> pulled_ s xs s' -> iter_at k st s'.
Proof.
  intros H Hp. destruct st as [j|i|]; simpl in *; try assumption.
  destruct H as [Hj Hk]. split; [assumption|].
  rewrite (pulled_cache _ _ _ _ _ _ Hp), length_app. lia.
Qed.

Lemma iter_index_in_order (k : nat) (s s' : LazySequence T S) (x : T) (st' : iter_state) :
  iter_index next_iterator (Z.of_nat k) s = (Ok x, st', s') ->
  nth_error (_cache s') k = Some x /\ iter_at (Datatypes.S k) st' s' /\
  at_ (Z.of_nat k) s = (Ok x, s').
Proof.
  unfold iter_index. destruct (Z.of_nat k <? INFINITE); [|discriminate].
  destruct (at_ (Z.of_nat k) s) as [[y|e|] s1] eqn:E; try discriminate.
  intros H; inversion H; subst.
  destruct (getitem_int_Ok_inv _ _ _ _ _ _ _ E) as [_ Hn].
  rewrite Nat2Z.id in Hn. split; [assumption|]. split; [simpl; lia|reflexivity].
Qed.

(** The value an iterator yields after [k] others is the value at index [k]
    of the sequence, and what [s[k]] returns; a cached index is answered
    without a pull.  Whatever else is done with the sequence between two
    steps, the iterator keeps its place.  (The generator ends at index
    [sys.maxsize].) *)
Theorem iter_next_in_order (k : nat) (st : iter_state) (s : LazySequence T S) :
  iter_at k st s ->
  (forall x st' s',
     iter_next next_iterator st s = (Ok x, st', s') ->
     nth_error (_cache s') k = Some x /\
     at_ (Z.of_nat k) s = (Ok x, s') /\
     iter_at (Datatypes.S k) st' s') /\
  (forall x, Z.of_nat k < INFINITE -> nth_error (_cache s) k = Some x ->
     exists st', iter_next next_iterator st s = (Ok x, st', s) /\
                 iter_at (Datatypes.S k) st' s) /\
  (forall xs s', pulled_ s xs s' -> iter_at k st s').
Proof.
  intros Hat. split; [|split].
  - intros x st' s' H. destruct st as [j|i|]; simpl in Hat.
    + destruct Hat as [Hj Hk]. subst j. simpl in H.
      destruct (nth_error (_cache s) k) as [y|] eqn:E.
      * inversion H; subst. split; [assumption|]. split.
        { apply getitem_int_nth_error; [lia|]. now rewrite Nat2Z.id. }
        simpl. split; [reflexivity|].
        assert (k < List.length (_cache s'))%nat by (apply nth_error_Some; congruence). lia.
      * apply nth_error_None in E.
        assert (Hsz : size s = Z.of_nat k) by (unfold size; f_equal; lia).
        rewrite Hsz in H.
        destruct (iter_index_in_order k s s' x st' H) as [H1 [H2 H3]]. auto.
    + subst i. simpl in H.
      destruct (iter_index_in_order k s s' x st' H) as [H1 [H2 H3]]. auto.
    + destruct Hat.
  - intros x Hinf' Hx.
    assert (Hlt : (k < List.length (_cache s))%nat) by (apply nth_error_Some; congruence).
    destruct st as [j|i|]; simpl in Hat.
    + destruct Hat as [Hj Hk]. subst j. exists (IterCache (Datatypes.S k)).
      simpl. rewrite Hx. split; [reflexivity|]. split; [reflexivity|lia].
    + subst i. exists (IterIndex (Z.of_nat k + 1)). simpl. unfold iter_index.
      assert (Hinf : (Z.of_nat k <? INFINITE) = true) by now apply Z.ltb_lt.
      rewrite Hinf.
      rewrite (getitem_int_nth_error _ _ next_iterator (Z.of_nat k) s x);
        [|lia|now rewrite Nat2Z.id].
      split; [reflexivity|]. simpl. lia.
    + destruct Hat.
  - intros xs s' Hp. eapply iter_at_pulled; eauto.
Qed.

End IterFacts.

Lemma iter_next_in_order_witness :
  (forall x st' s',
     iter_next squares_next (IterCache 0) Squares = (Ok x, st', s') ->
     nth_error (_cache s') 0 = Some x /\
     __getitem_int__ squares_next (Z.of_nat 0) Squares = (Ok x, s') /\
     iter_at 1 st' s') /\
  (forall x, Z.of_nat 0 < INFINITE -> nth_error (_cache Squares) 0 = Some x ->
     exists st', iter_next squares_next (IterCache 0) Squares = (Ok x, st', Squares) /\
                 iter_at 1 st' Squares) /\
  (forall xs s', pulled squares_next Squares xs s' -> iter_at 0 (IterCache 0) s').
Proof.
  apply (iter_next_in_order Z Z squares_next 0 (IterCache 0) Squares).
  simpl. split; [reflexivity|lia].
Defined.

(** ** Prime numbers on [Z] *)

Lemma is_prime_2 : is_prime 2.
Proof. split; [lia|]. intros d Hd. lia. Qed.

Lemma is_prime_3 : is_prime 3.
Proof.
  split; [lia|]. intros d Hd [k Hk]. assert (d = 2) by lia. subst. lia.
Qed.

Lemma is_prime_gt_1 (p : Z) : is_prime p -> 1 < p.
Proof. intros [H _]. exact H. Qed.

Lemma is_prime_odd (p : Z) : is_prime p -> 2 < p -> p mod 2 = 1.
Proof.
  intros [Hp Hd] H2.
  assert (Hm : p mod 2 = 0 \/ p mod 2 = 1).
  { pose proof (Z.mod_pos_bound p 2). lia. }
  destruct Hm as [Hm|Hm]; [|assumption].
  exfalso. apply (Hd 2); [lia|]. apply Z.mod_divide; [lia|assumption].
Qed.

(** A proper divisor above 1 rules primality out. *)
Lemma not_prime_divisor (n d : Z) : 1 < d < n -> (d | n) -> ~ is_prime n.
Proof. intros Hd Hdiv [_ H]. exact (H d Hd Hdiv). Qed.

(** A divisor of a prime that is itself prime is that prime. *)
Lemma prime_divisor_eq (p q : Z) : is_prime p -> is_prime q -> (q | p) -> q = p.
Proof.
  intros [Hp Hpd] [Hq _] Hdiv.
  assert (Hle : q <= p) by (apply Z.divide_pos_le; [lia|assumption]).
  destruct (Z.eq_dec q p) as [|Hne]; [assumption|].
  exfalso. apply (Hpd q); [lia|assumption].
Qed.

Lemma square_not_prime (p : Z) : 1 < p -> ~ is_prime (p * p).
Proof.
  intros Hp. apply (not_prime_divisor (p * p) p); [nia|]. exists p. reflexivity.
Qed.

Lemma even_not_prime (n : Z) : 2 < n -> n mod 2 = 0 -> ~ is_prime n.
Proof.
  intros Hn Hm. apply (not_prime_divisor n 2); [lia|].
  apply Z.mod_divide; [lia|assumption].
Qed.

(** ** Trial division against the cached primes *)

Lemma islice_list_In {T : Type} (l : list T) (a b : nat) (d dflt : T) :
  In d (firstn a (skipn b l)) <->
  exists i : nat, (b <= i < b + a)%nat /\ (i < List.length l)%nat /\ nth i l dflt = d.
Proof.
  split.
  - intros Hin. destruct (In_nth _ _ dflt Hin) as [j [Hj Hn]].
    rewrite length_firstn, length_skipn in Hj.
    rewrite nth_firstn in Hn.
    destruct (j <? a)%nat eqn:E; [|apply Nat.ltb_ge in E; lia].
    apply Nat.ltb_lt in E. rewrite nth_skipn in Hn.
    exists (b + j)%nat. repeat split; try lia. exact Hn.
  - intros [i [Hi [Hlen Hn]]].
    assert (Hj : nth (i - b) (firstn a (skipn b l)) dflt = d).
    { rewrite nth_firstn.
      destruct (i - b <? a)%nat eqn:E; [|apply Nat.ltb_ge in E; lia].
      rewrite nth_skipn. replace (b + (i - b))%nat with i by lia. exact Hn. }
    rewrite <- Hj. apply nth_In. rewrite length_firstn, length_skipn. lia.
Qed.

(** With no zero among the divisors, [any_divides] is a plain search. *)
Lemma any_divides_spec (n : Z) (ds : list Z) :
  (forall d, In d ds -> d <> 0) ->
  (any_divides n ds = Ok true /\ exists d, In d ds /\ (d | n)) \/
  (any_divides n ds = Ok false /\ forall d, In d ds -> ~ (d | n)).
Proof.
  induction ds as [|d ds IH]; intros Hnz.
  - right. split; [reflexivity|]. intros d [].
  - simpl. assert (Hd : d <> 0) by (apply Hnz; left; reflexivity).
    destruct (d =? 0) eqn:E; [apply Z.eqb_eq in E; contradiction|].
    destruct (n mod d =? 0) eqn:Em.
    + left. split; [reflexivity|]. exists d. split; [left; reflexivity|].
      apply Z.mod_divide; [assumption|]. now apply Z.eqb_eq.
    + apply Z.eqb_neq in Em.
      destruct IH as [[H1 [e [He1 He2]]]|[H1 H2]].
      * intros e He. apply Hnz. right. exact He.
      * left. split; [assumption|]. exists e. split; [right; assumption|assumption].
      * right. split; [assumption|]. intros e [He|He].
        { subst e. intros Hdiv. apply Em. apply Z.mod_divide; assumption. }
        { now apply H2. }
Qed.

Lemma increasing_app_l (l1 l2 : list Z) : increasing (l1 ++ l2) -> increasing l1.
Proof.
  intros H i j Hij. specialize (H i j). rewrite length_app in H.
  rewrite !app_nth1 in H by lia. apply H. lia.
Qed.

Lemma increasing_le (l : list Z) (i j : nat) :
  increasing l -> (i <= j < List.length l)%nat -> nth i l 0 <= nth j l 0.
Proof.
  intros H Hij. destruct (Nat.eq_dec i j) as [->|Hne]; [lia|].
  assert (nth i l 0 < nth j l 0) by (apply H; lia). lia.
Qed.

(** In an increasing list the index of a value follows its rank. *)
Lemma increasing_index_lt (l : list Z) (i j : nat) :
  increasing l -> (i < List.length l)%nat -> (j < List.length l)%nat ->
  nth i l 0 < nth j l 0 -> (i < j)%nat.
Proof.
  intros H Hi Hj Hlt. destruct (Nat.lt_ge_cases i j) as [|Hge]; [assumption|].
  assert (nth j l 0 <= nth i l 0) by (apply increasing_le; [assumption|lia]). lia.
Qed.

Lemma prime_prefix_length (c : list Z) :
  prime_prefix c -> (2 <= List.length c)%nat /\ nth 0 c 0 = 2 /\ nth 1 c 0 = 3.
Proof.
  intros [[rest Hc] _]. subst c. simpl. repeat split. lia.
Qed.

Lemma prime_prefix_last_ge_3 (c : list Z) : prime_prefix c -> 3 <= last_of c.
Proof.
  intros Hpp. destruct (prime_prefix_length c Hpp) as [Hlen [_ H1]].
  destruct Hpp as [_ [Hinc _]]. unfold last_of. rewrite <- H1.
  apply increasing_le; [assumption|lia].
Qed.

Lemma prime_prefix_le_last (c : list Z) (p : Z) :
  prime_prefix c -> In p c -> p <= last_of c.
Proof.
  intros Hpp Hin. destruct (prime_prefix_length c Hpp) as [Hlen _].
  destruct Hpp as [_ [Hinc _]].
  destruct (In_nth _ _ 0 Hin) as [i [Hi Hn]]. rewrite <- Hn. unfold last_of.
  apply increasing_le; [assumption|lia].
Qed.

Lemma islice_list_In_cache (c : list Z) (top d : Z) :
  In d (islice_list c 1 top) <->
  exists i : nat, (1 <= i)%nat /\ Z.of_nat i < top /\ (i < List.length c)%nat /\ nth i c 0 = d.
Proof.
  unfold islice_list. rewrite (islice_list_In c _ _ d 0).
  split.
  - intros [i [Hr [Hl Hn]]]. exists i.
    split; [lia|]. split; [lia|]. split; [exact Hl|exact Hn].
  - intros [i [Hr [Ht [Hl Hn]]]]. exists i.
    split; [lia|]. split; [exact Hl|exact Hn].
Qed.

Lemma scan_inv_top_prime (c : list Z) (top stop n : Z) :
  scan_inv c top stop n ->
  is_prime (nth (Z.to_nat top) c 0) /\ 3 <= nth (Z.to_nat top) c 0 /\
  nth (Z.to_nat top) c 0 <= last_of c.
Proof.
  intros [Hpp [Htop _]].
  destruct (prime_prefix_length c Hpp) as [Hlen [_ H1]].
  destruct Hpp as [_ [Hinc [Hpr _]]].
  split; [apply Hpr, nth_In; lia|]. split.
  - rewrite <- H1. apply increasing_le; [assumption|lia].
  - unfold last_of. apply increasing_le; [assumption|lia].
Qed.

(** Below [stop], dividing by the odd primes under [c[top]] tells whether
    the candidate is prime. *)
Lemma trial_division_decides (c : list Z) (top stop n : Z) :
  scan_inv c top stop n -> n < stop ->
  (any_divides n (islice_list c 1 top) = Ok false /\ is_prime n) \/
  (any_divides n (islice_list c 1 top) = Ok true /\ ~ is_prime n).
Proof.
  intros Hinv Hlt.
  destruct (scan_inv_top_prime _ _ _ _ Hinv) as [Hpt [Hpt3 Hptl]].
  destruct Hinv as [Hpp [Htop [Hstop [Hn [Hodd Hmin]]]]].
  destruct (prime_prefix_length c Hpp) as [Hlen [H0 H1]].
  pose proof Hpp as [_ [Hinc [Hpr Hall]]].
  destruct (any_divides_spec n (islice_list c 1 top)) as [[Hr [d [Hin Hdiv]]]|[Hr Hno]].
  - intros d Hin. apply islice_list_In_cache in Hin.
    destruct Hin as [i [_ [_ [Hi Hd]]]].
    assert (Hdp : is_prime d) by (apply Hpr; rewrite <- Hd; now apply nth_In).
    pose proof (is_prime_gt_1 d Hdp). lia.
  - right. split; [assumption|].
    apply islice_list_In_cache in Hin. destruct Hin as [i [Hi1 [Hi2 [Hi3 Hd]]]].
    assert (Hdp : is_prime d) by (apply Hpr; rewrite <- Hd; now apply nth_In).
    assert (Hdl : d < nth (Z.to_nat top) c 0) by (rewrite <- Hd; apply Hinc; lia).
    apply (not_prime_divisor n d); [|assumption].
    pose proof (is_prime_gt_1 d Hdp). lia.
  - left. split; [assumption|].
    destruct (NT.is_prime_decidable n) as [|Hnp]; [assumption|exfalso].
    destruct (NT.small_prime_factor n) as [q [Hq [Hqd Hqq]]]; [lia|assumption|].
    pose proof (is_prime_gt_1 q Hq) as Hq1.
    assert (Hqt : q < nth (Z.to_nat top) c 0).
    { rewrite Hstop, Z.pow_2_r in Hlt. nia. }
    assert (Hqin : In q c) by (apply Hall; [assumption|lia]).
    destruct (In_nth _ _ 0 Hqin) as [j [Hj Hjq]].
    assert (Hjt : (j < Z.to_nat top)%nat).
    { apply (increasing_index_lt c); [assumption|assumption|lia|lia]. }
    destruct j as [|j].
    + rewrite H0 in Hjq. subst q.
      apply Z.mod_divide in Hqd; lia.
    + apply (Hno q); [|assumption]. apply islice_list_In_cache.
      exists (Datatypes.S j).
      split; [lia|]. split; [lia|]. split; [exact Hj|exact Hjq].
Qed.

(** ** The loops of [__genprimes] *)

Lemma odd_square (p : Z) : p mod 2 = 1 -> (p ^ 2) mod 2 = 1.
Proof.
  intros Hp. rewrite Z.pow_2_r, Z.mul_mod by lia. rewrite Hp. reflexivity.
Qed.

Lemma odd_lt_add2 (a b : Z) : a mod 2 = 1 -> b mod 2 = 1 -> a < b -> a + 2 <= b.
Proof.
  intros Ha Hb Hlt. pose proof (Z.div_mod a 2). pose proof (Z.div_mod b 2). lia.
Qed.

Lemma odd_add2 (a : Z) : a mod 2 = 1 -> (a + 2) mod 2 = 1.
Proof.
  intros Ha. replace (a + 2) with (a + 1 * 2) by lia. now rewrite Z.mod_add by lia.
Qed.

Lemma scan_inv_stop_odd (c : list Z) (top stop n : Z) :
  scan_inv c top stop n -> stop mod 2 = 1 /\ ~ is_prime stop.
Proof.
  intros Hinv. destruct (scan_inv_top_prime _ _ _ _ Hinv) as [Hpt [Hpt3 _]].
  destruct Hinv as [_ [_ [Hstop _]]]. subst stop. split.
  - apply odd_square. apply is_prime_odd; [assumption|lia].
  - rewrite Z.pow_2_r. apply square_not_prime. lia.
Qed.

(** A candidate that is not prime: the loop goes on with the next odd
    number. *)
Lemma scan_inv_next (c : list Z) (top stop n : Z) :
  scan_inv c top stop n -> n < stop -> ~ is_prime n -> scan_inv c top stop (n + 2).
Proof.
  intros Hinv Hlt Hnp. destruct (scan_inv_stop_odd _ _ _ _ Hinv) as [Hso _].
  destruct Hinv as [Hpp [Htop [Hstop [Hn [Hodd Hmin]]]]].
  pose proof (prime_prefix_last_ge_3 c Hpp) as Hl3.
  split; [assumption|]. split; [assumption|]. split; [assumption|].
  split; [pose proof (odd_lt_add2 n stop Hodd Hso Hlt); lia|].
  split; [now apply odd_add2|].
  intros q Hq Hql. pose proof (Hmin q Hq Hql) as Hle.
  assert (Hqn : n < q).
  { destruct (Z.eq_dec q n) as [->|]; [contradiction|lia]. }
  apply odd_lt_add2; [assumption|apply is_prime_odd; [assumption|lia]|assumption].
Qed.

(** At the end of a segment the cache already holds [c[top + 1]]: there is
    a prime between [c[top]] and its square. *)
Lemma scan_inv_segment (c : list Z) (top stop n : Z) :
  scan_inv c top stop n -> ~ n < stop ->
  exists p, list_getitem c (top + 1) = Ok p /\ scan_inv c (top + 1) (p ^ 2) (stop + 2).
Proof.
  intros Hinv Hge.
  destruct (scan_inv_stop_odd _ _ _ _ Hinv) as [Hso Hsnp].
  destruct (scan_inv_top_prime _ _ _ _ Hinv) as [Hpt [Hpt3 Hptl]].
  pose proof Hinv as [Hpp [Htop [Hstop [Hn [Hodd Hmin]]]]].
  pose proof Hpp as [_ [Hinc [Hpr Hall]]].
  assert (Hns : n = stop) by lia.
  destruct (NT.prime_between_square_Z (nth (Z.to_nat top) c 0)) as [q [Hq Hqb]]; [lia|].
  assert (Hql : q <= last_of c).
  { destruct (Z_le_gt_dec q (last_of c)) as [|Hgt]; [assumption|].
    assert (n <= q) by (apply Hmin; [assumption|lia]).
    rewrite Hstop, Z.pow_2_r in Hns. lia. }
  destruct (In_nth _ _ 0 (Hall q Hq Hql)) as [j [Hj Hjq]].
  assert (Htj : (Z.to_nat top < j)%nat).
  { apply (increasing_index_lt c); [assumption|lia|assumption|lia]. }
  destruct (list_getitem_in_range c (top + 1)) as [p [Hp Hg]]; [lia|].
  exists p. split; [assumption|].
  assert (Hpn : nth (Z.to_nat (top + 1)) c 0 = p) by (now apply nth_error_nth).
  assert (Hpgt : nth (Z.to_nat top) c 0 < p).
  { rewrite <- Hpn. apply Hinc. lia. }
  split; [assumption|]. split; [lia|]. split; [now rewrite Hpn|].
  split; [rewrite Z.pow_2_r; rewrite Hstop, Z.pow_2_r in *; nia|].
  split; [now apply odd_add2|].
  intros r Hr Hrl. pose proof (Hmin r Hr Hrl) as Hle.
  assert (Hrs : stop < r).
  { destruct (Z.eq_dec r stop) as [->|]; [contradiction|lia]. }
  apply odd_lt_add2; [assumption|apply is_prime_odd; [assumption|lia]|assumption].
Qed.

(** The loops from candidate [n] on: with the fuel spent no prime was within
    reach; otherwise they stop at the least prime above the cache, in a
    segment the cache covers. *)
Lemma scan_spec (fuel : nat) : forall (c : list Z) (top stop n : Z),
  scan_inv c top stop n ->
  (Primes.scan fuel c top stop n = Timeout /\
   forall q, is_prime q -> last_of c < q -> Z.of_nat fuel <= q - n) \/
  (exists top' stop' n',
     Primes.scan fuel c top stop n = Ok (top', stop', n') /\
     next_prime c n' /\
     1 <= top' < Z.of_nat (List.length c) /\
     stop' = nth (Z.to_nat top') c 0 ^ 2 /\ n' < stop').
Proof.
  induction fuel as [|f IH]; intros c top stop n Hinv.
  - left. split; [reflexivity|]. intros q Hq Hql.
    destruct Hinv as [_ [_ [_ [_ [_ Hmin]]]]]. specialize (Hmin q Hq Hql). lia.
  - cbn [Primes.scan]. destruct (n <? stop) eqn:E.
    + apply Z.ltb_lt in E.
      destruct (trial_division_decides c top stop n Hinv E) as [[Hr Hp]|[Hr Hnp]];
        rewrite Hr.
      * right. exists top, stop, n. split; [reflexivity|].
        destruct Hinv as [Hpp [Htop [Hstop [Hn [Hodd Hmin]]]]].
        split; [split; [assumption|split; [lia|assumption]]|].
        split; [assumption|]. split; [assumption|lia].
      * destruct (IH c top stop (n + 2) (scan_inv_next _ _ _ _ Hinv E Hnp))
          as [[Ht Hb]|Hok].
        { left. split; [assumption|]. intros q Hq Hql. specialize (Hb q Hq Hql). lia. }
        { right. exact Hok. }
    + apply Z.ltb_ge in E.
      destruct (scan_inv_segment c top stop n Hinv) as [p [Hg Hinv']]; [lia|].
      rewrite Hg.
      destruct (IH c (top + 1) (p ^ 2) (stop + 2) Hinv') as [[Ht Hb]|Hok].
      { left. split; [assumption|]. intros q Hq Hql. specialize (Hb q Hq Hql).
        destruct Hinv as [_ [_ [_ [Hn _]]]]. lia. }
      { right. exact Hok. }
Qed.

(** ** The cache of [primes] *)

Lemma last_of_snoc (c : list Z) (n : Z) : last_of (c ++ [n]) = n.
Proof.
  unfold last_of. rewrite length_app. simpl.
  replace (List.length c + 1 - 1)%nat with (List.length c) by lia.
  rewrite app_nth2 by lia. now rewrite Nat.sub_diag.
Qed.

Lemma increasing_snoc (c : list Z) (n : Z) :
  (0 < List.length c)%nat -> increasing c -> last_of c < n -> increasing (c ++ [n]).
Proof.
  intros Hlen Hinc Hn i j Hij. rewrite length_app in Hij. simpl in Hij.
  destruct (Nat.eq_dec j (List.length c)) as [->|Hj].
  - rewrite (app_nth2 c [n] 0 (n := List.length c)) by lia. rewrite Nat.sub_diag. simpl.
    rewrite app_nth1 by lia.
    assert (nth i c 0 <= last_of c) by (apply increasing_le; [assumption|lia]). lia.
  - rewrite !app_nth1 by lia. apply Hinc. lia.
Qed.

(** Appending the least prime above it keeps the cache a list of all the
    primes up to its last value. *)
Lemma prime_prefix_snoc (c : list Z) (n : Z) :
  prime_prefix c -> next_prime c n -> prime_prefix (c ++ [n]).
Proof.
  intros Hpp [Hn [Hl Hmin]]. destruct (prime_prefix_length c Hpp) as [Hlen _].
  destruct Hpp as [[rest Hc] [Hinc [Hpr Hall]]].
  split; [exists (rest ++ [n]); now rewrite Hc|].
  split; [apply increasing_snoc; [lia|assumption|assumption]|].
  split.
  - intros p Hin. apply in_app_or in Hin. destruct Hin as [Hin|[<-|[]]]; [now apply Hpr|assumption].
  - intros p Hp Hle. rewrite last_of_snoc in Hle. apply in_or_app.
    destruct (Z_le_gt_dec p (last_of c)) as [Hpl|Hpl]; [left; now apply Hall|].
    right. left. specialize (Hmin p Hp). lia.
Qed.

Lemma prime_prefix_seed : prime_prefix [2; 3].
Proof.
  split; [exists []; reflexivity|]. split.
  - intros i j Hij. simpl in Hij.
    assert (Hi : i = 0%nat) by lia. assert (Hj : j = 1%nat) by lia. subst. simpl. lia.
  - split.
    + intros p [<-|[<-|[]]]; [apply is_prime_2|apply is_prime_3].
    + intros p Hp Hle. unfold last_of in Hle. simpl in Hle.
      pose proof (is_prime_gt_1 p Hp). assert (Hc : p = 2 \/ p = 3) by lia.
      destruct Hc as [->| ->]; simpl; auto.
Qed.

(** Where the generator resumes, the invariant of its loops holds. *)
Lemma gen_ok_scan_inv (c : list Z) (top stop n : Z) :
  prime_prefix c -> gen_ok c (Primes.GenYield top stop n) -> scan_inv c top stop (n + 2).
Proof.
  intros Hpp [Htop [Hstop [Hn Hlt]]].
  pose proof (prime_prefix_last_ge_3 c Hpp) as Hl3.
  destruct (prime_prefix_length c Hpp) as [Hlen [_ H1]].
  pose proof Hpp as [_ [Hinc [Hpr Hall]]].
  assert (Hlp : is_prime (last_of c)) by (apply Hpr, nth_In; lia).
  assert (Hlo : last_of c mod 2 = 1) by (apply is_prime_odd; [assumption|lia]).
  assert (Hpt : is_prime (nth (Z.to_nat top) c 0)) by (apply Hpr, nth_In; lia).
  assert (Hpt3 : 3 <= nth (Z.to_nat top) c 0).
  { rewrite <- H1. apply increasing_le; [assumption|lia]. }
  assert (Hso : stop mod 2 = 1).
  { rewrite Hstop. apply odd_square. apply is_prime_odd; [assumption|lia]. }
  subst n. split; [assumption|]. split; [assumption|]. split; [assumption|].
  split; [pose proof (odd_lt_add2 _ _ Hlo Hso Hlt); lia|].
  split; [now apply odd_add2|].
  intros q Hq Hql. apply odd_lt_add2; [assumption|apply is_prime_odd; [assumption|lia]|assumption].
Qed.

Lemma seed_scan_inv : scan_inv [2; 3] 1 (3 ^ 2) 5.
Proof.
  split; [apply prime_prefix_seed|]. split; [simpl; lia|]. split; [reflexivity|].
  unfold last_of. simpl. split; [lia|]. split; [reflexivity|].
  intros q Hq Hql.
  assert (Hq4 : q <> 4).
  { intros ->. apply (even_not_prime 4); [lia|reflexivity|assumption]. }
  lia.
Qed.

Lemma resume_scan (fuel : nat) (c : list Z) (g : Primes.gen_state) (top stop n : Z) :
  prime_prefix c -> scan_inv c top stop n ->
  (Primes.resume g (Primes.scan fuel c top stop n) = (Timeout, g) /\
   forall q, is_prime q -> last_of c < q -> Z.of_nat fuel <= q - n) \/
  (exists n' g', Primes.resume g (Primes.scan fuel c top stop n) = (Ok n', g') /\
     next_prime c n' /\ prime_prefix (c ++ [n']) /\ gen_ok (c ++ [n']) g').
Proof.
  intros Hpp Hinv.
  destruct (scan_spec fuel c top stop n Hinv)
    as [[Ht Hb]|[top' [stop' [n' [Hs [Hnp [Htop [Hstop Hlt]]]]]]]]; rewrite ?Ht, ?Hs.
  - left. split; [reflexivity|assumption].
  - right. exists n', (Primes.GenYield top' stop' n'). split; [reflexivity|].
    split; [assumption|]. split; [now apply prime_prefix_snoc|].
    split; [rewrite length_app; simpl; lia|].
    split; [rewrite app_nth1 by lia; assumption|].
    split; [now rewrite last_of_snoc|assumption].
Qed.

(** One pull of the generator in a good state: the fuel runs out, and then
    every prime above the cache is at least that far away, or it yields the
    least prime above the cache and is left in a good state. *)
Lemma genprimes_step (fuel : nat) (s : LazySequence Z Primes.gen_state) :
  primes_ok s ->
  (Primes.__genprimes fuel (_cache s) (iterator s) = (Timeout, iterator s) /\
   forall q, is_prime q -> last_of (_cache s) < q ->
             Z.of_nat fuel <= q - (last_of (_cache s) + 2)) \/
  (exists n g', Primes.__genprimes fuel (_cache s) (iterator s) = (Ok n, g') /\
     next_prime (_cache s) n /\ primes_ok (mk_seq (_cache s ++ [n]) g')).
Proof.
  destruct s as [c g]. intros [Hpp Hg]. simpl in *.
  destruct g as [|top stop n|]; [| |contradiction].
  - simpl in Hg. subst c. cbn [Primes.__genprimes].
    change (list_getitem [2; 3] 1) with (Ok (A := Z) 3).
    destruct (resume_scan fuel [2; 3] Primes.GenStart 1 (3 ^ 2) 5 Hpp seed_scan_inv)
      as [[Ht Hb]|[n' [g' [Hr [Hnp [Hpp' Hg']]]]]].
    + left. split; [assumption|]. exact Hb.
    + right. exists n', g'. split; [assumption|]. split; [assumption|]. split; assumption.
  - cbn [Primes.__genprimes].
    pose proof (gen_ok_scan_inv c top stop n Hpp Hg) as Hinv.
    assert (Hn : n = last_of c) by (destruct Hg as [_ [_ [Hn _]]]; exact Hn).
    destruct (resume_scan fuel c (Primes.GenYield top stop n) top stop (n + 2) Hpp Hinv)
      as [[Ht Hb]|[n' [g' [Hr [Hnp [Hpp' Hg']]]]]].
    + left. split; [assumption|]. intros q Hq Hql. rewrite <- Hn. apply Hb; assumption.
    + right. exists n', g'. split; [assumption|]. split; [assumption|]. split; assumption.
Qed.

(** Pulls keep the state good, whatever fuel each had. *)
Lemma pulled_primes_ok (fuel : nat) (s s' : LazySequence Z Primes.gen_state) (xs : list Z) :
  pulled (Primes.__genprimes fuel) s xs s' -> primes_ok s -> primes_ok s'.
Proof.
  induction 1 as [s|s x it xs s' Hn Hp IH|s o it xs s' Hn Ho Hp IH]; intros Hok.
  - assumption.
  - apply IH. destruct (genprimes_step fuel s Hok) as [[Ht _]|[n [g' [Hr [_ Hok']]]]];
      [congruence|].
    rewrite Hr in Hn. inversion Hn; subst. assumption.
  - apply IH. destruct (genprimes_step fuel s Hok) as [[Ht _]|[n [g' [Hr [_ Hok']]]]].
    + rewrite Ht in Hn. inversion Hn; subst. destruct s; assumption.
    + rewrite Hr in Hn. inversion Hn; subst. exfalso. now apply (Ho n).
Qed.

Lemma primes_contains_state (fuel : nat) (n : Z) (s : LazySequence Z Primes.gen_state) :
  snd (Primes.__contains__ fuel n s) = s.
Proof.
  unfold Primes.__contains__.
  destruct (last s) as [l|] eqn:El; [|reflexivity].
  destruct (n <=? l) eqn:En.
  - apply Z.leb_le in En.
    rewrite contains_within_cache by (eapply within_cache_last; eauto). reflexivity.
  - destruct (n <? 0); [reflexivity|]. unfold bind.
    destruct (Z.sqrt n >? l) eqn:Er.
    + unfold ret. apply trial_divisions_end.
    + assert (Hr : Z.sqrt n <= l) by lia.
      unfold insertpos. rewrite (within_cache_last _ _ _ El Hr).
      apply trial_divisions_end.
Qed.

Lemma reachable_primes_ok (s : LazySequence Z Primes.gen_state) :
  reachable s -> primes_ok s.
Proof.
  induction 1 as [|s fuel o Hr IH|s fuel n Hr IH].
  - split; [apply prime_prefix_seed|reflexivity].
  - destruct (exec_pulled Primes.gen_state (Primes.__genprimes fuel) "Primes" o s) as [xs Hp].
    exact (pulled_primes_ok fuel _ _ _ Hp IH).
  - unfold isprime. now rewrite primes_contains_state.
Qed.

(** X5: in every state [primes] can be in, the cache starts with 2 and 3,
    is strictly increasing, and holds exactly the primes up to its last
    value. *)
Theorem cache_holds_the_primes (s : LazySequence Z Primes.gen_state) :
  reachable s ->
  (exists rest, _cache s = 2 :: 3 :: rest) /\
  increasing (_cache s) /\
  (forall p, In p (_cache s) <-> is_prime p /\ p <= last_of (_cache s)).
Proof.
  intros Hr. destruct (reachable_primes_ok s Hr) as [Hpp _].
  pose proof Hpp as [Hseed [Hinc [Hpr Hall]]].
  split; [assumption|]. split; [assumption|].
  intros p. split.
  - intros Hin. split; [now apply Hpr|now apply prime_prefix_le_last].
  - intros [Hp Hle]. now apply Hall.
Qed.

Lemma cache_holds_the_primes_witness :
  (exists rest,
     _cache (exec (Primes.__genprimes 20) "Primes" (OpGetitem 30) primes) = 2 :: 3 :: rest) /\
  increasing (_cache (exec (Primes.__genprimes 20) "Primes" (OpGetitem 30) primes)) /\
  (forall p, In p (_cache (exec (Primes.__genprimes 20) "Primes" (OpGetitem 30) primes)) <->
             is_prime p /\
             p <= last_of (_cache (exec (Primes.__genprimes 20) "Primes" (OpGetitem 30) primes))).
Proof.
  apply (cache_holds_the_primes (exec (Primes.__genprimes 20) "Primes" (OpGetitem 30) primes)).
  apply reach_exec. apply reach_init.
Defined.

(** X6: [next(primes)], in any state [primes] can be in and with fuel for
    the square of the last cached prime, returns the least prime above the
    cache and appends it. *)
Theorem next_yields_next_prime (fuel : nat) (s : LazySequence Z Primes.gen_state) :
  reachable s ->
  last_of (_cache s) ^ 2 <= Z.of_nat fuel ->
  exists n g,
    __next__ (Primes.__genprimes fuel) s = (Ok n, mk_seq (_cache s ++ [n]) g) /\
    is_prime n /\ last_of (_cache s) < n /\
    (forall q, is_prime q -> last_of (_cache s) < q -> n <= q).
Proof.
  intros Hr Hfuel. pose proof (reachable_primes_ok s Hr) as Hok.
  pose proof (prime_prefix_last_ge_3 _ (proj1 Hok)) as Hl3.
  unfold __next__.
  destruct (genprimes_step fuel s Hok) as [[Ht Hb]|[n [g' [Hg [[Hn [Hl Hmin]] _]]]]].
  - exfalso.
    destruct (NT.prime_between_square_Z (last_of (_cache s))) as [q [Hq Hqb]]; [lia|].
    specialize (Hb q Hq (proj1 Hqb)). rewrite Z.pow_2_r in Hfuel. lia.
  - rewrite Hg. exists n, g'. split; [reflexivity|].
    split; [assumption|]. split; assumption.
Qed.

Lemma next_yields_next_prime_witness :
  exists n g,
    __next__ (Primes.__genprimes 9) primes = (Ok n, mk_seq (_cache primes ++ [n]) g) /\
    is_prime n /\ last_of (_cache primes) < n /\
    (forall q, is_prime q -> last_of (_cache primes) < q -> n <= q).
Proof.
  apply (next_yields_next_prime 9 primes).
  - apply reach_init.
  - unfold last_of. simpl. lia.
Defined.

(** ** [Primes.__contains__] *)

Lemma last_last_of {S : Type} (s : LazySequence Z S) :
  (0 < List.length (_cache s))%nat -> last s = Some (last_of (_cache s)).
Proof.
  intros Hlen. unfold last, size, last_of.
  destruct (0 <? Z.of_nat (List.length (_cache s))) eqn:E; [|apply Z.ltb_ge in E; lia].
  apply nth_error_nth'. lia.
Qed.

Lemma increasing_nondecreasing (l : list Z) : increasing l -> nondecreasing l.
Proof. intros H i j Hij. now apply increasing_le. Qed.

(** The values of [range(a, b, 2)]. *)
Lemma range_elems_step2_In (a b d : Z) :
  In d (range_elems (mk_range a b 2)) <-> a <= d < b /\ exists k, d = a + 2 * k.
Proof.
  unfold range_elems, range_len. cbn [r_start r_stop r_step].
  change (0 <? 2) with true. cbv iota.
  rewrite in_map_iff. split.
  - intros [k [Hk Hin]]. apply in_seq in Hin.
    destruct (a <? b) eqn:E; [|simpl in Hin; lia].
    apply Z.ltb_lt in E.
    pose proof (Z.div_mod (b - a - 1) 2) as Hdm.
    pose proof (Z.mod_pos_bound (b - a - 1) 2) as Hmb.
    split; [lia|]. exists (Z.of_nat k). lia.
  - intros [Hd [k Hk]]. exists (Z.to_nat k).
    destruct (a <? b) eqn:E; [|apply Z.ltb_ge in E; lia].
    pose proof (Z.div_mod (b - a - 1) 2) as Hdm.
    pose proof (Z.mod_pos_bound (b - a - 1) 2) as Hmb.
    split; [lia|]. apply in_seq. lia.
Qed.

(** The cached values from index 1 up to [top]: the odd primes of the cache
    below [bound], when [top] splits the cache at [bound]. *)
Lemma islice_cached_primes (c : list Z) (top : nat) (bound d : Z) :
  prime_prefix c ->
  (top <= List.length c)%nat ->
  (forall i : nat, (i < top)%nat -> nth i c 0 < bound) ->
  (forall i : nat, (top <= i < List.length c)%nat -> bound <= nth i c 0) ->
  In d (islice_list c 1 (Z.of_nat top)) <->
  is_prime d /\ 2 < d <= last_of c /\ d < bound.
Proof.
  intros Hpp Htop Hlow Hhigh.
  destruct (prime_prefix_length c Hpp) as [Hlen [H0 H1]].
  pose proof Hpp as [_ [Hinc [Hpr Hall]]].
  rewrite islice_list_In_cache. split.
  - intros [i [Hi1 [Hi2 [Hi3 Hd]]]].
    assert (Hin : In d c) by (rewrite <- Hd; now apply nth_In).
    split; [now apply Hpr|]. split; [split|].
    + rewrite <- Hd. assert (nth 1 c 0 <= nth i c 0) by (apply increasing_le; [assumption|lia]).
      lia.
    + now apply prime_prefix_le_last.
    + rewrite <- Hd. apply Hlow. lia.
  - intros [Hd [[Hd2 Hdl] Hdb]].
    destruct (In_nth _ _ 0 (Hall d Hd Hdl)) as [j [Hj Hjd]].
    exists j.
    assert (Hj1 : (1 <= j)%nat).
    { destruct j; [rewrite H0 in Hjd; lia|lia]. }
    assert (Hjt : (j < top)%nat).
    { destruct (Nat.lt_ge_cases j top) as [|Hge]; [assumption|].
      assert (bound <= nth j c 0) by (apply Hhigh; lia). lia. }
    split; [assumption|]. split; [lia|]. split; assumption.
Qed.

(** The two trial divisions of [Primes.__contains__] for [n] above the
    cache: the answer is [False] exactly when [n] has an odd divisor that is
    a cached prime below [isqrt(n)], or lies above the cache and is at most
    [isqrt(n)]. *)
Lemma trial_divisions_spec (n : Z) (top : nat) (s : LazySequence Z Primes.gen_state) :
  prime_prefix (_cache s) ->
  last_of (_cache s) < n ->
  (top <= List.length (_cache s))%nat ->
  (forall i : nat, (i < top)%nat -> nth i (_cache s) 0 < Z.sqrt n) ->
  (forall i : nat, (top <= i < List.length (_cache s))%nat -> Z.sqrt n <= nth i (_cache s) 0) ->
  exists b : bool,
    match any_divides n (islice_list (_cache s) 1 (Z.of_nat top)) with
    | Ok true => (Ok false, s)
    | Ok false =>
        match last s with
        | None => (Raise TypeError, s)
        | Some l' =>
            match any_divides n (range_elems (mk_range (l' + 2) (Z.sqrt n + 1) 2)) with
            | Ok true => (Ok false, s)
            | Ok false => (Ok true, s)
            | Raise e => (Raise e, s)
            | Timeout => (Timeout, s)
            end
        end
    | Raise e => (Raise e, s)
    | Timeout => (Timeout, s)
    end = (Ok b, s) /\
    (b = false <->
     exists d, (d | n) /\
       ((is_prime d /\ 2 < d <= last_of (_cache s) /\ d < Z.sqrt n) \/
        (last_of (_cache s) < d <= Z.sqrt n /\ d mod 2 = 1))).
Proof.
  intros Hpp Hn Htop Hlow Hhigh.
  destruct (prime_prefix_length _ Hpp) as [Hlen _].
  pose proof (prime_prefix_last_ge_3 _ Hpp) as Hl3.
  assert (Hlo : last_of (_cache s) mod 2 = 1).
  { apply is_prime_odd; [|lia]. destruct Hpp as [_ [_ [Hpr _]]].
    apply Hpr. apply nth_In. lia. }
  pose proof (islice_cached_primes (_cache s) top (Z.sqrt n)) as Hsl.
  rewrite (last_last_of s) by lia.
  set (l := last_of (_cache s)) in *.
  destruct (any_divides_spec n (islice_list (_cache s) 1 (Z.of_nat top)))
    as [[Hr [d [Hin Hdiv]]]|[Hr Hno]]; [| |rewrite Hr].
  - intros d Hin. apply (Hsl d Hpp Htop Hlow Hhigh) in Hin. lia.
  - rewrite Hr. exists false. split; [reflexivity|]. split; [|reflexivity].
    intros _. exists d. split; [assumption|]. left.
    now apply (Hsl d Hpp Htop Hlow Hhigh).
  - destruct (any_divides_spec n (range_elems (mk_range (l + 2) (Z.sqrt n + 1) 2)))
      as [[Hr2 [d [Hin Hdiv]]]|[Hr2 Hno2]]; [| |rewrite Hr2].
    + intros d Hin. apply range_elems_step2_In in Hin. lia.
    + rewrite Hr2. exists false. split; [reflexivity|]. split; [|reflexivity].
      intros _. exists d. split; [assumption|]. right.
      apply range_elems_step2_In in Hin. destruct Hin as [Hd [k Hk]].
      split; [lia|]. subst d.
      replace (l + 2 + 2 * k) with (l + (1 + k) * 2) by lia.
      now rewrite Z.mod_add by lia.
    + exists true. split; [reflexivity|]. split; [discriminate|].
      intros [d [Hdiv [Hd|[Hd Hdo]]]]; exfalso.
      * apply (Hno d); [|assumption]. now apply (Hsl d Hpp Htop Hlow Hhigh).
      * apply (Hno2 d); [|assumption]. apply range_elems_step2_In.
        pose proof (odd_lt_add2 l d Hlo Hdo (proj1 Hd)).
        split; [lia|]. exists ((d - l - 2) / 2).
        pose proof (Z.div_mod d 2). pose proof (Z.div_mod l 2).
        pose proof (Z.div_mod (d - l - 2) 2). pose proof (Z.mod_pos_bound (d - l - 2) 2).
        lia.
Qed.

Lemma primes_contains_above (fuel : nat) (n : Z) (s : LazySequence Z Primes.gen_state) :
  prime_prefix (_cache s) ->
  last_of (_cache s) < n ->
  exists b : bool,
    Primes.__contains__ fuel n s = (Ok b, s) /\
    (b = false <->
     exists d, (d | n) /\
       ((is_prime d /\ 2 < d <= last_of (_cache s) /\ d < Z.sqrt n) \/
        (last_of (_cache s) < d <= Z.sqrt n /\ d mod 2 = 1))).
Proof.
  intros Hpp Hn.
  destruct (prime_prefix_length _ Hpp) as [Hlen _].
  pose proof (prime_prefix_last_ge_3 _ Hpp) as Hl3.
  pose proof Hpp as [_ [Hinc _]].
  pose proof (last_last_of s ltac:(lia)) as Hlast.
  unfold Primes.__contains__. rewrite Hlast.
  destruct (n <=? last_of (_cache s)) eqn:E1; [apply Z.leb_le in E1; lia|].
  destruct (n <? 0) eqn:E2; [apply Z.ltb_lt in E2; lia|].
  unfold bind. destruct (Z.sqrt n >? last_of (_cache s)) eqn:E3.
  - unfold ret, size. apply trial_divisions_spec; try assumption; try lia.
    intros i Hi.
    assert (nth i (_cache s) 0 <= last_of (_cache s))
      by (apply increasing_le; [assumption|lia]).
    lia.
  - assert (Hr : Z.sqrt n <= last_of (_cache s)) by lia.
    unfold insertpos. rewrite (within_cache_last _ _ _ Hlast Hr).
    destruct (bisect_left_spec (_cache s) (Z.sqrt n) (increasing_nondecreasing _ Hinc))
      as [B1 [B2 B3]].
    apply trial_divisions_spec; assumption.
Qed.

Lemma primes_contains_within (fuel : nat) (n : Z) (s : LazySequence Z Primes.gen_state) :
  prime_prefix (_cache s) ->
  n <= last_of (_cache s) ->
  exists b : bool,
    Primes.__contains__ fuel n s = (Ok b, s) /\ (b = true <-> is_prime n).
Proof.
  intros Hpp Hn.
  destruct (prime_prefix_length _ Hpp) as [Hlen _].
  pose proof Hpp as [_ [Hinc [Hpr Hall]]].
  pose proof (last_last_of s ltac:(lia)) as Hlast.
  unfold Primes.__contains__. rewrite Hlast.
  destruct (n <=? last_of (_cache s)) eqn:E1; [|apply Z.leb_gt in E1; lia].
  rewrite contains_within_cache by (eapply within_cache_last; eauto).
  destruct (bisect_left_spec (_cache s) n (increasing_nondecreasing _ Hinc)) as [B1 [B2 B3]].
  set (idx := bisect_left (_cache s) n) in *.
  assert (Hidx : (idx < List.length (_cache s))%nat).
  { destruct (Nat.lt_ge_cases idx (List.length (_cache s))) as [|Hge]; [assumption|].
    assert (last_of (_cache s) < n) by (apply B2; lia). lia. }
  destruct (list_getitem_in_range (_cache s) (Z.of_nat idx)) as [v [Hv Hg]]; [lia|].
  rewrite Hg. rewrite Nat2Z.id in Hv.
  assert (Hvn : nth idx (_cache s) 0 = v) by (now apply nth_error_nth).
  exists (n =? v). split; [reflexivity|]. rewrite Z.eqb_eq. split.
  - intros ->. apply Hpr. rewrite <- Hvn. now apply nth_In.
  - intros Hp. destruct (In_nth _ _ 0 (Hall n Hp Hn)) as [j [Hj Hjn]].
    assert (Hij : (idx <= j)%nat).
    { destruct (Nat.lt_ge_cases j idx) as [Hlt|]; [|assumption].
      specialize (B2 j Hlt). lia. }
    assert (n <= v) by (rewrite <- Hvn; apply B3; lia).
    assert (v <= n) by (rewrite <- Hvn, <- Hjn; apply increasing_le; [assumption|lia]).
    lia.
Qed.

(** A prime that divides the square of a prime is that prime. *)
Lemma prime_divides_square (d p : Z) :
  is_prime d -> is_prime p -> (d | p * p) -> d = p.
Proof.
  intros Hd Hp Hdiv.
  pose proof (is_prime_gt_1 d Hd) as Hd1. pose proof (is_prime_gt_1 p Hp) as Hp1.
  pose proof (Z.gcd_nonneg d p) as Hg0.
  pose proof (Z.gcd_divide_l d p) as Hgd. pose proof (Z.gcd_divide_r d p) as Hgp.
  assert (Hgle : Z.gcd d p <= p) by (apply Z.divide_pos_le; [lia|assumption]).
  assert (Hgne : Z.gcd d p <> 0).
  { intros H0. rewrite H0 in Hgp. destruct Hgp as [k Hk]. lia. }
  destruct (Z.eq_dec (Z.gcd d p) 1) as [H1|H1].
  - apply (prime_divisor_eq p d); [assumption|assumption|].
    exact (Z.gauss d p p Hdiv H1).
  - destruct (Z.eq_dec (Z.gcd d p) p) as [Hgeq|Hgneq].
    + rewrite Hgeq in Hgd. symmetry. apply (prime_divisor_eq d p); assumption.
    + exfalso. destruct Hp as [_ Hpd]. apply (Hpd (Z.gcd d p)); [lia|assumption].
Qed.

Lemma primes_contains_prime (fuel : nat) (n : Z) (s : LazySequence Z Primes.gen_state) :
  prime_prefix (_cache s) ->
  exists b : bool,
    Primes.__contains__ fuel n s = (Ok b, s) /\ (is_prime n -> b = true).
Proof.
  intros Hpp. destruct (Z_le_gt_dec n (last_of (_cache s))) as [Hn|Hn].
  - destruct (primes_contains_within fuel n s Hpp Hn) as [b [Hb Hiff]].
    exists b. split; [assumption|]. apply Hiff.
  - destruct (primes_contains_above fuel n s Hpp) as [b [Hb Hiff]]; [lia|].
    exists b. split; [assumption|]. intros Hp.
    destruct b; [reflexivity|exfalso].
    destruct (proj1 Hiff eq_refl) as [d [Hdiv Hd]].
    pose proof (is_prime_gt_1 n Hp) as Hn1.
    pose proof (Z.sqrt_lt_lin n Hn1) as Hroot.
    pose proof (prime_prefix_last_ge_3 _ Hpp) as Hl3.
    apply (not_prime_divisor n d); [|assumption|assumption].
    destruct Hd as [[_ [Hd2 Hdr]]|[Hdl _]]; lia.
Qed.

(** X7: for [n] up to the last cached prime, [isprime(n)] is right: it
    answers [True] exactly for the primes, in every state [primes] can
    reach. *)
Theorem isprime_within_cache (fuel : nat) (n : Z) (s : LazySequence Z Primes.gen_state) :
  reachable s ->
  n <= last_of (_cache s) ->
  exists b : bool, isprime fuel n s = (Ok b, s) /\ (b = true <-> is_prime n).
Proof.
  intros Hr Hn. destruct (reachable_primes_ok s Hr) as [Hpp _].
  exact (primes_contains_within fuel n s Hpp Hn).
Qed.

Lemma isprime_within_cache_witness :
  exists b : bool, isprime 0 3 primes = (Ok b, primes) /\ (b = true <-> is_prime 3).
Proof.
  apply (isprime_within_cache 0 3 primes).
  - apply reach_init.
  - unfold last_of. simpl. lia.
Defined.

(** X8: [isprime(n)] always answers, in every state [primes] can reach and
    for every integer [n], without raising, and it answers [True] for every
    prime: an answer [False] is always right. *)
Theorem isprime_accepts_primes (fuel : nat) (n : Z) (s : LazySequence Z Primes.gen_state) :
  reachable s ->
  exists b : bool, isprime fuel n s = (Ok b, s) /\ (is_prime n -> b = true).
Proof.
  intros Hr. destruct (reachable_primes_ok s Hr) as [Hpp _].
  exact (primes_contains_prime fuel n s Hpp).
Qed.

Lemma isprime_accepts_primes_witness :
  exists b : bool, isprime 0 7 primes = (Ok b, primes) /\ (is_prime 7 -> b = true).
Proof.
  apply (isprime_accepts_primes 0 7 primes). apply reach_init.
Defined.

(** X9: for [n] above the last cached prime, [isprime(n)] answers [False]
    exactly when [n] has an odd divisor that is a cached prime strictly
    below [isqrt(n)], or lies above the cache and is at most [isqrt(n)];
    neither 2 nor [isqrt(n)] itself, when it is cached, is tried. *)
Theorem isprime_above_cache (fuel : nat) (n : Z) (s : LazySequence Z Primes.gen_state) :
  reachable s ->
  last_of (_cache s) < n ->
  exists b : bool,
    isprime fuel n s = (Ok b, s) /\
    (b = false <->
     exists d, (d | n) /\
       ((is_prime d /\ 2 < d <= last_of (_cache s) /\ d < Z.sqrt n) \/
        (last_of (_cache s) < d <= Z.sqrt n /\ d mod 2 = 1))).
Proof.
  intros Hr Hn. destruct (reachable_primes_ok s Hr) as [Hpp _].
  exact (primes_contains_above fuel n s Hpp Hn).
Qed.

Lemma isprime_above_cache_witness :
  exists b : bool,
    isprime 0 35 primes = (Ok b, primes) /\
    (b = false <->
     exists d, (d | 35) /\
       ((is_prime d /\ 2 < d <= last_of (_cache primes) /\ d < Z.sqrt 35) \/
        (last_of (_cache primes) < d <= Z.sqrt 35 /\ d mod 2 = 1))).
Proof.
  apply (isprime_above_cache 0 35 primes).
  - apply reach_init.
  - unfold last_of. simpl. lia.
Defined.

(** X10: the square of a cached odd prime that lies above the cache is taken
    for a prime: [isprime(p * p)] answers [True]. *)
Theorem isprime_accepts_prime_squares
    (fuel : nat) (p : Z) (s : LazySequence Z Primes.gen_state) :
  reachable s ->
  In p (_cache s) -> 2 < p ->
  last_of (_cache s) < p * p ->
  isprime fuel (p * p) s = (Ok true, s) /\ ~ is_prime (p * p).
Proof.
  intros Hr Hin Hp2 Hl. destruct (reachable_primes_ok s Hr) as [Hpp _].
  split; [|apply square_not_prime; lia].
  assert (Hp : is_prime p) by (destruct Hpp as [_ [_ [Hpr _]]]; now apply Hpr).
  pose proof (prime_prefix_le_last _ _ Hpp Hin) as Hple.
  destruct (primes_contains_above fuel (p * p) s Hpp Hl) as [b [Hb Hiff]].
  unfold isprime. rewrite Hb. destruct b; [reflexivity|exfalso].
  destruct (proj1 Hiff eq_refl) as [d [Hdiv Hd]].
  rewrite Z.sqrt_square in Hd by lia.
  destruct Hd as [[Hdp [_ Hdlt]]|[Hdl _]]; [|lia].
  pose proof (prime_divides_square d p Hdp Hp Hdiv). lia.
Qed.

Lemma isprime_accepts_prime_squares_witness :
  isprime 0 (3 * 3) primes = (Ok true, primes) /\ ~ is_prime (3 * 3).
Proof.
  apply (isprime_accepts_prime_squares 0 3 primes).
  - apply reach_init.
  - simpl. right. left. reflexivity.
  - lia.
  - unfold last_of. simpl. lia.
Defined.

(** X11: for an odd [n] above the cache, [isprime(n)] is right whenever
    [isqrt(n)] lies above the cache too, or does not divide [n]. *)
Theorem isprime_odd_above_cache (fuel : nat) (n : Z) (s : LazySequence Z Primes.gen_state) :
  reachable s ->
  last_of (_cache s) < n ->
  n mod 2 = 1 ->
  last_of (_cache s) < Z.sqrt n \/ ~ (Z.sqrt n | n) ->
  exists b : bool, isprime fuel n s = (Ok b, s) /\ (b = true <-> is_prime n).
Proof.
  intros Hr Hn Hodd Hroot. destruct (reachable_primes_ok s Hr) as [Hpp _].
  pose proof (prime_prefix_last_ge_3 _ Hpp) as Hl3.
  destruct (primes_contains_above fuel n s Hpp Hn) as [b [Hb Hiff]].
  exists b. split; [exact Hb|]. split.
  - intros Hbt. destruct (NT.is_prime_decidable n) as [|Hnp]; [assumption|exfalso].
    destruct (NT.small_prime_factor n) as [q [Hq [Hqd Hqq]]]; [lia|assumption|].
    pose proof (is_prime_gt_1 q Hq) as Hq1.
    assert (Hqr : q <= Z.sqrt n) by (apply Z.sqrt_le_square; lia).
    assert (Hq2 : q <> 2).
    { intros ->. apply Z.mod_divide in Hqd; lia. }
    assert (Hqo : q mod 2 = 1) by (apply is_prime_odd; [assumption|lia]).
    assert (Hbf : b = false); [|congruence].
    apply Hiff. exists q. split; [assumption|].
    destruct (Z_le_gt_dec q (last_of (_cache s))) as [Hql|Hql].
    + left. split; [assumption|]. split; [lia|].
      destruct Hroot as [Hroot|Hroot]; [lia|].
      destruct (Z.eq_dec q (Z.sqrt n)) as [Heq|]; [|lia].
      rewrite Heq in Hqd. contradiction.
    + right. split; [lia|assumption].
  - intros Hp. destruct (primes_contains_prime fuel n s Hpp) as [b' [Hb' Hpb]].
    rewrite Hb in Hb'. inversion Hb'; subst. now apply Hpb.
Qed.

Lemma isprime_odd_above_cache_witness :
  exists b : bool, isprime 0 25 primes = (Ok b, primes) /\ (b = true <-> is_prime 25).
Proof.
  apply (isprime_odd_above_cache 0 25 primes).
  - apply reach_init.
  - unfold last_of. simpl. lia.
  - reflexivity.
  - left. vm_compute. reflexivity.
Defined.

(** ** Indexing [primes] *)

(** More fuel does not change what the loops found. *)
Lemma scan_fuel_mono (f : nat) : forall (c : list Z) (top stop n : Z) (r : Z * Z * Z) (f' : nat),
  Primes.scan f c top stop n = Ok r -> (f <= f')%nat -> Primes.scan f' c top stop n = Ok r.
Proof.
  induction f as [|f IH]; intros c top stop n r f' Hs Hle; [discriminate|].
  destruct f' as [|f']; [lia|].
  cbn [Primes.scan] in *.
  destruct (n <? stop).
  - destruct (any_divides n (islice_list c 1 top)) as [[|]|e|]; try assumption.
    apply (IH _ _ _ _ _ f' Hs). lia.
  - destruct (list_getitem c (top + 1)) as [p|e|]; try assumption.
    apply (IH _ _ _ _ _ f' Hs). lia.
Qed.

Lemma genprimes_fuel_mono (f f' : nat) (c : list Z) (g g' : Primes.gen_state) (n : Z) :
  Primes.__genprimes f c g = (Ok n, g') -> (f <= f')%nat ->
  Primes.__genprimes f' c g = (Ok n, g').
Proof.
  intros Hg Hle. destruct g as [|top stop m|]; cbn [Primes.__genprimes] in *.
  - destruct (list_getitem c 1) as [p|e|]; try assumption.
    destruct (Primes.scan f c 1 (p ^ 2) 5) as [r|e|] eqn:E; try discriminate.
    now rewrite (scan_fuel_mono f _ _ _ _ r f' E Hle).
  - destruct (Primes.scan f c top stop (m + 2)) as [r|e|] eqn:E; try discriminate.
    now rewrite (scan_fuel_mono f _ _ _ _ r f' E Hle).
  - assumption.
Qed.

(** From a good state the generator yields any number of values, given
    enough fuel, and the same ones with more. *)
Lemma produce_primes (k : nat) : forall s : LazySequence Z Primes.gen_state,
  primes_ok s ->
  exists (F : nat) (xs : list Z) (g' : Primes.gen_state),
    primes_ok (mk_seq (_cache s ++ xs) g') /\
    forall fuel : nat, (F <= fuel)%nat ->
      produce (Primes.__genprimes fuel) k (_cache s) (iterator s) = Some (xs, g').
Proof.
  induction k as [|k IH]; intros s Hok.
  - exists 0%nat, [], (iterator s). split.
    + rewrite app_nil_r. destruct s; assumption.
    + intros fuel _. reflexivity.
  - pose proof (prime_prefix_last_ge_3 _ (proj1 Hok)) as Hl3.
    set (F1 := Z.to_nat (last_of (_cache s) ^ 2)).
    destruct (genprimes_step F1 s Hok) as [[Ht Hb]|[n [g1 [Hg [_ Hok1]]]]].
    + exfalso.
      destruct (NT.prime_between_square_Z (last_of (_cache s))) as [q [Hq Hqb]]; [lia|].
      specialize (Hb q Hq (proj1 Hqb)). unfold F1 in Hb. rewrite Z.pow_2_r in Hb. lia.
    + destruct (IH _ Hok1) as [F2 [xs [g' [Hok' Hp]]]]. simpl in Hok', Hp.
      exists (Nat.max F1 F2), (n :: xs), g'. split.
      * rewrite <- app_assoc in Hok'. exact Hok'.
      * intros fuel Hf. cbn [produce].
        rewrite (genprimes_fuel_mono F1 fuel _ _ _ _ Hg) by lia.
        rewrite (Hp fuel) by lia. reflexivity.
Qed.

(** The value at index [i] of a list of all the primes up to some bound is
    the prime with exactly [i] primes below it. *)
Lemma prime_prefix_nth (c : list Z) (i : nat) (p : Z) :
  prime_prefix c -> nth_error c i = Some p ->
  is_prime p /\
  List.length (firstn i c) = i /\
  (forall q, In q (firstn i c) <-> is_prime q /\ q < p).
Proof.
  intros Hpp Hn.
  assert (Hi : (i < List.length c)%nat) by (apply nth_error_Some; congruence).
  assert (Hp : nth i c 0 = p) by (now apply nth_error_nth).
  pose proof Hpp as [_ [Hinc [Hpr Hall]]].
  split; [apply Hpr; rewrite <- Hp; now apply nth_In|].
  split; [rewrite length_firstn; lia|].
  intros q. split.
  - intros Hin. destruct (In_nth _ _ 0 Hin) as [j [Hj Hjq]].
    rewrite length_firstn in Hj. rewrite nth_firstn in Hjq.
    destruct (j <? i)%nat eqn:E; [|apply Nat.ltb_ge in E; lia].
    apply Nat.ltb_lt in E. split.
    + apply Hpr. rewrite <- Hjq. apply nth_In. lia.
    + rewrite <- Hjq, <- Hp. apply Hinc. lia.
  - intros [Hq Hqp].
    assert (Hple : p <= last_of c).
    { apply prime_prefix_le_last; [assumption|]. rewrite <- Hp. now apply nth_In. }
    destruct (In_nth _ _ 0 (Hall q Hq ltac:(lia))) as [j [Hj Hjq]].
    assert (Hji : (j < i)%nat).
    { apply (increasing_index_lt c); [assumption|assumption|assumption|lia]. }
    assert (Hq' : nth j (firstn i c) 0 = q).
    { rewrite nth_firstn. apply Nat.ltb_lt in Hji. now rewrite Hji. }
    rewrite <- Hq'. apply nth_In. rewrite length_firstn. lia.
Qed.

Lemma primes_getitem (i : Z) (s : LazySequence Z Primes.gen_state) :
  primes_ok s -> 0 <= i < INFINITE ->
  exists (F : nat) (p : Z) (s' : LazySequence Z Primes.gen_state),
    primes_ok s' /\
    nth_error (_cache s') (Z.to_nat i) = Some p /\
    size s' = Z.max (size s) (i + 1) /\
    forall fuel : nat, (F <= fuel)%nat ->
      __getitem_int__ (Primes.__genprimes fuel) i s = (Ok p, s').
Proof.
  intros Hok Hi.
  destruct (Z_lt_le_dec i (size s)) as [Hin|Hout].
  - exists 0%nat.
    destruct (getitem_int_cached Z Primes.gen_state (Primes.__genprimes 0) s i)
      as [p [Hp _]]; [lia|].
    exists p, s. split; [assumption|]. split; [assumption|]. split; [lia|].
    intros fuel _. apply getitem_int_nth_error; [lia|assumption].
  - destruct (produce_primes (Z.to_nat (i - size s + 1)) s Hok) as [F [xs [g' [Hok' Hp]]]].
    assert (Hs0 : 0 <= size s) by (unfold size; lia).
    destruct (getitem_int_forced Z Primes.gen_state (Primes.__genprimes F) s i xs g')
      as [p [Hn [_ Hsz]]]; [assumption|lia|apply Hp; lia|].
    exists F, p, (mk_seq (_cache s ++ xs) g').
    split; [assumption|]. split; [assumption|]. split; [lia|].
    intros fuel Hf.
    destruct (getitem_int_forced Z Primes.gen_state (Primes.__genprimes fuel) s i xs g')
      as [p' [Hn' [Hat _]]]; [assumption|lia|apply Hp; lia|].
    rewrite Hat. congruence.
Qed.

Lemma increasing_firstn (c : list Z) (i : nat) : increasing c -> increasing (firstn i c).
Proof.
  intros Hinc a b Hab. rewrite length_firstn in Hab. rewrite !nth_firstn.
  destruct (a <? i)%nat eqn:Ea; [|apply Nat.ltb_ge in Ea; lia].
  destruct (b <? i)%nat eqn:Eb; [|apply Nat.ltb_ge in Eb; lia].
  apply Hinc. lia.
Qed.

(** X12: [primes[i]], for an index from 0 and below [sys.maxsize], in any
    state [primes] can reach: given enough fuel it returns the prime that
    has exactly [i] primes below it, and leaves the cache with [i + 1]
    values if it had fewer. *)
Theorem primes_getitem_nth_prime (i : Z) (s : LazySequence Z Primes.gen_state) :
  reachable s ->
  0 <= i < INFINITE ->
  exists (F : nat) (p : Z) (s' : LazySequence Z Primes.gen_state),
    (forall fuel : nat, (F <= fuel)%nat -> Primes.getitem fuel i s = (Ok p, s')) /\
    size s' = Z.max (size s) (i + 1) /\
    is_prime p /\
    exists below : list Z,
      List.length below = Z.to_nat i /\ increasing below /\
      forall q, In q below <-> is_prime q /\ q < p.
Proof.
  intros Hr Hi.
  destruct (primes_getitem i s (reachable_primes_ok s Hr) Hi)
    as [F [p [s' [[Hpp _] [Hn [Hsz Hget]]]]]].
  destruct (prime_prefix_nth _ _ _ Hpp Hn) as [Hp [Hlen Hbelow]].
  exists F, p, s'. split; [exact Hget|]. split; [assumption|]. split; [assumption|].
  exists (firstn (Z.to_nat i) (_cache s')). split; [assumption|].
  split; [|assumption]. apply increasing_firstn. now destruct Hpp as [_ [Hinc _]].
Qed.

Lemma primes_getitem_nth_prime_witness :
  exists (F : nat) (p : Z) (s' : LazySequence Z Primes.gen_state),
    (forall fuel : nat, (F <= fuel)%nat -> Primes.getitem fuel 4 primes = (Ok p, s')) /\
    size s' = Z.max (size primes) (4 + 1) /\
    is_prime p /\
    exists below : list Z,
      List.length below = Z.to_nat 4 /\ increasing below /\
      forall q, In q below <-> is_prime q /\ q < p.
Proof.
  apply (primes_getitem_nth_prime 4 primes).
  - apply reach_init.
  - split; [lia|reflexivity].
Defined.

(** ** Powers of primes *)

Lemma prime_coprime_or_eq (d p : Z) :
  is_prime d -> is_prime p -> d = p \/ Z.gcd d p = 1.
Proof.
  intros Hd Hp.
  pose proof (is_prime_gt_1 d Hd) as Hd1. pose proof (is_prime_gt_1 p Hp) as Hp1.
  pose proof (Z.gcd_nonneg d p) as Hg0.
  pose proof (Z.gcd_divide_l d p) as Hgd. pose proof (Z.gcd_divide_r d p) as Hgp.
  assert (Hgle : Z.gcd d p <= p) by (apply Z.divide_pos_le; [lia|assumption]).
  assert (Hgne : Z.gcd d p <> 0).
  { intros H0. rewrite H0 in Hgp. destruct Hgp as [k Hk]. lia. }
  destruct (Z.eq_dec (Z.gcd d p) 1) as [H1|H1]; [right; assumption|left].
  destruct (Z.eq_dec (Z.gcd d p) p) as [Hgeq|Hgneq].
  - rewrite Hgeq in Hgd. symmetry. apply (prime_divisor_eq d p); assumption.
  - exfalso. destruct Hp as [_ Hpd]. apply (Hpd (Z.gcd d p)); [lia|assumption].
Qed.

(** A prime that divides a power of a prime is that prime. *)
Lemma prime_divides_pow (d p : Z) (n : nat) :
  is_prime d -> is_prime p -> (d | p ^ Z.of_nat n) -> d = p.
Proof.
  intros Hd Hp. pose proof (is_prime_gt_1 d Hd) as Hd1.
  induction n as [|n IH]; intros Hdiv.
  - simpl in Hdiv. apply Z.divide_1_r in Hdiv. lia.
  - rewrite Nat2Z.inj_succ, Z.pow_succ_r in Hdiv by lia.
    destruct (prime_coprime_or_eq d p Hd Hp) as [|Hg]; [assumption|].
    apply IH. exact (Z.gauss d p _ Hdiv Hg).
Qed.

Lemma pow2_pos (k : nat) : 0 < 2 ^ Z.of_nat k.
Proof. apply Z.pow_pos_nonneg; lia. Qed.

Lemma pow2_nat (k : nat) : 2 ^ Z.of_nat k = Z.of_nat (2 ^ k).
Proof. now rewrite Nat2Z.inj_pow. Qed.

Lemma pow_pow_le (p q : Z) (k : nat) :
  0 <= p -> 0 <= q -> (p <= q <-> p ^ 2 ^ Z.of_nat k <= q ^ 2 ^ Z.of_nat k).
Proof. intros Hp Hq. apply Z.pow_le_mono_l_iff; auto using pow2_pos. Qed.

Lemma pow_pow_lt (p q : Z) (k : nat) :
  0 <= p -> 0 <= q -> (p < q <-> p ^ 2 ^ Z.of_nat k < q ^ 2 ^ Z.of_nat k).
Proof. intros Hp Hq. apply Z.pow_lt_mono_l_iff; auto using pow2_pos. Qed.

Lemma pow_pow_exp_le (p : Z) (j k : nat) :
  1 < p -> (j <= k)%nat -> p ^ 2 ^ Z.of_nat j <= p ^ 2 ^ Z.of_nat k.
Proof.
  intros Hp Hjk. apply Z.pow_le_mono_r; [lia|]. apply Z.pow_le_mono_r; lia.
Qed.

Lemma pow_pow_exp_lt (p : Z) (j k : nat) :
  1 < p -> (j < k)%nat -> p ^ 2 ^ Z.of_nat j < p ^ 2 ^ Z.of_nat k.
Proof.
  intros Hp Hjk. apply Z.pow_lt_mono_r; [lia|pose proof (pow2_pos k); lia|].
  apply Z.pow_lt_mono_r; lia.
Qed.

(** The least of the powers [p ** 2 ** j], [j] from [k] on, is
    [2 ** 2 ** k]. *)
Lemma fermi_dirac_from_least (k : nat) (w : Z) :
  fermi_dirac_from k w -> 2 ^ 2 ^ Z.of_nat k <= w.
Proof.
  intros [p [j [Hp [Hj ->]]]]. pose proof (is_prime_gt_1 p Hp) as Hp1.
  transitivity (2 ^ 2 ^ Z.of_nat j).
  - apply pow_pow_exp_le; [lia|assumption].
  - apply pow_pow_le; lia.
Qed.

Lemma fermi_dirac_from_first (k : nat) : fermi_dirac_from k (2 ^ 2 ^ Z.of_nat k).
Proof. exists 2, k. split; [apply is_prime_2|]. split; [lia|reflexivity]. Qed.

(** A power with exponent [2 ** k] is none with a larger one. *)
Lemma fermi_dirac_from_succ_neq (k : nat) (p w : Z) :
  is_prime p -> fermi_dirac_from (Datatypes.S k) w -> w <> p ^ 2 ^ Z.of_nat k.
Proof.
  intros Hp [q [j [Hq [Hj ->]]]] Heq.
  pose proof (is_prime_gt_1 p Hp) as Hp1. pose proof (is_prime_gt_1 q Hq) as Hq1.
  assert (Hqp : q = p).
  { apply (prime_divides_pow q p (2 ^ k) Hq Hp). rewrite <- pow2_nat, <- Heq.
    rewrite pow2_nat.
    assert (Hpos : (0 < 2 ^ j)%nat) by (apply Nat.neq_0_lt_0, Nat.pow_nonzero; lia).
    destruct (2 ^ j)%nat as [|m] eqn:E; [lia|].
    rewrite Nat2Z.inj_succ, Z.pow_succ_r by lia. apply Z.divide_factor_l. }
  subst q. pose proof (pow_pow_exp_lt p k j Hp1 ltac:(lia)). lia.
Qed.

Lemma fermi_dirac_from_split (k : nat) (w : Z) :
  fermi_dirac_from k w <->
  (exists q, is_prime q /\ w = q ^ 2 ^ Z.of_nat k) \/ fermi_dirac_from (Datatypes.S k) w.
Proof.
  split.
  - intros [p [j [Hp [Hj Hw]]]]. destruct (Nat.eq_dec j k) as [->|Hne].
    + left. exists p. split; assumption.
    + right. exists p, j. split; [assumption|]. split; [lia|assumption].
  - intros [[q [Hq Hw]]|[p [j [Hp [Hj Hw]]]]].
    + exists q, k. split; [assumption|]. split; [lia|assumption].
    + exists p, j. split; [assumption|]. split; [lia|assumption].
Qed.

(** In a list of all the primes up to some bound, no prime lies between
    two neighbours. *)
Lemma prime_prefix_consecutive (c : list Z) (j : nat) (p p' q : Z) :
  prime_prefix c ->
  nth_error c j = Some p -> nth_error c (Datatypes.S j) = Some p' ->
  is_prime q -> q < p' -> q <= p.
Proof.
  intros Hpp Hn Hn' Hq Hlt.
  assert (Hj : (Datatypes.S j < List.length c)%nat) by (apply nth_error_Some; congruence).
  pose proof (nth_error_nth _ _ 0 Hn) as Hp. pose proof (nth_error_nth _ _ 0 Hn') as Hp'.
  pose proof Hpp as [_ [Hinc [_ Hall]]].
  assert (Hple : p' <= last_of c).
  { apply prime_prefix_le_last; [assumption|]. eapply nth_error_In; eauto. }
  destruct (In_nth _ _ 0 (Hall q Hq ltac:(lia))) as [i [Hi Hiq]].
  assert (Hij : (i < Datatypes.S j)%nat).
  { apply (increasing_index_lt c); [assumption|assumption|assumption|lia]. }
  rewrite <- Hiq, <- Hp. apply increasing_le; [assumption|lia].
Qed.

(** ** Potencias *)

Example potencias_first :
  fst (__getitem_slice__ (Potencias.next_iterator 100) (mk_slice None (Some 14) None) potencias)
  = Ok [2; 3; 4; 5; 7; 9; 11; 13; 16; 17; 19; 23; 25; 29] /\
  fst (__getitem_int__ (Potencias.next_iterator 100) 60 potencias) = Ok 241.
Proof. split; vm_compute; reflexivity. Qed.

(** The value an iteration yields after [k] others is the one at index [k]. *)
Lemma iter_next_Ok {T S : Type} (next_iterator : list T -> S -> outcome T * S)
    (k : nat) (st st' : iter_state) (s s' : LazySequence T S) (x : T) :
  iter_at k st s ->
  iter_next next_iterator st s = (Ok x, st', s') ->
  nth_error (_cache s') k = Some x /\ iter_at (Datatypes.S k) st' s'.
Proof.
  intros Hat H. destruct st as [j|i|]; simpl in Hat.
  - destruct Hat as [Hj Hk]. subst j. simpl in H.
    destruct (nth_error (_cache s) k) as [y|] eqn:E.
    + inversion H; subst. split; [assumption|]. simpl. split; [reflexivity|].
      assert (k < List.length (_cache s'))%nat by (apply nth_error_Some; congruence). lia.
    + apply nth_error_None in E.
      assert (Hsz : size s = Z.of_nat k) by (unfold size; f_equal; lia).
      rewrite Hsz in H.
      destruct (iter_index_in_order T S next_iterator k s s' x st' H) as [H1 [H2 _]]. auto.
  - subst i. simpl in H.
    destruct (iter_index_in_order T S next_iterator k s s' x st' H) as [H1 [H2 _]]. auto.
  - destruct Hat.
Qed.

Lemma level_ok_pulled (fuel : nat) (P P' : Potencias.primes_state) (xs : list Z)
    (ls : list Potencias.level) : forall (k : nat) (v : Z),
  pulled (Primes.__genprimes fuel) P xs P' ->
  level_ok P k ls v -> level_ok P' k ls v.
Proof.
  induction ls as [|l rest IH]; intros k v Hp Hok; [assumption|].
  destruct l as [st|st x y sd]; cbn [level_ok] in *.
  - destruct Hok as [Hr [Hat Hv]]. split; [assumption|]. split; [|assumption].
    eapply iter_at_pulled; eauto.
  - destruct Hok as [[j [p [Hj [Hat [Hn Hx]]]]] [Hrest Hsd]].
    split; [|split; [now apply IH|assumption]].
    exists j, p. split; [assumption|]. split; [eapply iter_at_pulled; eauto|].
    split; [eapply nth_error_pulled; eauto|assumption].
Qed.

Lemma fermi_dirac_from_weaken (k : nat) (w : Z) :
  fermi_dirac_from (Datatypes.S k) w -> fermi_dirac_from k w.
Proof.
  intros [p [j [Hp [Hj Hw]]]]. exists p, j. split; [assumption|]. split; [lia|assumption].
Qed.

(** What a level yielded last is a power [p ** 2 ** j] with [j] at least the
    number of the level. *)
Lemma level_ok_fermi_dirac (P : Potencias.primes_state) (ls : list Potencias.level) :
  forall (k : nat) (v : Z),
  prime_prefix (_cache P) -> level_ok P k ls v -> fermi_dirac_from k v.
Proof.
  induction ls as [|l rest IH]; intros k v Hpp Hok; [destruct Hok|].
  destruct l as [st|st x y sd]; cbn [level_ok] in Hok.
  - destruct Hok as [_ [_ ->]]. apply fermi_dirac_from_first.
  - destruct Hok as [[j [p [Hj [Hat [Hn Hx]]]]] [Hrest Hsd]].
    destruct sd.
    + destruct Hsd as [-> _]. exists p, k. split; [|split; [lia|assumption]].
      destruct Hpp as [_ [_ [Hpr _]]]. apply Hpr. eapply nth_error_In; eauto.
    + destruct Hsd as [-> _]. apply fermi_dirac_from_weaken. eapply IH; eauto.
Qed.

Lemma mkiter_pulled (fuel k : nat) (st : iter_state) (P : Potencias.primes_state) :
  exists xs, pulled (Primes.__genprimes fuel) P xs (snd (Potencias.mkiter fuel k st P)).
Proof.
  destruct (iter_next_pulled Z Primes.gen_state (Primes.__genprimes fuel) st P) as [xs Hxs].
  exists xs. unfold Potencias.mkiter.
  destruct (iter_next (Primes.__genprimes fuel) st P) as [[[p|e|] st'] P']; exact Hxs.
Qed.

(** Whatever [flat] does, it does to [primes] by pulls. *)
Lemma flat_pulled (fuel : nat) (ls : list Potencias.level) :
  forall (k : nat) (P : Potencias.primes_state),
  exists xs, pulled (Primes.__genprimes fuel) P xs (snd (Potencias.flat fuel k ls P)).
Proof.
  induction ls as [|l rest IH]; intros k P.
  - cbn [Potencias.flat].
    destruct (mkiter_pulled fuel k (IterCache 0) P) as [xs Hxs]. exists xs.
    destruct (Potencias.mkiter fuel k (IterCache 0) P) as [[[v|e|] st'] P1]; exact Hxs.
  - destruct l as [st|st x y [|]]; cbn [Potencias.flat].
    + destruct (mkiter_pulled fuel k st P) as [xs Hxs].
      destruct (Potencias.mkiter fuel k st P) as [[[v|e|] st'] P1];
        try (exists xs; exact Hxs).
      destruct (IH (Datatypes.S k) P1) as [ys Hys]. exists (xs ++ ys).
      simpl in Hxs.
      destruct (Potencias.flat fuel (Datatypes.S k) rest P1) as [[[w|e|] rest'] P2];
        simpl in *; eapply pulled_trans; eauto.
    + destruct (mkiter_pulled fuel k st P) as [xs Hxs]. exists xs.
      destruct (Potencias.mkiter fuel k st P) as [[[v|e|] st'] P1]; exact Hxs.
    + destruct (IH (Datatypes.S k) P) as [ys Hys]. exists ys.
      destruct (Potencias.flat fuel (Datatypes.S k) rest P) as [[[w|e|] rest'] P2]; exact Hys.
Qed.

Lemma mkiter_Ok (fuel k j : nat) (st st' : iter_state) (P P' : Potencias.primes_state) (x : Z) :
  iter_at j st P ->
  Potencias.mkiter fuel k st P = (Ok x, st', P') ->
  (exists p, nth_error (_cache P') j = Some p /\ x = p ^ 2 ^ Z.of_nat k) /\
  iter_at (Datatypes.S j) st' P' /\
  exists xs, pulled (Primes.__genprimes fuel) P xs P'.
Proof.
  intros Hat H. pose proof (mkiter_pulled fuel k st P) as Hp. rewrite H in Hp.
  unfold Potencias.mkiter in H.
  destruct (iter_next (Primes.__genprimes fuel) st P) as [[[p|e|] st1] P1] eqn:E;
    try discriminate.
  inversion H; subst.
  destruct (iter_next_Ok _ j st st' P P' p Hat E) as [Hn Hat'].
  split; [exists p; split; [assumption|reflexivity]|]. split; assumption.
Qed.

(** The comparison of [join] yields the smaller of [x] and [y] and leaves
    the level in a good state. *)
Lemma join_level_ok (P : Potencias.primes_state) (k j : nat) (st : iter_state)
    (x y p : Z) (rest : list Potencias.level) :
  (1 <= j)%nat -> iter_at (Datatypes.S j) st P ->
  nth_error (_cache P) j = Some p -> is_prime p -> x = p ^ 2 ^ Z.of_nat k ->
  level_ok P (Datatypes.S k) rest y ->
  fermi_dirac_from (Datatypes.S k) y ->
  (forall w, fermi_dirac_from (Datatypes.S k) w -> w < y -> w < x) ->
  (y < x -> forall q, is_prime q -> q ^ 2 ^ Z.of_nat k < x -> q ^ 2 ^ Z.of_nat k < y) ->
  level_ok P k (snd (Potencias.join st x y) :: rest) (fst (Potencias.join st x y)) /\
  fst (Potencias.join st x y) = Z.min x y.
Proof.
  intros Hj Hat Hn Hp Hx Hrest Hy HA HB. unfold Potencias.join.
  pose proof (fermi_dirac_from_succ_neq k p y Hp Hy) as Hne.
  destruct (x <=? y) eqn:E; simpl.
  - apply Z.leb_le in E. split; [|lia].
    split; [exists j, p; auto|]. split; [assumption|]. split; [reflexivity|].
    split; [lia|assumption].
  - apply Z.leb_gt in E. split; [|lia].
    split; [exists j, p; auto|]. split; [assumption|]. split; [reflexivity|].
    split; [assumption|]. now apply HB.
Qed.

Lemma level_ok_nonempty (P : Potencias.primes_state) (k : nat) (ls : list Potencias.level)
    (v : Z) :
  level_ok P k ls v -> ls <> [].
Proof. destruct ls; [intros []|discriminate]. Qed.

(** One value from [flat]: a level that starts yields [2 ** 2 ** k]; a
    started one yields the least power [p ** 2 ** j], [j] from [k] on, above
    the value it yielded last; the levels are left in a good state. *)
Lemma flat_step (fuel : nat) (ls : list Potencias.level) :
  forall (k : nat) (P P' : Potencias.primes_state) (v v' : Z) (ls' : list Potencias.level),
  primes_ok P ->
  ls = [] \/ level_ok P k ls v ->
  Potencias.flat fuel k ls P = (Ok v', ls', P') ->
  level_ok P' k ls' v' /\
  (ls = [] -> v' = 2 ^ 2 ^ Z.of_nat k) /\
  (ls <> [] -> v < v' /\ forall w, fermi_dirac_from k w -> v < w -> v' <= w).
Proof.
  induction ls as [|l rest IH]; intros k P P' v v' ls' Hok Hls H.
  - cbn [Potencias.flat] in H.
    destruct (Potencias.mkiter fuel k (IterCache 0) P) as [[[x|e|] st1] P1] eqn:E;
      try discriminate.
    inversion H; subst.
    destruct (mkiter_Ok fuel k 0 (IterCache 0) st1 P P' v') as [[p [Hn Hv]] [Hat [xs Hp]]];
      [simpl; split; [reflexivity|lia]|assumption|].
    destruct (pulled_primes_ok fuel _ _ _ Hp Hok) as [Hpp _].
    destruct (prime_prefix_length _ Hpp) as [Hlen [H0 _]].
    assert (Hp2 : p = 2).
    { rewrite <- H0. symmetry. now apply nth_error_nth. }
    subst p. split; [|split; [intros _; assumption|intros Hne; now elim Hne]].
    cbn [level_ok]. split; [reflexivity|]. split; assumption.
  - destruct Hls as [Hls|Hls]; [discriminate|].
    destruct l as [st|st x y [|]]; cbn [level_ok] in Hls; cbn [Potencias.flat] in H.
    + (* the level leaves its first yield and enters [join] *)
      destruct Hls as [Hrest [Hat Hv]]. subst rest.
      destruct (Potencias.mkiter fuel k st P) as [[[x|e|] st1] P1] eqn:E; try discriminate.
      destruct (mkiter_Ok fuel k 1 st st1 P P1 x Hat E) as [[p [Hn Hx]] [Hat1 [xs Hp]]].
      pose proof (pulled_primes_ok fuel _ _ _ Hp Hok) as Hok1.
      destruct (Potencias.flat fuel (Datatypes.S k) [] P1) as [[[y|e|] rest'] P2] eqn:E2;
        try discriminate.
      inversion H; subst. clear H.
      destruct (IH (Datatypes.S k) P1 P' 0 y rest' Hok1 (or_introl eq_refl) E2)
        as [Hrest' [Hy _]].
      specialize (Hy eq_refl).
      destruct (flat_pulled fuel [] (Datatypes.S k) P1) as [ys Hp2]. rewrite E2 in Hp2.
      simpl in Hp2.
      destruct (prime_prefix_length _ (proj1 Hok1)) as [Hlen [_ H1]].
      assert (Hp3 : p = 3).
      { rewrite <- H1. symmetry. now apply nth_error_nth. }
      subst p.
      pose proof (pow_pow_exp_lt 2 k (Datatypes.S k) ltac:(lia) ltac:(lia)) as Hyy.
      pose proof (proj1 (pow_pow_lt 2 3 k ltac:(lia) ltac:(lia)) ltac:(lia)) as Hxx.
      destruct (join_level_ok P' k 1 st1 (3 ^ 2 ^ Z.of_nat k) y 3 rest') as [Hj Hmin];
        [lia|eapply iter_at_pulled; eauto|eapply nth_error_pulled; eauto|apply is_prime_3
        |reflexivity|assumption|subst y; apply fermi_dirac_from_first| | |].
      * intros w Hw Hwy. pose proof (fermi_dirac_from_least _ _ Hw). lia.
      * intros _ q Hq Hqx. pose proof (is_prime_gt_1 q Hq) as Hq1.
        apply pow_pow_lt in Hqx; [|lia|lia].
        assert (q = 2) by lia. subst q. lia.
      * split; [exact Hj|]. split; [discriminate|]. intros _. rewrite Hmin.
        split; [lia|]. intros w Hw Hvw.
        apply fermi_dirac_from_split in Hw. destruct Hw as [[q [Hq ->]]|Hw].
        { pose proof (is_prime_gt_1 q Hq) as Hq1.
          apply pow_pow_lt in Hvw; [|lia|lia].
          pose proof (proj1 (pow_pow_le 3 q k ltac:(lia) ltac:(lia)) ltac:(lia)). lia. }
        { pose proof (fermi_dirac_from_least _ _ Hw). lia. }
    + (* after [yield x]: the next prime of the level *)
      destruct Hls as [[j [p [Hj [Hat [Hn Hx]]]]] [Hrest [Hv [Hxy HA]]]].
      destruct (Potencias.mkiter fuel k st P) as [[[x'|e|] st1] P1] eqn:E; try discriminate.
      inversion H; subst. clear H.
      destruct (mkiter_Ok fuel k (Datatypes.S j) st st1 P P' x' Hat E)
        as [[p' [Hn' Hx']] [Hat1 [xs Hp]]].
      pose proof (pulled_primes_ok fuel _ _ _ Hp Hok) as Hok1.
      pose proof (nth_error_pulled _ _ _ _ _ _ j p Hp Hn) as Hn1.
      pose proof (level_ok_pulled fuel _ _ _ _ _ _ Hp Hrest) as Hrest1.
      pose proof Hok1 as [Hpp1 _]. pose proof Hpp1 as [_ [Hinc [Hpr _]]].
      assert (Hpp : is_prime p) by (apply Hpr; eapply nth_error_In; eauto).
      assert (Hpp' : is_prime p') by (apply Hpr; eapply nth_error_In; eauto).
      pose proof (is_prime_gt_1 p Hpp) as Hp1. pose proof (is_prime_gt_1 p' Hpp') as Hp1'.
      assert (Hlt : p < p').
      { assert (Hlen : (Datatypes.S j < List.length (_cache P'))%nat)
          by (apply nth_error_Some; congruence).
        rewrite <- (nth_error_nth _ _ 0 Hn1), <- (nth_error_nth _ _ 0 Hn').
        apply Hinc. lia. }
      pose proof (proj1 (pow_pow_lt p p' k ltac:(lia) ltac:(lia)) Hlt) as Hxx.
      subst x'.
      destruct (join_level_ok P' k (Datatypes.S j) st1 (p' ^ 2 ^ Z.of_nat k) y p' rest)
        as [Hjn Hmin];
        [lia|assumption|assumption|assumption|reflexivity|assumption
        |eapply level_ok_fermi_dirac; eauto| | |].
      * intros w Hw Hwy. specialize (HA w Hw Hwy). lia.
      * intros _ q Hq Hqx. pose proof (is_prime_gt_1 q Hq) as Hq1.
        apply pow_pow_lt in Hqx; [|lia|lia].
        pose proof (prime_prefix_consecutive _ j p p' q Hpp1 Hn1 Hn' Hq Hqx) as Hqp.
        pose proof (proj1 (pow_pow_le q p k ltac:(lia) ltac:(lia)) Hqp). lia.
      * split; [exact Hjn|]. split; [discriminate|]. intros _. rewrite Hmin.
        split; [lia|]. intros w Hw Hvw.
        apply fermi_dirac_from_split in Hw. destruct Hw as [[q [Hq ->]]|Hw].
        { pose proof (is_prime_gt_1 q Hq) as Hq1.
          apply pow_pow_lt in Hvw; [|lia|lia].
          assert (Hqp' : p' <= q).
          { destruct (Z_lt_le_dec q p') as [Hq'|]; [|assumption].
            pose proof (prime_prefix_consecutive _ j p p' q Hpp1 Hn1 Hn' Hq Hq'). lia. }
          pose proof (proj1 (pow_pow_le p' q k ltac:(lia) ltac:(lia)) Hqp'). lia. }
        { destruct (Z_lt_le_dec w y) as [Hwy|]; [|lia]. specialize (HA w Hw Hwy). lia. }
    + (* after [yield y]: the next value of the next level *)
      destruct Hls as [[j [p [Hj [Hat [Hn Hx]]]]] [Hrest [Hv [Hyx HB]]]].
      destruct (Potencias.flat fuel (Datatypes.S k) rest P) as [[[y'|e|] rest'] P1] eqn:E2;
        try discriminate.
      inversion H; subst. clear H.
      destruct (IH (Datatypes.S k) P P' y y' rest' Hok (or_intror Hrest) E2)
        as [Hrest' [_ Hy]].
      destruct (Hy (level_ok_nonempty _ _ _ _ Hrest)) as [Hyy Hleast].
      destruct (flat_pulled fuel rest (Datatypes.S k) P) as [ys Hp2]. rewrite E2 in Hp2.
      simpl in Hp2.
      pose proof (pulled_primes_ok fuel _ _ _ Hp2 Hok) as Hok1.
      assert (Hpp : is_prime p).
      { destruct Hok as [[_ [_ [Hpr _]]] _]. apply Hpr. eapply nth_error_In; eauto. }
      destruct (join_level_ok P' k j st (p ^ 2 ^ Z.of_nat k) y' p rest') as [Hjn Hmin];
        [lia|eapply iter_at_pulled; eauto|eapply nth_error_pulled; eauto|assumption
        |reflexivity|assumption|eapply level_ok_fermi_dirac; [exact (proj1 Hok1)|eauto]| | |].
      * intros w Hw Hwy.
        destruct (Z_lt_le_dec y w) as [Hyw|]; [|lia].
        specialize (Hleast w Hw Hyw). lia.
      * intros _ q Hq Hqx. specialize (HB q Hq Hqx). lia.
      * split; [exact Hjn|]. split; [discriminate|]. intros _. rewrite Hmin.
        split; [lia|]. intros w Hw Hvw.
        apply fermi_dirac_from_split in Hw. destruct Hw as [[q [Hq ->]]|Hw].
        { destruct (Z_lt_le_dec (q ^ 2 ^ Z.of_nat k) (p ^ 2 ^ Z.of_nat k)) as [Hqx|]; [|lia].
          specialize (HB q Hq Hqx). lia. }
        { specialize (Hleast w Hw Hvw). lia. }
Qed.

Lemma fermi_dirac_prefix_nil : fermi_dirac_prefix [].
Proof.
  split.
  - intros i j Hij. simpl in Hij. lia.
  - intros w. split; [intros []|]. intros [Hw Hle]. unfold last_of in Hle. simpl in Hle.
    pose proof (fermi_dirac_from_least 0 w Hw) as H2. simpl in H2. lia.
Qed.

(** Appending the least power above its last value keeps the cache a list of
    all the powers up to its last value. *)
Lemma fermi_dirac_prefix_snoc (c : list Z) (v : Z) :
  fermi_dirac_prefix c -> fermi_dirac v ->
  last_of c < v ->
  (forall w, fermi_dirac w -> last_of c < w -> v <= w) ->
  fermi_dirac_prefix (c ++ [v]).
Proof.
  intros [Hinc Hall] Hv Hlt Hleast. split.
  - destruct c as [|a c'].
    + intros i j Hij. simpl in Hij. lia.
    + apply increasing_snoc; [simpl; lia|assumption|assumption].
  - intros w. rewrite last_of_snoc. split.
    + intros Hin. apply in_app_or in Hin. destruct Hin as [Hin|[<-|[]]].
      * apply Hall in Hin. destruct Hin as [Hw Hle]. split; [assumption|lia].
      * split; [assumption|lia].
    + intros [Hw Hle]. apply in_or_app.
      destruct (Z_le_gt_dec w (last_of c)) as [Hwl|Hwl].
      * left. apply Hall. split; assumption.
      * right. left. specialize (Hleast w Hw ltac:(lia)). lia.
Qed.

(** One pull of the iterator of [potencias] in a good state: a value it
    yields is the least power above the cache, and the state stays good. *)
Lemma potencias_next_step (fuel : nat) (s : LazySequence Z Potencias.gen_state) :
  potencias_ok s ->
  match fst (Potencias.next_iterator fuel (_cache s) (iterator s)) with
  | Ok v =>
      potencias_ok (mk_seq (_cache s ++ [v])
                      (snd (Potencias.next_iterator fuel (_cache s) (iterator s)))) /\
      fermi_dirac v /\ last_of (_cache s) < v /\
      (forall w, fermi_dirac w -> last_of (_cache s) < w -> v <= w)
  | _ =>
      potencias_ok (mk_seq (_cache s)
                      (snd (Potencias.next_iterator fuel (_cache s) (iterator s))))
  end.
Proof.
  destruct s as [c [g P]]. unfold potencias_ok. simpl.
  intros [Hok [Hpre Hg]].
  destruct g as [ls|]; [|simpl; auto].
  pose proof (flat_pulled fuel ls 0 P) as [xs Hp].
  destruct (Potencias.flat fuel 0 ls P) as [[[v|e|] ls'] P'] eqn:E; simpl in *.
  - pose proof (pulled_primes_ok fuel _ _ _ Hp Hok) as Hok'.
    assert (Hstep : level_ok P' 0 ls' v /\ last_of c < v /\
                    (forall w, fermi_dirac w -> last_of c < w -> v <= w)).
    { destruct Hg as [[-> ->]|[Hlen Hl]].
      - destruct (flat_step fuel [] 0 P P' 0 v ls' Hok (or_introl eq_refl) E)
          as [Hl' [Hv _]].
        specialize (Hv eq_refl). simpl in Hv. subst v.
        split; [assumption|]. split; [unfold last_of; simpl; lia|].
        intros w Hw _. pose proof (fermi_dirac_from_least 0 w Hw) as H2. simpl in H2. lia.
      - destruct (flat_step fuel ls 0 P P' (last_of c) v ls' Hok (or_intror Hl) E)
          as [Hl' [_ Hv]].
        destruct (Hv (level_ok_nonempty _ _ _ _ Hl)) as [Hlt Hleast].
        split; [assumption|]. split; assumption. }
    destruct Hstep as [Hl' [Hlt Hleast]].
    assert (Hfd : fermi_dirac v) by (eapply level_ok_fermi_dirac; [exact (proj1 Hok')|eauto]).
    split; [|split; [assumption|split; assumption]].
    split; [assumption|]. split; [now apply fermi_dirac_prefix_snoc|].
    right. rewrite length_app, last_of_snoc. simpl. split; [lia|assumption].
  - split; [exact (pulled_primes_ok fuel _ _ _ Hp Hok)|]. split; [assumption|exact I].
  - split; [exact (pulled_primes_ok fuel _ _ _ Hp Hok)|]. split; [assumption|exact I].
Qed.

Lemma pulled_potencias_ok (fuel : nat) (s s' : LazySequence Z Potencias.gen_state)
    (xs : list Z) :
  pulled (Potencias.next_iterator fuel) s xs s' -> potencias_ok s -> potencias_ok s'.
Proof.
  induction 1 as [s|s x it xs s' Hn Hp IH|s o it xs s' Hn Ho Hp IH]; intros Hok.
  - assumption.
  - apply IH. pose proof (potencias_next_step fuel s Hok) as Hs.
    rewrite Hn in Hs. simpl in Hs. apply Hs.
  - apply IH. pose proof (potencias_next_step fuel s Hok) as Hs.
    rewrite Hn in Hs. simpl in Hs.
    destruct o as [x|e|]; [exfalso; now apply (Ho x)|exact Hs|exact Hs].
Qed.

Lemma potencias_reachable_ok (s : LazySequence Z Potencias.gen_state) :
  potencias_reachable s -> potencias_ok s.
Proof.
  induction 1 as [P HP|s fuel o Hr IH|c g P fuel o Hr IH].
  - split; [exact (reachable_primes_ok P HP)|]. split; [apply fermi_dirac_prefix_nil|].
    left. split; reflexivity.
  - destruct (exec_pulled Potencias.gen_state (Potencias.next_iterator fuel)
                "LazySortedSequence" o s) as [xs Hp].
    exact (pulled_potencias_ok fuel _ _ _ Hp IH).
  - destruct IH as [Hok [Hpre Hg]]. simpl in *.
    destruct (exec_pulled Primes.gen_state (Primes.__genprimes fuel) "Primes" o P)
      as [xs Hp].
    split; [exact (pulled_primes_ok fuel _ _ _ Hp Hok)|]. split; [assumption|].
    simpl. destruct g as [ls|]; [|exact I].
    destruct Hg as [Hg|[Hlen Hl]]; [left; assumption|right].
    split; [assumption|]. eapply level_ok_pulled; eauto.
Qed.

(** X13: in every state [potencias] can reach, whatever is done meanwhile
    with the shared [primes], its cache lists, in strictly increasing
    order, exactly the numbers [p ** 2 ** k] ([p] prime) up to its last
    value. *)
Theorem potencias_cache_fermi_dirac (s : LazySequence Z Potencias.gen_state) :
  potencias_reachable s ->
  increasing (_cache s) /\
  (forall w, In w (_cache s) <-> fermi_dirac w /\ w <= last_of (_cache s)).
Proof.
  intros Hr. destruct (potencias_reachable_ok s Hr) as [_ [Hpre _]]. exact Hpre.
Qed.

Lemma potencias_cache_fermi_dirac_witness :
  increasing
    (_cache (exec (Potencias.next_iterator 30) "LazySortedSequence" (OpGetitem 20) potencias)) /\
  (forall w,
     In w (_cache (exec (Potencias.next_iterator 30) "LazySortedSequence" (OpGetitem 20)
                     potencias)) <->
     fermi_dirac w /\
     w <= last_of (_cache (exec (Potencias.next_iterator 30) "LazySortedSequence"
                             (OpGetitem 20) potencias))).
Proof.
  apply (potencias_cache_fermi_dirac
           (exec (Potencias.next_iterator 30) "LazySortedSequence" (OpGetitem 20) potencias)).
  apply pot_exec. apply pot_init. apply reach_init.
Defined.

(** An iteration over [primes] that stands below [sys.maxsize] yields its
    next value, given enough fuel, and the same with more; [primes] grows
    by one value at most. *)
Lemma iter_next_enough (j : nat) (st : iter_state) (P : Potencias.primes_state) :
  primes_ok P -> iter_at j st P -> Z.of_nat j < INFINITE ->
  exists (F : nat) (x : Z) (st' : iter_state) (P' : Potencias.primes_state),
    size P' = Z.max (size P) (Z.of_nat j + 1) /\
    forall fuel : nat, (F <= fuel)%nat ->
      iter_next (Primes.__genprimes fuel) st P = (Ok x, st', P').
Proof.
  intros Hok Hat Hj.
  destruct (primes_getitem (Z.of_nat j) P Hok ltac:(lia)) as [F [p [P' [_ [_ [Hsz' Hget]]]]]].
  assert (Hinf : (Z.of_nat j <? INFINITE) = true) by now apply Z.ltb_lt.
  destruct st as [j'|i|]; simpl in Hat.
  - destruct Hat as [-> Hlen]. simpl.
    destruct (nth_error (_cache P) j) as [x|] eqn:E.
    + exists 0%nat, x, (IterCache (Datatypes.S j)), P. split; [|intros fuel _; reflexivity].
      assert (j < List.length (_cache P))%nat by (apply nth_error_Some; congruence).
      unfold size. lia.
    + apply nth_error_None in E.
      assert (Hsz : size P = Z.of_nat j) by (unfold size; f_equal; lia).
      exists F, p, (IterIndex (Z.of_nat j + 1)), P'. split; [assumption|]. intros fuel Hf.
      rewrite Hsz. unfold iter_index. rewrite Hinf. now rewrite (Hget fuel Hf).
  - subst i. exists F, p, (IterIndex (Z.of_nat j + 1)), P'. split; [assumption|].
    intros fuel Hf. simpl. unfold iter_index. rewrite Hinf. now rewrite (Hget fuel Hf).
  - destruct Hat.
Qed.

Lemma mkiter_enough (k j : nat) (st : iter_state) (P : Potencias.primes_state) :
  primes_ok P -> iter_at j st P -> Z.of_nat j < INFINITE ->
  exists (F : nat) (x : Z) (st' : iter_state) (P' : Potencias.primes_state),
    size P' = Z.max (size P) (Z.of_nat j + 1) /\
    forall fuel : nat, (F <= fuel)%nat ->
      Potencias.mkiter fuel k st P = (Ok x, st', P').
Proof.
  intros Hok Hat Hj.
  destruct (iter_next_enough j st P Hok Hat Hj) as [F [p [st' [P' [Hsz H]]]]].
  exists F, (p ^ 2 ^ Z.of_nat k), st', P'. split; [assumption|]. intros fuel Hf.
  unfold Potencias.mkiter. now rewrite (H fuel Hf).
Qed.

Lemma primes_ok_size (P : Potencias.primes_state) : primes_ok P -> 2 <= size P.
Proof.
  intros [Hpp _]. destruct (prime_prefix_length _ Hpp) as [Hlen _]. unfold size. lia.
Qed.

Lemma flat_start_enough (k : nat) (P : Potencias.primes_state) :
  primes_ok P ->
  exists (F : nat) (v : Z) (ls' : list Potencias.level) (P' : Potencias.primes_state),
    size P' = size P /\
    forall fuel : nat, (F <= fuel)%nat -> Potencias.flat fuel k [] P = (Ok v, ls', P').
Proof.
  intros Hok. pose proof (primes_ok_size P Hok) as H2.
  destruct (mkiter_enough k 0 (IterCache 0) P Hok) as [F [x [st' [P' [Hsz H]]]]];
    [simpl; split; [reflexivity|lia]|reflexivity|].
  exists F, x, [Potencias.Head st'], P'. split; [simpl in Hsz; lia|]. intros fuel Hf.
  cbn [Potencias.flat]. now rewrite (H fuel Hf).
Qed.

(** While [primes] holds fewer than [sys.maxsize] values, [flat] yields its
    next value, given enough fuel, and the same with more; [primes] grows
    by one value at most. *)
Lemma flat_productive (ls : list Potencias.level) :
  forall (k : nat) (P : Potencias.primes_state) (v : Z),
  primes_ok P ->
  ls = [] \/ level_ok P k ls v ->
  size P < INFINITE ->
  exists (F : nat) (v' : Z) (ls' : list Potencias.level) (P' : Potencias.primes_state),
    size P' <= size P + 1 /\
    forall fuel : nat, (F <= fuel)%nat -> Potencias.flat fuel k ls P = (Ok v', ls', P').
Proof.
  induction ls as [|l rest IH]; intros k P v Hok Hls Hsz.
  - destruct (flat_start_enough k P Hok) as [F [v' [ls' [P' [Hs H]]]]].
    exists F, v', ls', P'. split; [lia|assumption].
  - destruct Hls as [Hls|Hls]; [discriminate|].
    pose proof (primes_ok_size P Hok) as Hsz2.
    destruct l as [st|st x y [|]]; cbn [level_ok] in Hls.
    + destruct Hls as [-> [Hat Hv]].
      destruct (mkiter_enough k 1 st P Hok Hat) as [F1 [x [st1 [P1 [Hs1 H1]]]]];
        [reflexivity|].
      destruct (mkiter_Ok F1 k 1 st st1 P P1 x Hat (H1 F1 (Nat.le_refl _)))
        as [_ [_ [xs Hp]]].
      pose proof (pulled_primes_ok F1 _ _ _ Hp Hok) as Hok1.
      destruct (flat_start_enough (Datatypes.S k) P1 Hok1) as [F2 [y [rest' [P2 [Hs2 H2]]]]].
      exists (Nat.max F1 F2), (fst (Potencias.join st1 x y)),
        (snd (Potencias.join st1 x y) :: rest'), P2.
      split; [simpl in Hs1; lia|].
      intros fuel Hf. pose proof (H2 fuel ltac:(lia)) as H2'.
      cbn [Potencias.flat] in *. rewrite (H1 fuel) by lia. now rewrite H2'.
    + destruct Hls as [[j [p [Hj [Hat [Hn Hx]]]]] _].
      assert (Hjl : (j < List.length (_cache P))%nat) by (apply nth_error_Some; congruence).
      destruct (mkiter_enough k (Datatypes.S j) st P Hok Hat) as [F1 [x' [st1 [P1 [Hs1 H1]]]]];
        [unfold size in Hsz; lia|].
      exists F1, (fst (Potencias.join st1 x' y)), (snd (Potencias.join st1 x' y) :: rest), P1.
      split; [unfold size in *; lia|].
      intros fuel Hf. cbn [Potencias.flat]. now rewrite (H1 fuel Hf).
    + destruct Hls as [_ [Hrest _]].
      destruct (IH (Datatypes.S k) P y Hok (or_intror Hrest) Hsz)
        as [F [y' [rest' [P1 [Hs1 H1]]]]].
      exists F, (fst (Potencias.join st x y')), (snd (Potencias.join st x y') :: rest'), P1.
      split; [assumption|].
      intros fuel Hf. cbn [Potencias.flat]. now rewrite (H1 fuel Hf).
Qed.

(** X14: [next(potencias)], in a state [potencias] can reach, with its
    generator not ended and [primes] holding fewer than [sys.maxsize]
    values: given enough fuel it returns the least number [p ** 2 ** k]
    above the cache and appends it. *)
Theorem potencias_next_least
    (s : LazySequence Z Potencias.gen_state) (ls : list Potencias.level) :
  potencias_reachable s ->
  fst (iterator s) = Some ls ->
  size (snd (iterator s)) < INFINITE ->
  exists (F : nat) (v : Z) (s' : LazySequence Z Potencias.gen_state),
    (forall fuel : nat, (F <= fuel)%nat ->
       __next__ (Potencias.next_iterator fuel) s = (Ok v, s')) /\
    _cache s' = _cache s ++ [v] /\
    fermi_dirac v /\ last_of (_cache s) < v /\
    (forall w, fermi_dirac w -> last_of (_cache s) < w -> v <= w).
Proof.
  intros Hr Hg Hsz. pose proof (potencias_reachable_ok s Hr) as Hok.
  pose proof Hok as [HP [_ Hl]]. rewrite Hg in Hl.
  destruct s as [c [g P]]. simpl in *. subst g.
  assert (Hls : ls = [] \/ level_ok P 0 ls (last_of c)).
  { destruct Hl as [[-> _]|[_ Hl]]; [left; reflexivity|right; assumption]. }
  destruct (flat_productive ls 0 P (last_of c) HP Hls Hsz) as [F [v [ls' [P' [_ H]]]]].
  exists F, v, (mk_seq (c ++ [v]) (Some ls', P')).
  split; [|split; [reflexivity|]].
  - intros fuel Hf. unfold __next__. simpl. now rewrite (H fuel Hf).
  - pose proof (potencias_next_step F _ Hok) as Hs. simpl in Hs.
    rewrite (H F (Nat.le_refl _)) in Hs. simpl in Hs. apply Hs.
Qed.

Lemma potencias_next_least_witness :
  exists (F : nat) (v : Z) (s' : LazySequence Z Potencias.gen_state),
    (forall fuel : nat, (F <= fuel)%nat ->
       __next__ (Potencias.next_iterator fuel) potencias = (Ok v, s')) /\
    _cache s' = _cache potencias ++ [v] /\
    fermi_dirac v /\ last_of (_cache potencias) < v /\
    (forall w, fermi_dirac w -> last_of (_cache potencias) < w -> v <= w).
Proof.
  apply (potencias_next_least potencias []).
  - apply pot_init. apply reach_init.
  - reflexivity.
  - reflexivity.
Defined.

(** ** [LazySequence.islice] *)

(** The values of [range(a, b, k)] for a positive step, one at a time. *)
Lemma range_elems_cons (a b k : Z) :
  0 < k ->
  range_elems (mk_range a b k)
  = if a <? b then a :: range_elems (mk_range (a + k) b k) else [].
Proof.
  intros Hk. unfold range_elems, range_len. cbn [r_start r_stop r_step].
  assert (Hk' : (0 <? k) = true) by now apply Z.ltb_lt.
  rewrite Hk'. destruct (a <? b) eqn:E; [|reflexivity].
  apply Z.ltb_lt in E.
  assert (Hlen : Z.to_nat ((b - a - 1) / k + 1)
                 = Datatypes.S (Z.to_nat (if a + k <? b then (b - (a + k) - 1) / k + 1 else 0))).
  { destruct (a + k <? b) eqn:E2.
    - apply Z.ltb_lt in E2.
      replace (b - a - 1) with ((b - (a + k) - 1) + 1 * k) by lia.
      rewrite Z.div_add by lia.
      assert (0 <= (b - (a + k) - 1) / k) by (apply Z.div_pos; lia). lia.
    - apply Z.ltb_ge in E2. rewrite Z.div_small by lia. reflexivity. }
  rewrite Hlen. cbn [seq map]. f_equal; [lia|].
  rewrite <- seq_shift, map_map. apply map_ext. intros n. lia.
Qed.

Lemma range_len_cons (a b k : Z) :
  0 < k -> a < b ->
  Z.to_nat (range_len (mk_range a b k))
  = Datatypes.S (Z.to_nat (range_len (mk_range (a + k) b k))).
Proof.
  intros Hk Hab.
  pose proof (f_equal (@List.length Z) (range_elems_cons a b k Hk)) as H.
  apply Z.ltb_lt in Hab. rewrite Hab in H.
  unfold range_elems in H. cbn [List.length] in H.
  now rewrite !length_map, !length_seq in H.
Qed.

Lemma range_getitem_slice_step (a b k : Z) :
  0 <= a <= INFINITE -> 0 <= b <= INFINITE -> 0 < k ->
  range_getitem_slice INFINITE (mk_slice (Some a) (Some b) (Some k)) = Ok (mk_range a b k).
Proof.
  intros Ha Hb Hk. unfold range_getitem_slice, slice_bound. cbn [sl_start sl_stop sl_step].
  destruct (k =? 0) eqn:E0; [apply Z.eqb_eq in E0; lia|].
  destruct (k <? 0) eqn:E; [apply Z.ltb_lt in E; lia|].
  destruct (a <? 0) eqn:E1; [apply Z.ltb_lt in E1; lia|].
  destruct (b <? 0) eqn:E2; [apply Z.ltb_lt in E2; lia|].
  destruct (INFINITE <? a) eqn:E3; [apply Z.ltb_lt in E3; lia|].
  destruct (INFINITE <? b) eqn:E4; [apply Z.ltb_lt in E4; lia|].
  reflexivity.
Qed.

Section IsliceFacts.

Variables T S : Type.
Variable next_iterator : list T -> S -> outcome T * S.

Local Abbreviation at_ := (__getitem_int__ next_iterator).

Lemma extend_islice_not_stop (k : nat) : forall (s s' : LazySequence T S) (e : exn),
  extend_islice next_iterator k s = (Raise e, s') -> e <> StopIteration.
Proof.
  induction k as [|k IH]; intros s s' e H; simpl in H; [discriminate|].
  destruct (next_iterator (_cache s) (iterator s)) as [[x|e1|] it].
  - eapply IH; eauto.
  - destruct e1; inversion H; subst; discriminate.
  - discriminate.
Qed.

(** Indexing never raises [StopIteration]. *)
Lemma getitem_int_not_stop (i : Z) (s s' : LazySequence T S) (e : exn) :
  at_ i s = (Raise e, s') -> e <> StopIteration.
Proof.
  unfold __getitem_int__. destruct (i <? 0); [intros H; inversion H; discriminate|].
  destruct (size s <=? i).
  - destruct (INFINITE <? i - size s + 1); [intros H; inversion H; discriminate|].
    destruct (extend_islice next_iterator (Z.to_nat (i - size s + 1)) s)
      as [[u|e1|] s1] eqn:E; intros H.
    + inversion H as [[H1 H2]]. unfold list_getitem in H1.
      destruct ((if i <? 0 then i + Z.of_nat (List.length (_cache s1)) else i) <? 0);
        simpl in H1; [inversion H1; discriminate|].
      destruct (Z.of_nat (List.length (_cache s1)) <=?
                (if i <? 0 then i + Z.of_nat (List.length (_cache s1)) else i));
        [inversion H1; discriminate|].
      destruct (nth_error (_cache s1)
                  (Z.to_nat (if i <? 0 then i + Z.of_nat (List.length (_cache s1)) else i)));
        [discriminate|inversion H1; discriminate].
    + inversion H; subst. eapply extend_islice_not_stop; eauto.
    + discriminate.
  - intros H. inversion H as [[H1 H2]]. unfold list_getitem in H1.
    destruct ((if i <? 0 then i + Z.of_nat (List.length (_cache s)) else i) <? 0);
      simpl in H1; [inversion H1; discriminate|].
    destruct (Z.of_nat (List.length (_cache s)) <=?
              (if i <? 0 then i + Z.of_nat (List.length (_cache s)) else i));
      [inversion H1; discriminate|].
    destruct (nth_error (_cache s)
                (Z.to_nat (if i <? 0 then i + Z.of_nat (List.length (_cache s)) else i)));
      [discriminate|inversion H1; discriminate].
Qed.

(** Run to its end, the generator gives what the comprehension over the
    same range gives, and leaves the sequence in the same state. *)
Lemma islice_run_list (b k : Z) (fuel : nat) : forall (i : Z) (s : LazySequence T S),
  0 < k ->
  (Z.to_nat (range_len (mk_range i b k)) < fuel)%nat ->
  islice_to_list next_iterator fuel (IsliceRun i b k) s
  = list_comp at_ (range_elems (mk_range i b k)) s.
Proof.
  induction fuel as [|f IH]; intros i s Hk Hf; [lia|].
  assert (Hk' : (0 <? k) = true) by now apply Z.ltb_lt.
  rewrite (range_elems_cons i b k Hk).
  cbn [islice_to_list islice_next]. unfold islice_run. rewrite Hk'.
  destruct (i <? b) eqn:E; [|reflexivity].
  apply Z.ltb_lt in E. rewrite (range_len_cons i b k Hk E) in Hf.
  cbn [list_comp]. unfold bind at 1.
  destruct (at_ i s) as [[x|e|] s1] eqn:Eat.
  - rewrite (IH (i + k) s1 Hk) by lia. unfold bind, ret.
    destruct (list_comp at_ (range_elems (mk_range (i + k) b k)) s1) as [[xs|e|] s2];
      reflexivity.
  - pose proof (getitem_int_not_stop i s s1 e Eat) as Hne.
    destruct e; try reflexivity. now elim Hne.
  - reflexivity.
Qed.

(** X15: for bounds from 0 to [sys.maxsize] and a positive step,
    [list(s.islice(a, b, k))] is [s[a:b:k]]: the same result, exception
    or not, and the same state afterwards; and [list(s.islice(b))], where
    [stop] is left at its default [-1], is [s[0:b]], with any step [k] in
    third place [s[0:b:k]]. *)
Theorem islice_is_slice (a b k : Z) (fuel : nat) (s : LazySequence T S) :
  0 <= a <= INFINITE -> 0 <= b <= INFINITE -> 0 < k ->
  (Z.to_nat (range_len (mk_range 0 b k)) < fuel)%nat ->
  islice_to_list next_iterator fuel (IsliceStart (Some a) (Some b) k) s
  = __getitem_slice__ next_iterator (mk_slice (Some a) (Some b) (Some k)) s /\
  islice_to_list next_iterator fuel (IsliceStart (Some b) (Some (-1)) k) s
  = __getitem_slice__ next_iterator (mk_slice (Some 0) (Some b) (Some k)) s.
Proof.
  intros Ha Hb Hk Hf.
  assert (Hk0 : (k =? 0) = false) by (apply Z.eqb_neq; lia).
  assert (Hlen : (Z.to_nat (range_len (mk_range a b k)) < fuel)%nat).
  { assert (Hle : range_len (mk_range a b k) <= range_len (mk_range 0 b k)); [|lia].
    unfold range_len. cbn [r_start r_stop r_step].
    assert (Hk' : (0 <? k) = true) by now apply Z.ltb_lt. rewrite Hk'.
    destruct (a <? b) eqn:E1; destruct (0 <? b) eqn:E2;
      try apply Z.ltb_lt in E1; try apply Z.ltb_lt in E2;
      try apply Z.ltb_ge in E1; try apply Z.ltb_ge in E2; try lia.
    - apply Z.add_le_mono_r. apply Z.div_le_mono; lia.
    - assert (0 <= (b - 0 - 1) / k) by (apply Z.div_pos; lia). lia. }
  unfold __getitem_slice__.
  rewrite !range_getitem_slice_step by lia.
  rewrite <- (islice_run_list b k fuel a s Hk Hlen), <- (islice_run_list b k fuel 0 s Hk Hf).
  destruct fuel as [|f]; [lia|].
  assert (Hb1 : Some b <> Some (-1)) by (intros H; inversion H; lia).
  split.
  - cbn [islice_to_list islice_next]. unfold islice_range. rewrite Hk0.
    destruct b as [|pb|pb]; try reflexivity. lia.
  - cbn [islice_to_list islice_next]. unfold islice_range. rewrite Hk0. reflexivity.
Qed.

End IsliceFacts.

Lemma islice_is_slice_witness :
  islice_to_list squares_next 10 (IsliceStart (Some 2) (Some 7) 2) Squares
  = __getitem_slice__ squares_next (mk_slice (Some 2) (Some 7) (Some 2)) Squares /\
  islice_to_list squares_next 10 (IsliceStart (Some 7) (Some (-1)) 2) Squares
  = __getitem_slice__ squares_next (mk_slice (Some 0) (Some 7) (Some 2)) Squares.
Proof.
  apply (islice_is_slice Z Z squares_next 2 7 2 10 Squares).
  - split; [lia|]. intros H. discriminate H.
  - split; [lia|]. intros H. discriminate H.
  - lia.
  - vm_compute. lia.
Defined.

(** ** GenericRange *)

Lemma range_len_nonneg (r : range) : 0 <= range_len r.
Proof.
  unfold range_len. destruct (0 <? r_step r) eqn:E.
  - apply Z.ltb_lt in E. destruct (r_start r <? r_stop r) eqn:E1; [|lia].
    apply Z.ltb_lt in E1.
    assert (0 <= (r_stop r - r_start r - 1) / r_step r) by (apply Z.div_pos; lia). lia.
  - apply Z.ltb_ge in E. destruct (r_stop r <? r_start r) eqn:E1; [|lia].
    apply Z.ltb_lt in E1.
    destruct (Z.eq_dec (r_step r) 0) as [H0|H0].
    + rewrite H0. simpl. rewrite Zdiv_0_r. lia.
    + assert (0 <= (r_start r - r_stop r - 1) / - r_step r) by (apply Z.div_pos; lia). lia.
Qed.

(** A position below the length of a range is before its end. *)
Lemma range_len_position (a b k i : Z) :
  k <> 0 -> 0 <= i < range_len (mk_range a b k) ->
  (0 < k -> i * k < b - a) /\ (k < 0 -> i * - k < a - b).
Proof.
  intros Hk [Hi0 Hi]. unfold range_len in Hi. cbn [r_start r_stop r_step] in Hi.
  destruct (0 <? k) eqn:E.
  - apply Z.ltb_lt in E. split; [intros _|lia].
    destruct (a <? b) eqn:E1; [|lia]. apply Z.ltb_lt in E1.
    pose proof (Z.mul_div_le (b - a - 1) k E). nia.
  - apply Z.ltb_ge in E. split; [lia|intros _].
    destruct (b <? a) eqn:E1; [|lia]. apply Z.ltb_lt in E1.
    pose proof (Z.mul_div_le (a - b - 1) (- k) ltac:(lia)). nia.
Qed.

(** The bounds [slice.indices] finds. *)
Lemma slice_indices_bounds (len : Z) (sl : slice) (ix : range) :
  0 <= len -> range_getitem_slice len sl = Ok ix ->
  r_step ix <> 0 /\
  (0 < r_step ix -> 0 <= r_start ix <= len /\ 0 <= r_stop ix <= len) /\
  (r_step ix < 0 -> -1 <= r_start ix <= len - 1 /\ -1 <= r_stop ix <= len - 1).
Proof.
  intros Hlen. unfold range_getitem_slice.
  set (step := match sl_step sl with Some s => s | None => 1 end).
  destruct (step =? 0) eqn:E0; [discriminate|]. apply Z.eqb_neq in E0.
  intros H. inversion H; subst ix; clear H. cbn [r_start r_stop r_step].
  split; [assumption|].
  unfold slice_bound.
  destruct (step <? 0) eqn:E; [apply Z.ltb_lt in E|apply Z.ltb_ge in E].
  - split; [lia|intros _].
    destruct (sl_start sl) as [u|]; destruct (sl_stop sl) as [w|];
      repeat match goal with
             | |- context [if ?c then _ else _] => destruct c eqn:?
             end;
      repeat match goal with
             | H : (_ <? _) = true |- _ => apply Z.ltb_lt in H
             | H : (_ <? _) = false |- _ => apply Z.ltb_ge in H
             end; lia.
  - split; [intros _|lia].
    destruct (sl_start sl) as [u|]; destruct (sl_stop sl) as [w|];
      repeat match goal with
             | |- context [if ?c then _ else _] => destruct c eqn:?
             end;
      repeat match goal with
             | H : (_ <? _) = true |- _ => apply Z.ltb_lt in H
             | H : (_ <? _) = false |- _ => apply Z.ltb_ge in H
             end; lia.
Qed.

(** The positions a slice of a range selects are positions of the range. *)
Lemma slice_position_in_range (r ix : range) (sl : slice) (i : Z) :
  r_step r <> 0 ->
  range_getitem_slice (range_len r) sl = Ok ix ->
  0 <= i < range_len (mk_range (r_start r + r_start ix * r_step r)
                               (r_start r + r_stop ix * r_step r)
                               (r_step r * r_step ix)) ->
  0 <= r_start ix + i * r_step ix < range_len r.
Proof.
  intros Hst Hix Hi.
  destruct (slice_indices_bounds _ _ _ (range_len_nonneg r) Hix) as [Hk [Hpos Hneg]].
  assert (Hd : r_step r * r_step ix <> 0).
  { intros H0. apply Z.mul_eq_0 in H0. destruct H0; contradiction. }
  destruct (range_len_position _ _ _ i Hd Hi) as [Hp Hn].
  pose proof (range_len_nonneg r) as HL.
  destruct r as [a b st]. destruct ix as [s e k]. cbn [r_start r_stop r_step] in *.
  set (L := range_len (mk_range a b st)) in *. clearbody L.
  destruct Hi as [Hi0 _]. clear Hix.
  destruct (Z_lt_le_dec 0 k) as [Hk1|Hk1].
  - destruct (Hpos Hk1) as [Hs He].
    destruct (Z_lt_le_dec 0 st) as [Hs1|Hs1].
    + assert (H1 : 0 < st * k) by nia. specialize (Hp H1).
      assert (Hq : (i * k) * st < (e - s) * st) by lia.
      apply Z.mul_lt_mono_pos_r in Hq; [|lia]. nia.
    + assert (H1 : st * k < 0) by nia. specialize (Hn H1).
      assert (Hq : (i * k) * (- st) < (e - s) * (- st)) by lia.
      apply Z.mul_lt_mono_pos_r in Hq; [|lia]. nia.
  - destruct (Hneg ltac:(lia)) as [Hs He].
    destruct (Z_lt_le_dec 0 st) as [Hs1|Hs1].
    + assert (H1 : st * k < 0) by nia. specialize (Hn H1).
      assert (Hq : (- (i * k)) * st < (s - e) * st) by lia.
      apply Z.mul_lt_mono_pos_r in Hq; [|lia]. nia.
    + assert (H1 : 0 < st * k) by nia. specialize (Hp H1).
      assert (Hq : (- (i * k)) * (- st) < (s - e) * (- st)) by lia.
      apply Z.mul_lt_mono_pos_r in Hq; [|lia]. nia.
Qed.

Lemma range_getitem_position (r : range) (j : Z) :
  0 <= j < range_len r ->
  GenericRange.range_getitem r j = Ok (r_start r + j * r_step r).
Proof.
  intros Hj. unfold GenericRange.range_getitem.
  destruct (j <? 0) eqn:E; [apply Z.ltb_lt in E; lia|]. rewrite E.
  destruct (range_len r <=? j) eqn:E1; [apply Z.leb_le in E1; lia|]. reflexivity.
Qed.

(** Scaling the bounds and the step of a range keeps its length. *)
Lemma div_scale (d k st : Z) :
  0 < k -> 0 < st -> 0 <= d -> ((d + 1) * st - 1) / (st * k) = d / k.
Proof.
  intros Hk Hst Hd. symmetry.
  apply (Z.div_unique_pos _ _ _ ((d mod k) * st + st - 1)).
  - pose proof (Z.mod_pos_bound d k Hk). nia.
  - pose proof (Z.div_mod d k ltac:(lia)). nia.
Qed.

Lemma range_len_scale (a s e k st : Z) :
  k <> 0 -> st <> 0 ->
  range_len (mk_range (a + s * st) (a + e * st) (st * k)) = range_len (mk_range s e k).
Proof.
  intros Hk Hst. unfold range_len. cbn [r_start r_stop r_step].
  destruct (Z_lt_le_dec 0 k) as [Hk1|Hk1]; destruct (Z_lt_le_dec 0 st) as [Hs1|Hs1].
  - assert (H1 : (0 <? st * k) = true) by (apply Z.ltb_lt; nia).
    assert (H2 : (0 <? k) = true) by (apply Z.ltb_lt; lia). rewrite H1, H2.
    destruct (s <? e) eqn:E; [apply Z.ltb_lt in E|apply Z.ltb_ge in E].
    + assert (H3 : (a + s * st <? a + e * st) = true) by (apply Z.ltb_lt; nia). rewrite H3.
      replace (a + e * st - (a + s * st) - 1) with ((e - s - 1 + 1) * st - 1) by ring.
      rewrite div_scale by lia. reflexivity.
    + assert (H3 : (a + s * st <? a + e * st) = false) by (apply Z.ltb_ge; nia). now rewrite H3.
  - assert (H1 : (0 <? st * k) = false) by (apply Z.ltb_ge; nia).
    assert (H2 : (0 <? k) = true) by (apply Z.ltb_lt; lia). rewrite H1, H2.
    destruct (s <? e) eqn:E; [apply Z.ltb_lt in E|apply Z.ltb_ge in E].
    + assert (H3 : (a + e * st <? a + s * st) = true) by (apply Z.ltb_lt; nia). rewrite H3.
      replace (a + s * st - (a + e * st) - 1) with ((e - s - 1 + 1) * (- st) - 1) by ring.
      replace (- (st * k)) with (- st * k) by ring.
      rewrite div_scale by lia. reflexivity.
    + assert (H3 : (a + e * st <? a + s * st) = false) by (apply Z.ltb_ge; nia). now rewrite H3.
  - assert (H1 : (0 <? st * k) = false) by (apply Z.ltb_ge; nia).
    assert (H2 : (0 <? k) = false) by (apply Z.ltb_ge; lia). rewrite H1, H2.
    destruct (e <? s) eqn:E; [apply Z.ltb_lt in E|apply Z.ltb_ge in E].
    + assert (H3 : (a + e * st <? a + s * st) = true) by (apply Z.ltb_lt; nia). rewrite H3.
      replace (a + s * st - (a + e * st) - 1) with ((s - e - 1 + 1) * st - 1) by ring.
      replace (- (st * k)) with (st * - k) by ring.
      rewrite div_scale by lia. reflexivity.
    + assert (H3 : (a + e * st <? a + s * st) = false) by (apply Z.ltb_ge; nia). now rewrite H3.
  - assert (H1 : (0 <? st * k) = true) by (apply Z.ltb_lt; nia).
    assert (H2 : (0 <? k) = false) by (apply Z.ltb_ge; lia). rewrite H1, H2.
    destruct (e <? s) eqn:E; [apply Z.ltb_lt in E|apply Z.ltb_ge in E].
    + assert (H3 : (a + s * st <? a + e * st) = true) by (apply Z.ltb_lt; nia). rewrite H3.
      replace (a + e * st - (a + s * st) - 1) with ((s - e - 1 + 1) * (- st) - 1) by ring.
      replace (st * k) with (- st * - k) by ring.
      rewrite div_scale by lia. reflexivity.
    + assert (H3 : (a + s * st <? a + e * st) = false) by (apply Z.ltb_ge; nia). now rewrite H3.
Qed.

Section GenericRangeFacts.

Variable getitem : Z -> outcome Z.

(** X16: a slice of a GenericRange is a GenericRange of the same class,
    with as many values as [slice.indices] selects positions, whose value
    at position [i] is the value of the original at the position selected,
    [start + i * step]; that position is within the original. *)
Theorem genericrange_slice_getitem (r ix : range) (sl : slice) :
  r_step r <> 0 ->
  range_getitem_slice (range_len r) sl = Ok ix ->
  exists r' : range,
    GenericRange.__getitem_slice__ r sl = Ok r' /\
    range_len r' = range_len ix /\
    forall i : Z, 0 <= i < range_len r' ->
      0 <= r_start ix + i * r_step ix < range_len r /\
      GenericRange.__getitem_int__ getitem r' i
      = GenericRange.__getitem_int__ getitem r (r_start ix + i * r_step ix).
Proof.
  intros Hst Hix.
  exists (mk_range (r_start r + r_start ix * r_step r)
                   (r_start r + r_stop ix * r_step r)
                   (r_step r * r_step ix)).
  split; [|split].
  - unfold GenericRange.__getitem_slice__, GenericRange.range_getslice. rewrite Hix.
    reflexivity.
  - destruct (slice_indices_bounds _ _ _ (range_len_nonneg r) Hix) as [Hk _].
    destruct ix as [s e k]. cbn [r_start r_stop r_step] in *.
    now apply range_len_scale.
  - intros i Hi. pose proof (slice_position_in_range r ix sl i Hst Hix Hi) as Hj.
    split; [assumption|].
    unfold GenericRange.__getitem_int__.
    rewrite (range_getitem_position _ i Hi), (range_getitem_position r _ Hj).
    cbn [r_start r_step]. f_equal. ring.
Qed.

End GenericRangeFacts.

Lemma genericrange_slice_getitem_witness :
  exists r' : range,
    GenericRange.__getitem_slice__ (mk_range 10 50 3) (mk_slice (Some (-2)) None (Some (-4)))
    = Ok r' /\
    range_len r' = range_len (mk_range 12 (-1) (-4)) /\
    forall i : Z, 0 <= i < range_len r' ->
      0 <= r_start (mk_range 12 (-1) (-4)) + i * r_step (mk_range 12 (-1) (-4))
        < range_len (mk_range 10 50 3) /\
      GenericRange.__getitem_int__ (fun pos => Ok (pos * pos)) r' i
      = GenericRange.__getitem_int__ (fun pos => Ok (pos * pos)) (mk_range 10 50 3)
          (r_start (mk_range 12 (-1) (-4)) + i * r_step (mk_range 12 (-1) (-4))).
Proof.
  apply (genericrange_slice_getitem (fun pos => Ok (pos * pos)) (mk_range 10 50 3)
           (mk_range 12 (-1) (-4)) (mk_slice (Some (-2)) None (Some (-4)))).
  - simpl. lia.
  - reflexivity.
Defined.

Section GenericRangeIndex.

Variable getitem : Z -> outcome Z.

(** X17: [GenericRange(n)] holds [range(0, n, 1)], and [len] of it is [n],
    0 for a negative [n], and an [OverflowError] above [sys.maxsize];
    indexing a GenericRange with an [int] from
    [-len] to [len - 1] calls [getitem] on the value of the range at that
    position, counted from the end when negative, and returns what it
    returns; any other index raises [IndexError] and [getitem] is not
    called. *)
Theorem genericrange_getitem_int (r : range) (n idx : Z) :
  (GenericRange.__init__ n None 1 = Ok (mk_range 0 n 1) /\
   GenericRange.__len__ (mk_range 0 n 1)
   = if n <=? INFINITE then Ok (Z.max 0 n) else Raise OverflowError) /\
  (- range_len r <= idx < range_len r ->
   GenericRange.__getitem_int__ getitem r idx
   = getitem (r_start r + (idx mod range_len r) * r_step r)) /\
  (idx < - range_len r \/ range_len r <= idx ->
   GenericRange.__getitem_int__ getitem r idx = Raise IndexError).
Proof.
  split; [split; [reflexivity|]|split].
  - assert (Hlen : range_len (mk_range 0 n 1) = Z.max 0 n).
    { unfold range_len. cbn [r_start r_stop r_step]. change (0 <? 1) with true. cbv iota.
      destruct (0 <? n) eqn:E; [apply Z.ltb_lt in E|apply Z.ltb_ge in E; lia].
      rewrite Z.div_1_r. lia. }
    unfold GenericRange.__len__. rewrite Hlen.
    assert (H0 : 0 <= INFINITE) by (intros H; discriminate H).
    destruct (n <=? INFINITE) eqn:E; [apply Z.leb_le in E|apply Z.leb_gt in E].
    + destruct (Z.max 0 n <=? INFINITE) eqn:E1; [reflexivity|apply Z.leb_gt in E1; lia].
    + destruct (Z.max 0 n <=? INFINITE) eqn:E1; [apply Z.leb_le in E1; lia|reflexivity].
  - intros Hidx. unfold GenericRange.__getitem_int__, GenericRange.range_getitem.
    destruct (idx <? 0) eqn:E; [apply Z.ltb_lt in E|apply Z.ltb_ge in E].
    + destruct (idx + range_len r <? 0) eqn:E1; [apply Z.ltb_lt in E1; lia|].
      destruct (range_len r <=? idx + range_len r) eqn:E2; [apply Z.leb_le in E2; lia|].
      simpl. replace (idx mod range_len r) with (idx + range_len r); [reflexivity|].
      apply (Z.mod_unique_pos _ _ (-1)); lia.
    + destruct (idx <? 0) eqn:E1; [apply Z.ltb_lt in E1; lia|].
      destruct (range_len r <=? idx) eqn:E2; [apply Z.leb_le in E2; lia|].
      simpl. rewrite Z.mod_small by lia. reflexivity.
  - intros Hidx. pose proof (range_len_nonneg r) as HL.
    unfold GenericRange.__getitem_int__, GenericRange.range_getitem.
    destruct (idx <? 0) eqn:E; [apply Z.ltb_lt in E|apply Z.ltb_ge in E].
    + destruct (idx + range_len r <? 0) eqn:E1; [reflexivity|].
      apply Z.ltb_ge in E1. lia.
    + destruct (idx <? 0) eqn:E1; [apply Z.ltb_lt in E1; lia|].
      destruct (range_len r <=? idx) eqn:E2; [reflexivity|]. apply Z.leb_gt in E2. lia.
Qed.

End GenericRangeIndex.

(** ** [primes.index] and [in primes] *)

Lemma increasing_nth_lower (l : list Z) (j : nat) :
  increasing l -> (j < List.length l)%nat -> nth 0 l 0 + Z.of_nat j <= nth j l 0.
Proof.
  intros Hinc. induction j as [|j IH]; intros Hj; [lia|].
  assert (nth j l 0 < nth (Datatypes.S j) l 0) by (apply Hinc; lia).
  specialize (IH ltac:(lia)). lia.
Qed.

(** Values to search up to [x]: pulls enough for the cache to reach [x],
    the same with any fuel from some bound on. *)
Lemma primes_reach (x : Z) (s : LazySequence Z Primes.gen_state) :
  primes_ok s ->
  exists (F n : nat) (us : list Z) (g' : Primes.gen_state),
    prime_prefix (_cache s ++ us) /\
    x <= last_of (_cache s ++ us) /\
    forall fuel : nat, (F <= fuel)%nat ->
      (n <= fuel)%nat /\
      produce (Primes.__genprimes fuel) n (_cache s) (iterator s) = Some (us, g').
Proof.
  intros Hok.
  destruct (produce_primes (Z.to_nat x) s Hok) as [F0 [us [g' [[Hpp _] Hp]]]].
  simpl in Hpp.
  exists (Nat.max F0 (Z.to_nat x)), (Z.to_nat x), us, g'.
  split; [assumption|]. split.
  - pose proof (produce_length _ _ _ _ _ _ _ _ (Hp F0 (Nat.le_refl _))) as Hlen.
    destruct (prime_prefix_length _ (proj1 Hok)) as [Hl2 _].
    destruct (prime_prefix_length _ Hpp) as [_ [H0 _]].
    pose proof Hpp as [_ [Hinc _]].
    pose proof (increasing_nth_lower (_cache s ++ us) (List.length (_cache s ++ us) - 1) Hinc)
      as Hlow.
    rewrite length_app in *. unfold last_of. rewrite length_app.
    specialize (Hlow ltac:(lia)). lia.
  - intros fuel Hf. split; [lia|]. apply Hp. lia.
Qed.

(** X18: [primes.index(x)], in any state [primes] can reach and with
    enough fuel: for a prime [x] it returns the number of primes below [x],
    and [x] is then cached at that index; for any other [x] it raises
    [ValueError] with the message "x is not in Primes". *)
Theorem primes_index (x : Z) (s : LazySequence Z Primes.gen_state) :
  reachable s ->
  exists F : nat, forall fuel : nat, (F <= fuel)%nat ->
    (is_prime x ->
     exists (idx : Z) (s' : LazySequence Z Primes.gen_state) (below : list Z),
       Primes.index fuel x s = (Ok idx, s') /\
       nth_error (_cache s') (Z.to_nat idx) = Some x /\
       Z.of_nat (List.length below) = idx /\ increasing below /\
       (forall q, In q below <-> is_prime q /\ q < x)) /\
    (~ is_prime x ->
     exists s' : LazySequence Z Primes.gen_state,
       Primes.index fuel x s
       = (Raise (ValueError (str x ++ " is not in Primes")), s')).
Proof.
  intros Hr. pose proof (reachable_primes_ok s Hr) as Hok.
  destruct (primes_reach x s Hok) as [F [n [us [g' [Hpp [Hx Hp]]]]]].
  exists F. intros fuel Hf. destruct (Hp fuel Hf) as [Hn Hprod].
  pose proof Hpp as [_ [Hinc [Hpr Hall]]].
  destruct (prime_prefix_length _ Hpp) as [Hl2 _].
  assert (Hex : exists v, In v (_cache s ++ us) /\ x <= v).
  { exists (last_of (_cache s ++ us)). split; [apply nth_In; lia|assumption]. }
  destruct (insertpos_spec Primes.gen_state (Primes.__genprimes fuel) s x fuel n us g'
              (increasing_nondecreasing _ Hinc) Hprod Hex Hn)
    as [idx [xs [zs [it' [H1 [H2 [H3 [[[Hi0 Hi1] [Hge Hbelow]] [H5 _]]]]]]]]].
  destruct (list_getitem_in_range (_cache s ++ xs) idx) as [w [Hw Hg]]; [lia|].
  assert (Hwn : w = nth (Z.to_nat idx) (_cache s ++ us) 0).
  { subst us. rewrite app_assoc. rewrite app_nth1 by lia.
    symmetry. now apply nth_error_nth. }
  assert (Hidx : Primes.index fuel x s
                 = (if x =? w then (Ok idx, mk_seq (_cache s ++ xs) it')
                    else (Raise (ValueError (str x ++ " is not in Primes")),
                          mk_seq (_cache s ++ xs) it'))).
  { unfold Primes.index, index, bind. rewrite H1. simpl. rewrite Hg.
    destruct (x =? w); reflexivity. }
  assert (Hwin : In w (_cache s ++ us)) by (rewrite Hwn; apply nth_In; lia).
  split.
  - intros Hxp.
    destruct (In_nth _ _ 0 (Hall x Hxp Hx)) as [k [Hk Hkx]].
    assert (Hik : (Z.to_nat idx <= k)%nat).
    { destruct (Nat.lt_ge_cases k (Z.to_nat idx)) as [Hlt|]; [|assumption].
      specialize (Hbelow k Hlt). lia. }
    assert (Hwx : w <= x).
    { rewrite Hwn, <- Hkx. apply increasing_le; [assumption|lia]. }
    assert (Hweq : x = w) by lia.
    rewrite Hidx. rewrite <- Hweq in *. rewrite Z.eqb_refl.
    assert (Hnth : nth_error (_cache s ++ us) (Z.to_nat idx) = Some x).
    { rewrite (nth_error_nth' (_cache s ++ us) 0) by lia. f_equal. symmetry. exact Hwn. }
    destruct (prime_prefix_nth _ _ _ Hpp Hnth) as [_ [Hlen Hb]].
    exists idx, (mk_seq (_cache s ++ xs) it'), (firstn (Z.to_nat idx) (_cache s ++ us)).
    split; [reflexivity|]. split; [exact Hw|]. split; [rewrite Hlen; lia|].
    split; [now apply increasing_firstn|assumption].
  - intros Hnp. exists (mk_seq (_cache s ++ xs) it'). rewrite Hidx.
    destruct (x =? w) eqn:E; [|reflexivity].
    apply Z.eqb_eq in E. elim Hnp. apply Hpr. rewrite E. exact Hwin.
Qed.

Lemma primes_index_witness :
  exists F : nat, forall fuel : nat, (F <= fuel)%nat ->
    (is_prime 11 ->
     exists (idx : Z) (s' : LazySequence Z Primes.gen_state) (below : list Z),
       Primes.index fuel 11 primes = (Ok idx, s') /\
       nth_error (_cache s') (Z.to_nat idx) = Some 11 /\
       Z.of_nat (List.length below) = idx /\ increasing below /\
       (forall q, In q below <-> is_prime q /\ q < 11)) /\
    (~ is_prime 11 ->
     exists s' : LazySequence Z Primes.gen_state,
       Primes.index fuel 11 primes
       = (Raise (ValueError (str 11 ++ " is not in Primes")), s')).
Proof.
  apply (primes_index 11 primes). apply reach_init.
Defined.

(** ** Searching [potencias] *)

Lemma potencias_step_enough (s : LazySequence Z Potencias.gen_state)
    (ls : list Potencias.level) :
  potencias_ok s ->
  fst (iterator s) = Some ls ->
  size (snd (iterator s)) < INFINITE ->
  exists (F : nat) (v : Z) (ls' : list Potencias.level) (P' : Potencias.primes_state),
    size P' <= size (snd (iterator s)) + 1 /\
    potencias_ok (mk_seq (_cache s ++ [v]) (Some ls', P')) /\
    forall fuel : nat, (F <= fuel)%nat ->
      Potencias.next_iterator fuel (_cache s) (iterator s) = (Ok v, (Some ls', P')).
Proof.
  intros Hok Hg Hsz. pose proof Hok as [HP [_ Hl]]. rewrite Hg in Hl.
  destruct s as [c [g P]]. simpl in *. subst g.
  assert (Hls : ls = [] \/ level_ok P 0 ls (last_of c)).
  { destruct Hl as [[-> _]|[_ Hl]]; [left; reflexivity|right; assumption]. }
  destruct (flat_productive ls 0 P (last_of c) HP Hls Hsz) as [F [v [ls' [P' [Hs H]]]]].
  exists F, v, ls', P'. split; [assumption|]. split.
  - pose proof (potencias_next_step F _ Hok) as Hstep. simpl in Hstep.
    rewrite (H F (Nat.le_refl _)) in Hstep. simpl in Hstep. apply Hstep.
  - intros fuel Hf. simpl. now rewrite (H fuel Hf).
Qed.

(** While [primes] stays below [sys.maxsize] values, the iterator of
    [potencias] yields any number of values, given enough fuel. *)
Lemma produce_potencias (n : nat) :
  forall (s : LazySequence Z Potencias.gen_state) (ls : list Potencias.level),
  potencias_ok s ->
  fst (iterator s) = Some ls ->
  size (snd (iterator s)) + Z.of_nat n <= INFINITE ->
  exists (F : nat) (xs : list Z) (g' : Potencias.gen_state),
    potencias_ok (mk_seq (_cache s ++ xs) g') /\
    forall fuel : nat, (F <= fuel)%nat ->
      produce (Potencias.next_iterator fuel) n (_cache s) (iterator s) = Some (xs, g').
Proof.
  induction n as [|n IH]; intros s ls Hok Hg Hsz.
  - exists 0%nat, [], (iterator s). split.
    + rewrite app_nil_r. destruct s; assumption.
    + intros fuel _. reflexivity.
  - assert (Hlt : size (snd (iterator s)) < INFINITE) by lia.
    destruct (potencias_step_enough s ls Hok Hg Hlt) as [F1 [v [ls' [P' [Hs [Hok1 H1]]]]]].
    destruct (IH (mk_seq (_cache s ++ [v]) (Some ls', P')) ls' Hok1 eq_refl)
      as [F2 [xs [g' [Hok' H2]]]]; [simpl; lia|].
    simpl in Hok', H2.
    exists (Nat.max F1 F2), (v :: xs), g'. split.
    + rewrite <- app_assoc in Hok'. exact Hok'.
    + intros fuel Hf. cbn [produce]. rewrite (H1 fuel) by lia.
      rewrite (H2 fuel) by lia. reflexivity.
Qed.

(** The value at index [i] of an increasing list of all the numbers with a
    property up to its last value has exactly [i] of them below it. *)
Lemma prefix_nth (Q : Z -> Prop) (c : list Z) (i : nat) (p : Z) :
  increasing c ->
  (forall w, In w c <-> Q w /\ w <= last_of c) ->
  nth_error c i = Some p ->
  List.length (firstn i c) = i /\
  (forall q, In q (firstn i c) <-> Q q /\ q < p).
Proof.
  intros Hinc Hall Hn.
  assert (Hi : (i < List.length c)%nat) by (apply nth_error_Some; congruence).
  assert (Hp : nth i c 0 = p) by (now apply nth_error_nth).
  split; [rewrite length_firstn; lia|].
  intros q. split.
  - intros Hin. destruct (In_nth _ _ 0 Hin) as [j [Hj Hjq]].
    rewrite length_firstn in Hj. rewrite nth_firstn in Hjq.
    destruct (j <? i)%nat eqn:E; [|apply Nat.ltb_ge in E; lia].
    apply Nat.ltb_lt in E. split.
    + apply (Hall q). rewrite <- Hjq. apply nth_In. lia.
    + rewrite <- Hjq, <- Hp. apply Hinc. lia.
  - intros [Hq Hqp].
    assert (Hple : p <= last_of c).
    { apply (Hall p). rewrite <- Hp. now apply nth_In. }
    assert (Hql : q <= last_of c) by lia.
    destruct (In_nth _ _ 0 (proj2 (Hall q) (conj Hq Hql))) as [j [Hj Hjq]].
    assert (Hji : (j < i)%nat).
    { apply (increasing_index_lt c); [assumption|assumption|assumption|lia]. }
    assert (Hq' : nth j (firstn i c) 0 = q).
    { rewrite nth_firstn. apply Nat.ltb_lt in Hji. now rewrite Hji. }
    rewrite <- Hq'. apply nth_In. rewrite length_firstn. lia.
Qed.

(** X19: [potencias.index(x)] and [x in potencias], in a state [potencias]
    can reach, with its generator not ended and room below [sys.maxsize]
    in [primes], given enough fuel: for a number [x] of the form
    [p ** 2 ** k] the index is the number of such numbers below [x], and
    [x in potencias] is [True]; for any other [x], [index] raises
    [ValueError] with "x is not in LazySortedSequence" and
    [x in potencias] is [False]. *)
Theorem potencias_index_contains
    (x : Z) (s : LazySequence Z Potencias.gen_state) (ls : list Potencias.level) :
  potencias_reachable s ->
  fst (iterator s) = Some ls ->
  size (snd (iterator s)) + Z.max 0 x + 1 <= INFINITE ->
  exists F : nat, forall fuel : nat, (F <= fuel)%nat ->
    (fermi_dirac x ->
     (exists (idx : Z) (s' : LazySequence Z Potencias.gen_state) (below : list Z),
        index (Potencias.next_iterator fuel) "LazySortedSequence" fuel x s = (Ok idx, s') /\
        nth_error (_cache s') (Z.to_nat idx) = Some x /\
        Z.of_nat (List.length below) = idx /\ increasing below /\
        (forall q, In q below <-> fermi_dirac q /\ q < x)) /\
     (exists s' : LazySequence Z Potencias.gen_state,
        __contains__ (Potencias.next_iterator fuel) fuel x s = (Ok true, s'))) /\
    (~ fermi_dirac x ->
     (exists s' : LazySequence Z Potencias.gen_state,
        index (Potencias.next_iterator fuel) "LazySortedSequence" fuel x s
        = (Raise (ValueError (str x ++ " is not in LazySortedSequence")), s')) /\
     (exists s' : LazySequence Z Potencias.gen_state,
        __contains__ (Potencias.next_iterator fuel) fuel x s = (Ok false, s'))).
Proof.
  intros Hr Hg Hsz. pose proof (potencias_reachable_ok s Hr) as Hok.
  set (n := Datatypes.S (Z.to_nat x)).
  assert (Hsz' : size (snd (iterator s)) + Z.of_nat n <= INFINITE) by (unfold n; lia).
  destruct (produce_potencias n s ls Hok Hg Hsz')
    as [F0 [us [g' [[_ [[Hinc Hall] _]] Hp]]]].
  simpl in Hinc, Hall.
  exists (Nat.max F0 n). intros fuel Hf.
  assert (Hprod : produce (Potencias.next_iterator fuel) n (_cache s) (iterator s)
                  = Some (us, g')) by (apply Hp; lia).
  pose proof (produce_length _ _ _ _ _ _ _ _ Hprod) as Hlen.
  assert (Hl1 : (1 <= List.length (_cache s ++ us))%nat)
    by (rewrite length_app; unfold n in Hlen; lia).
  assert (Hx : x <= last_of (_cache s ++ us)).
  { assert (Hlast : (List.length (_cache s ++ us) - 1 < List.length (_cache s ++ us))%nat)
      by lia.
    pose proof (increasing_nth_lower (_cache s ++ us) (List.length (_cache s ++ us) - 1) Hinc
                  Hlast) as Hlow.
    assert (H0 : 2 <= nth 0 (_cache s ++ us) 0).
    { assert (Hin : In (nth 0 (_cache s ++ us) 0) (_cache s ++ us)) by (apply nth_In; lia).
      apply Hall in Hin. destruct Hin as [Hfd _].
      pose proof (fermi_dirac_from_least 0 _ Hfd) as H2. simpl in H2. exact H2. }
    unfold last_of. rewrite length_app in *. unfold n in Hlen. lia. }
  assert (Hex : exists v, In v (_cache s ++ us) /\ x <= v).
  { exists (last_of (_cache s ++ us)). split; [apply nth_In; lia|assumption]. }
  assert (Hnf : (n <= fuel)%nat) by lia.
  destruct (insertpos_spec Potencias.gen_state (Potencias.next_iterator fuel) s x fuel n us g'
              (increasing_nondecreasing _ Hinc) Hprod Hex Hnf)
    as [idx [xs [zs [it' [H1 [H2 [H3 [[[Hi0 Hi1] [Hge Hbelow]] [H5 _]]]]]]]]].
  destruct (list_getitem_in_range (_cache s ++ xs) idx) as [w [Hw Hg']]; [lia|].
  assert (Hwn : w = nth (Z.to_nat idx) (_cache s ++ us) 0).
  { subst us. rewrite app_assoc. rewrite app_nth1 by lia.
    symmetry. now apply nth_error_nth. }
  assert (Hidx : index (Potencias.next_iterator fuel) "LazySortedSequence" fuel x s
                 = (if x =? w then (Ok idx, mk_seq (_cache s ++ xs) it')
                    else (Raise (ValueError (str x ++ " is not in LazySortedSequence")),
                          mk_seq (_cache s ++ xs) it'))).
  { unfold index, bind. rewrite H1. simpl. rewrite Hg'. destruct (x =? w); reflexivity. }
  assert (Hcon : __contains__ (Potencias.next_iterator fuel) fuel x s
                 = (Ok (x =? w), mk_seq (_cache s ++ xs) it')).
  { unfold __contains__, bind. rewrite H1. simpl. now rewrite Hg'. }
  assert (Hwin : In w (_cache s ++ us)) by (rewrite Hwn; apply nth_In; lia).
  rewrite Hidx, Hcon. split.
  - intros Hfd.
    destruct (In_nth _ _ 0 (proj2 (Hall x) (conj Hfd Hx))) as [k [Hk Hkx]].
    assert (Hik : (Z.to_nat idx <= k)%nat).
    { destruct (Nat.lt_ge_cases k (Z.to_nat idx)) as [Hlt|]; [|assumption].
      specialize (Hbelow k Hlt). lia. }
    assert (Hwx : w <= x).
    { rewrite Hwn, <- Hkx. apply increasing_le; [assumption|lia]. }
    assert (Hweq : x = w) by lia.
    rewrite <- Hweq in *. rewrite Z.eqb_refl.
    assert (Hnth : nth_error (_cache s ++ us) (Z.to_nat idx) = Some x).
    { rewrite (nth_error_nth' (_cache s ++ us) 0) by lia. f_equal. symmetry. exact Hwn. }
    destruct (prefix_nth fermi_dirac _ _ _ Hinc Hall Hnth) as [Hlenb Hb].
    split; [|eexists; reflexivity].
    exists idx, (mk_seq (_cache s ++ xs) it'), (firstn (Z.to_nat idx) (_cache s ++ us)).
    split; [reflexivity|]. split; [exact Hw|]. split; [rewrite Hlenb; lia|].
    split; [now apply increasing_firstn|assumption].
  - intros Hnfd.
    assert (Hne : (x =? w) = false).
    { apply Z.eqb_neq. intros Heq. apply Hnfd. rewrite Heq. now apply (Hall w). }
    rewrite Hne. split; eexists; reflexivity.
Qed.

Lemma potencias_index_contains_witness :
  exists F : nat, forall fuel : nat, (F <= fuel)%nat ->
    (fermi_dirac 16 ->
     (exists (idx : Z) (s' : LazySequence Z Potencias.gen_state) (below : list Z),
        index (Potencias.next_iterator fuel) "LazySortedSequence" fuel 16 potencias
        = (Ok idx, s') /\
        nth_error (_cache s') (Z.to_nat idx) = Some 16 /\
        Z.of_nat (List.length below) = idx /\ increasing below /\
        (forall q, In q below <-> fermi_dirac q /\ q < 16)) /\
     (exists s' : LazySequence Z Potencias.gen_state,
        __contains__ (Potencias.next_iterator fuel) fuel 16 potencias = (Ok true, s'))) /\
    (~ fermi_dirac 16 ->
     (exists s' : LazySequence Z Potencias.gen_state,
        index (Potencias.next_iterator fuel) "LazySortedSequence" fuel 16 potencias
        = (Raise (ValueError (str 16 ++ " is not in LazySortedSequence")), s')) /\
     (exists s' : LazySequence Z Potencias.gen_state,
        __contains__ (Potencias.next_iterator fuel) fuel 16 potencias = (Ok false, s'))).
Proof.
  apply (potencias_index_contains 16 potencias []).
  - apply pot_init. apply reach_init.
  - reflexivity.
  - intros H. discriminate H.
Defined.
